(** * redote: the WebSocket client state machine and the message-chain layer

    A shallow embedding of [src/websocket-client.ts], [src/message.ts],
    [src/crypto.ts] and the parts of [src/types.ts] they use, with the
    properties of the protocol state machine, the wire codec and the
    message normalizer proved over it.

    JavaScript strings are modelled as [string]s holding their UTF-8 code
    units; numbers are exact decimals (binary floating point rounding is
    not modelled), the integers among them as [Z]. *)

From Stdlib Require Import ZArith NArith List String Ascii Bool Lia.
From Stdlib Require Import DecimalFacts DecimalN.
From stdpp Require Import base option list gmap.

Import ListNotations.
Local Open Scope list_scope.
Set Warnings "-register-all".

(** ** Exceptions *)

Inductive error :=
| SyntaxError
| TypeError
| Error (msg : string).

Inductive outcome (A : Type) :=
| Ret (a : A)
| Throw (e : error).
Arguments Ret {A} a.
Arguments Throw {A} e.

Module Exn.
Definition bind {A B} (c : outcome A) (k : A -> outcome B) : outcome B :=
  match c with
  | Ret a => k a
  | Throw e => Throw e
  end.

(** [try { c } catch { h }] *)
Definition try_catch {A} (c : outcome A) (h : outcome A) : outcome A :=
  match c with
  | Ret a => Ret a
  | Throw _ => h
  end.
End Exn.

Declare Scope exn_scope.
Delimit Scope exn_scope with exn.
Notation "'try!' x ':=' c 'in' k" := (Exn.bind c (fun x => k))
  (at level 10, x name, c at level 100, k at level 200) : exn_scope.

(** ** JSON values and the text format ([JSON.parse], [JSON.stringify]) *)

Module Json.

(** A number is the exact decimal [m * 10^e], in the way [Number::toString]
    names a double by the shortest decimal that reads back as it.  The
    parser returns the canonical form: [e <= 0], and [e < 0] only when [m]
    is not a multiple of ten, so that the integers are exactly the
    [JNum m 0].  Every literal is read as the decimal it writes, which is
    what the code does up to the 15 significant digits a double keeps, and
    [-0] is read as [0].  An object is the list of its own properties in
    insertion order. *)
Inductive json :=
| JNull
| JBool (b : bool)
| JNum (m e : Z)
| JStr (s : string)
| JArr (l : list json)
| JObj (l : list (string * json)).

Definition JInt (z : Z) : json := JNum z 0.

(** *** Characters *)

Definition is_digit (c : ascii) : bool :=
  (48 <=? nat_of_ascii c)%nat && (nat_of_ascii c <=? 57)%nat.

Definition is_ws (c : ascii) : bool :=
  match nat_of_ascii c with
  | 32%nat | 9%nat | 10%nat | 13%nat => true
  | _ => false
  end.

Fixpoint skip_ws (s : list ascii) : list ascii :=
  match s with
  | c :: r => if is_ws c then skip_ws r else s
  | [] => []
  end.

Fixpoint span_digits (s : list ascii) : list ascii * list ascii :=
  match s with
  | c :: r =>
      if is_digit c then let '(ds, r') := span_digits r in (c :: ds, r')
      else ([], s)
  | [] => ([], [])
  end.

(** *** Decimal digits, through the Standard Library's [Decimal.uint] *)

Definition digit_of_nat (n : nat) : Decimal.uint -> Decimal.uint :=
  match n with
  | 0 => Decimal.D0 | 1 => Decimal.D1 | 2 => Decimal.D2 | 3 => Decimal.D3
  | 4 => Decimal.D4 | 5 => Decimal.D5 | 6 => Decimal.D6 | 7 => Decimal.D7
  | 8 => Decimal.D8 | _ => Decimal.D9
  end%nat.

Fixpoint uint_of_digits (ds : list ascii) : Decimal.uint :=
  match ds with
  | [] => Decimal.Nil
  | c :: r => digit_of_nat (nat_of_ascii c - 48) (uint_of_digits r)
  end.

Fixpoint digits_of_uint (u : Decimal.uint) : list ascii :=
  match u with
  | Decimal.Nil => []
  | Decimal.D0 u => "0"%char :: digits_of_uint u
  | Decimal.D1 u => "1"%char :: digits_of_uint u
  | Decimal.D2 u => "2"%char :: digits_of_uint u
  | Decimal.D3 u => "3"%char :: digits_of_uint u
  | Decimal.D4 u => "4"%char :: digits_of_uint u
  | Decimal.D5 u => "5"%char :: digits_of_uint u
  | Decimal.D6 u => "6"%char :: digits_of_uint u
  | Decimal.D7 u => "7"%char :: digits_of_uint u
  | Decimal.D8 u => "8"%char :: digits_of_uint u
  | Decimal.D9 u => "9"%char :: digits_of_uint u
  end.

Definition N_of_digits (ds : list ascii) : N := N.of_uint (uint_of_digits ds).
Definition digits_of_N (n : N) : list ascii := digits_of_uint (N.to_uint n).

(** *** Numbers *)

(** Strip the trailing zeros of the mantissa while the exponent is
    negative ([k] bounds the number of steps). *)
Fixpoint strip_zeros (k : nat) (m e : Z) : Z * Z :=
  match k with
  | O => (m, e)
  | S k =>
      if (e <? 0)%Z && (m mod 10 =? 0)%Z
      then strip_zeros k (m / 10)%Z (e + 1)%Z
      else (m, e)
  end.

Definition normalize (m e : Z) : Z * Z :=
  if (m =? 0)%Z then (0, 0)%Z
  else if (0 <=? e)%Z then ((m * 10 ^ e)%Z, 0%Z)
  else strip_zeros (Z.to_nat (- e)) m e.

(** [int] of the JSON grammar: ["0"], or digits not starting with ["0"]. *)
Definition int_ok (ds : list ascii) : bool :=
  match ds with
  | [] => false
  | [c] => true
  | c :: _ => negb (Ascii.eqb c "0")
  end.

(** [frac]: a ["."] followed by at least one digit. *)
Definition lex_frac (s : list ascii) : option (list ascii * list ascii) :=
  match s with
  | c :: r =>
      if Ascii.eqb c "." then
        match span_digits r with
        | ([], _) => None
        | (fs, r') => Some (fs, r')
        end
      else Some ([], s)
  | [] => Some ([], s)
  end.

Definition lex_exp_digits (neg : bool) (s : list ascii) : option (Z * list ascii) :=
  match span_digits s with
  | ([], _) => None
  | (es, r) =>
      let x := Z.of_N (N_of_digits es) in
      Some (if neg then (- x)%Z else x, r)
  end.

(** [exp]: ["e"] or ["E"], an optional sign, at least one digit. *)
Definition lex_exp (s : list ascii) : option (Z * list ascii) :=
  match s with
  | c :: r =>
      if Ascii.eqb c "e" || Ascii.eqb c "E" then
        match r with
        | x :: r' =>
            if Ascii.eqb x "-" then lex_exp_digits true r'
            else if Ascii.eqb x "+" then lex_exp_digits false r'
            else lex_exp_digits false r
        | [] => None
        end
      else Some (0%Z, s)
  | [] => Some (0%Z, s)
  end.

(** The number after its sign *)
Definition lex_unsigned (neg : bool) (s1 : list ascii) : option (json * list ascii) :=
  let '(ds, s2) := span_digits s1 in
  if int_ok ds then
    match lex_frac s2 with
    | Some (fs, s3) =>
        match lex_exp s3 with
        | Some (x, s4) =>
            let m := Z.of_N (N_of_digits (ds ++ fs)) in
            let '(m', e') :=
              normalize (if neg then (- m)%Z else m)
                        (x - Z.of_nat (length fs))%Z in
            Some (JNum m' e', s4)
        | None => None
        end
    | None => None
    end
  else None.

Definition lex_number (s : list ascii) : option (json * list ascii) :=
  match s with
  | c :: r => if Ascii.eqb c "-" then lex_unsigned true r else lex_unsigned false s
  | [] => None
  end.

(** *** Strings *)

Definition hex_digit (c : ascii) : option N :=
  let n := N_of_ascii c in
  if (48 <=? n)%N && (n <=? 57)%N then Some (n - 48)%N
  else if (97 <=? n)%N && (n <=? 102)%N then Some (n - 87)%N
  else if (65 <=? n)%N && (n <=? 70)%N then Some (n - 55)%N
  else None.

Definition hex4 (a b c d : ascii) : option N :=
  match hex_digit a, hex_digit b, hex_digit c, hex_digit d with
  | Some x, Some y, Some z, Some w => Some (((x * 16 + y) * 16 + z) * 16 + w)%N
  | _, _, _, _ => None
  end.

(** The UTF-8 code units of a code point below 0x110000; a lone
    surrogate is written in the same three-unit form. *)
Definition utf8_encode (cp : N) : list ascii :=
  if (cp <? 128)%N then [ascii_of_N cp]
  else if (cp <? 2048)%N then
    [ascii_of_N (192 + cp / 64); ascii_of_N (128 + cp mod 64)]
  else if (cp <? 65536)%N then
    [ascii_of_N (224 + cp / 4096); ascii_of_N (128 + (cp / 64) mod 64);
     ascii_of_N (128 + cp mod 64)]
  else
    [ascii_of_N (240 + cp / 262144); ascii_of_N (128 + (cp / 4096) mod 64);
     ascii_of_N (128 + (cp / 64) mod 64); ascii_of_N (128 + cp mod 64)].

Definition is_high_surrogate (n : N) : bool := (55296 <=? n)%N && (n <=? 56319)%N.
Definition is_low_surrogate (n : N) : bool := (56320 <=? n)%N && (n <=? 57343)%N.
Definition surrogate_pair (hi lo : N) : N :=
  (65536 + (hi - 55296) * 1024 + (lo - 56320))%N.

Definition simple_escape (c : ascii) : option ascii :=
  match c with
  | "034"%char => Some "034"%char
  | "\"%char => Some "\"%char
  | "/"%char => Some "/"%char
  | "b"%char => Some (ascii_of_nat 8)
  | "f"%char => Some (ascii_of_nat 12)
  | "n"%char => Some (ascii_of_nat 10)
  | "r"%char => Some (ascii_of_nat 13)
  | "t"%char => Some (ascii_of_nat 9)
  | _ => None
  end.

Definition prepend (pre : list ascii) (r : option (list ascii * list ascii))
  : option (list ascii * list ascii) :=
  match r with
  | Some (cs, rest) => Some (pre ++ cs, rest)
  | None => None
  end.

(** The characters of a string literal after its opening quote, up to
    the closing quote. *)
Fixpoint lex_string (s : list ascii) : option (list ascii * list ascii) :=
  match s with
  | [] => None
  | c :: r =>
      if Ascii.eqb c "034" then Some ([], r)
      else if Ascii.eqb c "\" then
        match r with
        | [] => None
        | x :: r1 =>
            if Ascii.eqb x "u" then
              match r1 with
              | h1 :: h2 :: h3 :: h4 :: r2 =>
                  match hex4 h1 h2 h3 h4 with
                  | None => None
                  | Some hi =>
                      let lone := prepend (utf8_encode hi) (lex_string r2) in
                      if is_high_surrogate hi then
                        match r2 with
                        | b :: u :: l1 :: l2 :: l3 :: l4 :: r3 =>
                            if Ascii.eqb b "\" && Ascii.eqb u "u" then
                              match hex4 l1 l2 l3 l4 with
                              | Some lo =>
                                  if is_low_surrogate lo
                                  then prepend (utf8_encode (surrogate_pair hi lo))
                                               (lex_string r3)
                                  else lone
                              | None => lone
                              end
                            else lone
                        | _ => lone
                        end
                      else lone
                  end
              | _ => None
              end
            else
              match simple_escape x with
              | Some y => prepend [y] (lex_string r1)
              | None => None
              end
        end
      else if (nat_of_ascii c <? 32)%nat then None
      else prepend [c] (lex_string r)
  end.

(** *** Values *)

(** The own property [k] of an object, [None] when it has none *)
Fixpoint lookup_prop (k : string) (l : list (string * json)) : option json :=
  match l with
  | [] => None
  | (k', v) :: r => if String.eqb k k' then Some v else lookup_prop k r
  end.

(** A property defined twice keeps its first position and its last
    value. *)
Fixpoint set_member (k : string) (v : json) (l : list (string * json))
  : list (string * json) :=
  match l with
  | [] => [(k, v)]
  | (k', v') :: r =>
      if String.eqb k k' then (k, v) :: r else (k', v') :: set_member k v r
  end.

Definition obj_of_members (ms : list (string * json)) : list (string * json) :=
  fold_left (fun acc kv => set_member (fst kv) (snd kv) acc) ms [].

(** [s] without its prefix [p] *)
Fixpoint strip_prefix (p s : list ascii) : option (list ascii) :=
  match p with
  | [] => Some s
  | a :: p' =>
      match s with
      | b :: s' => if Ascii.eqb a b then strip_prefix p' s' else None
      | [] => None
      end
  end.

Definition lex_literal (s : list ascii) : option (json * list ascii) :=
  match strip_prefix (list_ascii_of_string "true") s with
  | Some r => Some (JBool true, r)
  | None =>
      match strip_prefix (list_ascii_of_string "false") s with
      | Some r => Some (JBool false, r)
      | None =>
          match strip_prefix (list_ascii_of_string "null") s with
          | Some r => Some (JNull, r)
          | None => None
          end
      end
  end.

Fixpoint parse_value (fuel : nat) (s : list ascii) {struct fuel}
  : option (json * list ascii) :=
  match fuel with
  | O => None
  | S fuel =>
      match skip_ws s with
      | [] => None
      | c :: r =>
          if Ascii.eqb c "{" then
            match skip_ws r with
            | c' :: r' =>
                if Ascii.eqb c' "}" then Some (JObj [], r')
                else
                  match parse_members fuel r with
                  | Some (ms, r'') => Some (JObj (obj_of_members ms), r'')
                  | None => None
                  end
            | [] => None
            end
          else if Ascii.eqb c "[" then
            match skip_ws r with
            | c' :: r' =>
                if Ascii.eqb c' "]" then Some (JArr [], r')
                else
                  match parse_elements fuel r with
                  | Some (vs, r'') => Some (JArr vs, r'')
                  | None => None
                  end
            | [] => None
            end
          else if Ascii.eqb c "034" then
            match lex_string r with
            | Some (cs, r') => Some (JStr (string_of_list_ascii cs), r')
            | None => None
            end
          else if Ascii.eqb c "-" || is_digit c then lex_number (c :: r)
          else lex_literal (c :: r)
      end
  end

(** [value ("," value)* "]"] *)
with parse_elements (fuel : nat) (s : list ascii) {struct fuel}
  : option (list json * list ascii) :=
  match fuel with
  | O => None
  | S fuel =>
      match parse_value fuel s with
      | Some (v, r) =>
          match skip_ws r with
          | c :: r' =>
              if Ascii.eqb c "]" then Some ([v], r')
              else if Ascii.eqb c "," then
                match parse_elements fuel r' with
                | Some (vs, r'') => Some (v :: vs, r'')
                | None => None
                end
              else None
          | [] => None
          end
      | None => None
      end
  end

(** [string ":" value ("," string ":" value)* "}"] *)
with parse_members (fuel : nat) (s : list ascii) {struct fuel}
  : option (list (string * json) * list ascii) :=
  match fuel with
  | O => None
  | S fuel =>
      match skip_ws s with
      | q :: r0 =>
          if Ascii.eqb q "034" then
            match lex_string r0 with
            | Some (ks, r1) =>
                match skip_ws r1 with
                | col :: r2 =>
                    if Ascii.eqb col ":" then
                      match parse_value fuel r2 with
                      | Some (v, r3) =>
                          let k := string_of_list_ascii ks in
                          match skip_ws r3 with
                          | c :: r4 =>
                              if Ascii.eqb c "}" then Some ([(k, v)], r4)
                              else if Ascii.eqb c "," then
                                match parse_members fuel r4 with
                                | Some (ms, r5) => Some ((k, v) :: ms, r5)
                                | None => None
                                end
                              else None
                          | [] => None
                          end
                      | None => None
                      end
                    else None
                | [] => None
                end
            | None => None
            end
          else None
      | [] => None
      end
  end.

(** [JSON.parse]: one value between optional white space; [None] is the
    [SyntaxError]. *)
Definition parse (text : string) : option json :=
  let s := list_ascii_of_string text in
  match parse_value (S (length s)) s with
  | Some (v, r) =>
      match skip_ws r with
      | [] => Some v
      | _ :: _ => None
      end
  | None => None
  end.

(** *** [JSON.stringify] *)

Definition hex_char (n : N) : ascii :=
  if (n <? 10)%N then ascii_of_N (48 + n) else ascii_of_N (87 + n).

(** [QuoteJSONString]: the two-character escapes, [\u00xx] for the other
    control characters, every other code unit as it is. *)
Definition quote_char (c : ascii) : list ascii :=
  if Ascii.eqb c "034" then ["\"; "034"]%char
  else if Ascii.eqb c "\" then ["\"; "\"]%char
  else
    match nat_of_ascii c with
    | 8%nat => ["\"; "b"]%char
    | 12%nat => ["\"; "f"]%char
    | 10%nat => ["\"; "n"]%char
    | 13%nat => ["\"; "r"]%char
    | 9%nat => ["\"; "t"]%char
    | n =>
        if (n <? 32)%nat then
          ["\"; "u"; "0"; "0"]%char
            ++ [hex_char (N.of_nat n / 16); hex_char (N.of_nat n mod 16)]
        else [c]
    end.

Definition quote (s : list ascii) : list ascii :=
  "034"%char :: flat_map quote_char s ++ ["034"%char].

(** [Number::toString] writes a number that is not zero from the integers
    [s], [k] and [n] such that [s] has [k] digits, the last of them not a
    zero, and the number is [s * 10^(n-k)].  [shorten] takes the trailing
    zeros from [s] and counts them ([j] bounds the number of steps). *)
Fixpoint shorten (j : nat) (s z : Z) : Z * Z :=
  match j with
  | O => (s, z)
  | S j => if (s mod 10 =? 0)%Z then shorten j (s / 10)%Z (z + 1)%Z else (s, z)
  end.

(** The exponent part: ["e"], the sign, the digits *)
Definition print_exponent (x : Z) : list ascii :=
  "e"%char :: (if (x <? 0)%Z then "-"%char else "+"%char) :: digits_of_N (Z.abs_N x).

(** The number with a fraction or an exponent, from the digits [ds] of [s]
    and from [n] *)
Definition print_fraction (ds : list ascii) (n : Z) : list ascii :=
  if (0 <? n)%Z && (n <=? 21)%Z then
    firstn (Z.to_nat n) ds ++ "."%char :: skipn (Z.to_nat n) ds
  else if (-6 <? n)%Z && (n <=? 0)%Z then
    "0"%char :: "."%char :: repeat "0"%char (Z.to_nat (- n)) ++ ds
  else
    match ds with
    | [] => []
    | [d] => d :: print_exponent (n - 1)
    | d :: rest => d :: "."%char :: rest ++ print_exponent (n - 1)
    end.

(** [Number::toString] of [m * 10^e]: an integer below 1e21 is written
    with all its digits ([s] followed by [n - k] zeros), another number of
    at most 21 digits before the point, or of at most 6 zeros after it,
    with a fraction, and every other number with an exponent. *)
Definition print_number (m e : Z) : list ascii :=
  let '(m1, e1) := normalize m e in
  if (m1 =? 0)%Z then ["0"%char]
  else
    let sign := if (m1 <? 0)%Z then ["-"%char] else [] in
    let '(s, z) := shorten (length (digits_of_N (Z.abs_N m1))) (Z.abs m1) 0 in
    let ds := digits_of_N (Z.to_N s) in
    let k := Z.of_nat (length ds) in
    let n := (k + z + e1)%Z in
    if (k <=? n)%Z && (n <=? 21)%Z
    then sign ++ digits_of_N (Z.to_N (s * 10 ^ (n - k)))
    else sign ++ print_fraction ds n.

Fixpoint join_with (sep : list ascii) (l : list (list ascii)) : list ascii :=
  match l with
  | [] => []
  | [x] => x
  | x :: r => x ++ sep ++ join_with sep r
  end.

Fixpoint print (v : json) : list ascii :=
  match v with
  | JNull => list_ascii_of_string "null"
  | JBool true => list_ascii_of_string "true"
  | JBool false => list_ascii_of_string "false"
  | JNum m e => print_number m e
  | JStr s => quote (list_ascii_of_string s)
  | JArr l => "["%char :: join_with [","%char] (map print l) ++ ["]"%char]
  | JObj l =>
      "{"%char
        :: join_with [","%char]
             (map (fun kv => quote (list_ascii_of_string (fst kv))
                               ++ ":"%char :: print (snd kv)) l)
        ++ ["}"%char]
  end.

Definition stringify (v : json) : string := string_of_list_ascii (print v).

(** *** What the round trip is stated with *)

(** The next character cannot continue a token ending there *)
Definition stops (r : list ascii) : Prop :=
  match r with
  | [] => True
  | c :: _ => is_digit c = false /\ Ascii.eqb c "." = false
              /\ Ascii.eqb c "e" = false /\ Ascii.eqb c "E" = false
  end.

(** The next character is no digit *)
Definition no_digit (r : list ascii) : Prop :=
  match r with [] => True | c :: _ => is_digit c = false end.

(** The fuel [n] decides: a result at [n] consumes input, and is the result at
    every larger fuel and at every fuel that covers what was consumed. *)
Definition enough {A} (f : nat -> list ascii -> option (A * list ascii)) (n : nat) : Prop :=
  forall s v r, f n s = Some (v, r) ->
    length r < length s /\
    forall m, n <= m \/ length s - length r <= m -> f m s = Some (v, r).

(** *** Well-formed values: the values as [JSON.parse] returns them, with
    the numbers in canonical form and the keys of an object distinct *)
Definition canonical (m e : Z) : bool :=
  (e =? 0)%Z || ((e <? 0)%Z && negb (m mod 10 =? 0)%Z).

Fixpoint distinct (ks : list string) : bool :=
  match ks with
  | [] => true
  | k :: r => negb (existsb (String.eqb k) r) && distinct r
  end.

Fixpoint wf (v : json) : bool :=
  match v with
  | JNull | JBool _ | JStr _ => true
  | JNum m e => canonical m e
  | JArr l => forallb wf l
  | JObj l => distinct (map fst l) && forallb (fun kv => wf (snd kv)) l
  end.

(** Induction over values, through the lists they nest *)
Section JsonInduction.
Variable P : json -> Prop.
Hypothesis Hnull : P JNull.
Hypothesis Hbool : forall b, P (JBool b).
Hypothesis Hnum : forall m e, P (JNum m e).
Hypothesis Hstr : forall s, P (JStr s).
Hypothesis Harr : forall l, Forall P l -> P (JArr l).
Hypothesis Hobj : forall l, Forall (fun kv => P (snd kv)) l -> P (JObj l).

Fixpoint json_nested_ind (v : json) : P v :=
  match v with
  | JNull => Hnull
  | JBool b => Hbool b
  | JNum m e => Hnum m e
  | JStr s => Hstr s
  | JArr l =>
      Harr l ((fix go (l : list json) : Forall P l :=
                 match l with
                 | [] => @List.Forall_nil _ P
                 | x :: r => @List.Forall_cons _ P x r (json_nested_ind x) (go r)
                 end) l)
  | JObj l =>
      Hobj l ((fix go (l : list (string * json)) : Forall (fun kv => P (snd kv)) l :=
                 match l with
                 | [] => @List.Forall_nil _ _
                 | (k, x) :: r =>
                     @List.Forall_cons _ (fun kv => P (snd kv)) (k, x) r (json_nested_ind x) (go r)
                 end) l)
  end.
End JsonInduction.

(** A first character of a printed value: not white space, not a closing
    bracket *)
Definition value_start (c : ascii) : Prop :=
  is_ws c = false /\ Ascii.eqb c "]" = false /\ Ascii.eqb c "}" = false.

(** The printed value reads back, whatever follows it *)
Definition parses (v : json) : Prop :=
  forall r, stops r -> exists n, parse_value n (print v ++ r) = Some (v, r).

(** One printed property of an object *)
Definition member (kv : string * json) : list ascii :=
  quote (list_ascii_of_string (fst kv)) ++ ":"%char :: print (snd kv).

End Json.

(** ** Message segments, builder and parser ([src/message.ts], [src/types.ts]) *)

Module Message.
Import Json.
Local Open Scope string_scope.

(** A value of type [any]: [None] is [undefined]. *)
Definition any := option json.

(** The segments of [types.ts].  The fields that [parseMessage] fills
    from parsed JSON without a check hold [any]; the others have their
    declared type.  [OtherSegment] is a segment whose [type] tag is none
    of the eight known ones. *)
Inductive MessageSegment :=
| TextSegment (text : string)
| ImageSegment (file : option string) (url width height : any)
| VideoSegment (file : option string) (url duration : any)
| VoiceSegment (file : option string) (url duration : any)
| CardSegment (content : string) (cardType : option string)
| NoteSegment (noteId : string) (title content url : option string)
| EmoticonSegment (id : json) (name url : any)
| AtSegment (userId : string) (name : option string)
| OtherSegment (type : string).

Definition MessageChain := list MessageSegment.

(** *** The parts of the language used on parsed values *)

(** [ToBoolean] *)
Definition truthy (v : json) : bool :=
  match v with
  | JNull => false
  | JBool b => b
  | JNum m _ => negb (m =? 0)%Z
  | JStr s => negb (String.eqb s "")
  | JArr _ | JObj _ => true
  end.

(** [v.k] for a parsed value [v] and the keys read by the parser ([link],
    [size], [url], [duration], [id], [name]): an own property of an
    object; a [TypeError] on [null]; [undefined] on numbers, booleans,
    strings and arrays, whose prototypes define none of these keys as a
    data property (the [link] of a string is a method, of which the parser
    reads [preViewUrl], which it does not have, so [undefined] stands for
    it). *)
Definition get (v : json) (k : string) : outcome any :=
  match v with
  | JNull => Throw TypeError
  | JObj l => Ret (lookup_prop k l)
  | _ => Ret None
  end.

(** [a?.k] *)
Definition get_optional (a : any) (k : string) : any :=
  match a with
  | None | Some JNull => None
  | Some (JObj l) => lookup_prop k l
  | Some _ => None
  end.

(** [JSON.parse] as an operation that throws *)
Definition JSON_parse (text : string) : outcome json :=
  match Json.parse text with
  | Some v => Ret v
  | None => Throw SyntaxError
  end.

(** [a || b] *)
Definition or_else (a : any) (b : json) : json :=
  match a with
  | Some v => if truthy v then v else b
  | None => b
  end.

(** [Array.prototype.join]: the elements separated by [sep]. *)
Fixpoint join (sep : string) (l : list string) : string :=
  match l with
  | [] => ""
  | [x] => x
  | x :: r => x ++ sep ++ join sep r
  end.

(** [ToString] of a parsed value (an element of a joined array that is
    [null] counts as the empty string). *)
Fixpoint to_string (v : json) : string :=
  match v with
  | JNull => "null"
  | JBool true => "true"
  | JBool false => "false"
  | JNum m e => string_of_list_ascii (print_number m e)
  | JStr s => s
  | JArr l =>
      join "," (map (fun x => match x with JNull => "" | _ => to_string x end) l)
  | JObj _ => "[object Object]"
  end.

(** *** [MessageBuilder] *)

Module MessageBuilder.
Definition text (text : string) : MessageSegment := TextSegment text.
Definition image (file : option string) (url width height : any) : MessageSegment :=
  ImageSegment file url width height.
Definition video (file : option string) (url duration : any) : MessageSegment :=
  VideoSegment file url duration.
Definition voice (file : option string) (url duration : any) : MessageSegment :=
  VoiceSegment file url duration.
Definition card (content : string) (cardType : option string) : MessageSegment :=
  CardSegment content cardType.
Definition note (noteId : string) (title content url : option string) : MessageSegment :=
  NoteSegment noteId title content url.
Definition emoticon (id : json) (name url : any) : MessageSegment :=
  EmoticonSegment id name url.
Definition at_ (userId : string) (name : option string) : MessageSegment :=
  AtSegment userId name.
Definition fromString (t : string) : MessageChain := [text t].
Definition fromSegments (segments : list MessageSegment) : MessageChain := segments.
End MessageBuilder.

(** *** The kinds of segment *)

(** The tags of the known segments ([MessageSegmentType] of [types.ts]) *)
Module MessageSegmentType.
Inductive t := TEXT | IMAGE | VIDEO | VOICE | CARD | NOTE | EMOTICON | AT.
Definition eqb (a b : t) : bool :=
  match a, b with
  | TEXT, TEXT | IMAGE, IMAGE | VIDEO, VIDEO | VOICE, VOICE
  | CARD, CARD | NOTE, NOTE | EMOTICON, EMOTICON | AT, AT => true
  | _, _ => false
  end.
End MessageSegmentType.

(** The tag of a segment when it is one of the known ones *)
Definition kind (segment : MessageSegment) : option MessageSegmentType.t :=
  match segment with
  | TextSegment _ => Some MessageSegmentType.TEXT
  | ImageSegment _ _ _ _ => Some MessageSegmentType.IMAGE
  | VideoSegment _ _ _ => Some MessageSegmentType.VIDEO
  | VoiceSegment _ _ _ => Some MessageSegmentType.VOICE
  | CardSegment _ _ => Some MessageSegmentType.CARD
  | NoteSegment _ _ _ _ => Some MessageSegmentType.NOTE
  | EmoticonSegment _ _ _ => Some MessageSegmentType.EMOTICON
  | AtSegment _ _ => Some MessageSegmentType.AT
  | OtherSegment _ => None
  end.

(** [segment.type === type] for a known [type] *)
Definition has_type (type : MessageSegmentType.t) (segment : MessageSegment) : bool :=
  match kind segment with
  | Some k => MessageSegmentType.eqb k type
  | None => false
  end.

(** *** [MessageParser] *)

Module MessageParser.

(** [chain.push(x)] on the local array *)
Definition push (chain : MessageChain) (x : MessageSegment) : MessageChain :=
  (chain ++ [x])%list.

Definition parseMessage (messageType content : string) : outcome MessageChain :=
  let chain : MessageChain := [] in
  if String.eqb messageType "TEXT" then
    Ret (push chain (MessageBuilder.text content))
  else if String.eqb messageType "IMAGE" then
    Exn.try_catch
      (try! imageData := JSON_parse content in
       try! link := get imageData "link" in
       try! size := get imageData "size" in
       Ret (push chain (MessageBuilder.image None
                          (get_optional link "preViewUrl")
                          (get_optional size "width")
                          (get_optional size "height"))))%exn
      (Ret (push chain (MessageBuilder.text content)))
  else if String.eqb messageType "VIDEO" then
    Exn.try_catch
      (try! videoData := JSON_parse content in
       try! url := get videoData "url" in
       try! duration := get videoData "duration" in
       Ret (push chain (MessageBuilder.video None url duration)))%exn
      (Ret (push chain (MessageBuilder.text content)))
  else if String.eqb messageType "VOICE" then
    Exn.try_catch
      (try! voiceData := JSON_parse content in
       try! url := get voiceData "url" in
       try! duration := get voiceData "duration" in
       Ret (push chain (MessageBuilder.voice None url duration)))%exn
      (Ret (push chain (MessageBuilder.text content)))
  else if String.eqb messageType "CARD" then
    Ret (push chain (MessageBuilder.card content None))
  else if String.eqb messageType "NOTE" then
    Ret (push chain (MessageBuilder.note content None None None))
  else if String.eqb messageType "EMOTICON" then
    Exn.try_catch
      (try! emoticonData := JSON_parse content in
       try! id := get emoticonData "id" in
       try! name := get emoticonData "name" in
       try! url := get emoticonData "url" in
       Ret (push chain (MessageBuilder.emoticon (or_else id (JStr content)) name url)))%exn
      (Ret (push chain (MessageBuilder.emoticon (JStr content) None None)))
  else
    Ret (push chain (MessageBuilder.text content)).

(** The callback of [chain.map] in [chainToText]; [join] then applies
    [ToString] to what it returns. *)
Definition segmentText (segment : MessageSegment) : string :=
  match segment with
  | TextSegment text => text
  | ImageSegment _ _ _ _ => "[图片]"
  | VideoSegment _ _ _ => "[视频]"
  | VoiceSegment _ _ _ => "[语音]"
  | CardSegment _ _ => "[卡片]"
  | NoteSegment _ _ _ _ => "[笔记]"
  | EmoticonSegment _ name _ => to_string (or_else name (JStr "[表情]"))
  | AtSegment userId name =>
      "@" ++ match name with
             | Some n => if String.eqb n "" then userId else n
             | None => userId
             end
  | OtherSegment _ => "[未知消息]"
  end.

Definition chainToText (chain : MessageChain) : string :=
  join "" (map segmentText chain).

Definition hasSegmentType (chain : MessageChain) (type : MessageSegmentType.t) : bool :=
  existsb (has_type type) chain.

Definition getSegmentsByType (chain : MessageChain) (type : MessageSegmentType.t)
  : MessageChain :=
  List.filter (has_type type) chain.

(** [(segment as TextSegment).data.text], which [join] reads as the empty
    string when it is [undefined]; the data of the other known kinds have
    no [text]. *)
Definition data_text (segment : MessageSegment) : string :=
  match segment with
  | TextSegment text => text
  | _ => ""
  end.

Definition getTextContent (chain : MessageChain) : string :=
  join "" (map data_text (getSegmentsByType chain MessageSegmentType.TEXT)).

End MessageParser.

(** *** [MessageChainUtils] *)

Module MessageChainUtils.
Definition isEmpty (chain : MessageChain) : bool := (length chain =? 0)%nat.
Definition isTextOnly (chain : MessageChain) : bool :=
  forallb (has_type MessageSegmentType.TEXT) chain.
(** [chains.flat()] *)
Definition merge (chains : list MessageChain) : MessageChain := concat chains.
Definition filter (chain : MessageChain) (predicate : MessageSegment -> bool)
  : MessageChain :=
  List.filter predicate chain.
Definition map {T} (chain : MessageChain) (mapper : MessageSegment -> T) : list T :=
  List.map mapper chain.
End MessageChainUtils.

(** *** What the properties are stated with *)

(** The text of a segment in the words of the specification, with what the
    code does for an emoticon: its name when it has one *)
Definition rendering (segment : MessageSegment) : string :=
  match segment with
  | TextSegment text => text
  | AtSegment userId (Some name) => "@" ++ (if String.eqb name "" then userId else name)
  | AtSegment userId None => "@" ++ userId
  | ImageSegment _ _ _ _ => "[图片]"
  | VideoSegment _ _ _ => "[视频]"
  | VoiceSegment _ _ _ => "[语音]"
  | CardSegment _ _ => "[卡片]"
  | NoteSegment _ _ _ _ => "[笔记]"
  | EmoticonSegment _ (Some (JStr name)) _ => if String.eqb name "" then "[表情]" else name
  | EmoticonSegment _ (Some v) _ => if truthy v then to_string v else "[表情]"
  | EmoticonSegment _ None _ => "[表情]"
  | OtherSegment _ => "[未知消息]"
  end.

(** The fixed label that the specification gives to every known kind but
    Text and At *)
Definition fixed_label (segment : MessageSegment) : option string :=
  match segment with
  | ImageSegment _ _ _ _ => Some "[图片]"
  | VideoSegment _ _ _ => Some "[视频]"
  | VoiceSegment _ _ _ => Some "[语音]"
  | CardSegment _ _ => Some "[卡片]"
  | NoteSegment _ _ _ _ => Some "[笔记]"
  | EmoticonSegment _ _ _ => Some "[表情]"
  | _ => None
  end.

Definition smile : MessageSegment :=
  MessageBuilder.emoticon (JStr "smile") (Some (JStr "😊")) None.

(** The discriminators that [parseMessage] does not read as text *)
Definition structured_types : list string :=
  ["IMAGE"; "VIDEO"; "VOICE"; "CARD"; "NOTE"; "EMOTICON"].

(** The kind of segment that [parseMessage] makes for a discriminator when
    the content is as expected *)
Definition expected_kind (messageType : string) : MessageSegmentType.t :=
  if String.eqb messageType "IMAGE" then MessageSegmentType.IMAGE
  else if String.eqb messageType "VIDEO" then MessageSegmentType.VIDEO
  else if String.eqb messageType "VOICE" then MessageSegmentType.VOICE
  else if String.eqb messageType "CARD" then MessageSegmentType.CARD
  else if String.eqb messageType "NOTE" then MessageSegmentType.NOTE
  else if String.eqb messageType "EMOTICON" then MessageSegmentType.EMOTICON
  else MessageSegmentType.TEXT.

(** The result of an upload as [uploadImage] of [redote.ts] builds it, which
    [sendImage] sends as the content of an IMAGE message *)
Definition upload_result (cloudType bizName scene fileId preViewUrl : string)
           (width height : Z) : json :=
  JObj [("link", JObj [("cloudType", JStr cloudType); ("bizName", JStr bizName);
                       ("scene", JStr scene); ("fileId", JStr fileId);
                       ("preViewUrl", JStr preViewUrl)]);
        ("size", JObj [("width", JInt width); ("height", JInt height)])].

End Message.

(** ** The secure-channel cipher ([src/crypto.ts]) *)

Module Crypto.
Local Open Scope Z_scope.

(** A byte is a [Z] in [0, 256); a [Buffer] is a list of bytes. *)
Definition Buffer := list Z.

(** [Buffer.from(s, 'utf8')] *)
Definition Buffer_from (s : string) : Buffer :=
  map (fun c => Z.of_N (N_of_ascii c)) (list_ascii_of_string s).

(** [Buffer.alloc(n)]: [n] zero bytes *)
Definition Buffer_alloc (n : nat) : Buffer := repeat 0 n.

(** [src.copy(target)]: the bytes of [src] written over the start of
    [target], as many as fit. *)
Definition Buffer_copy (src target : Buffer) : Buffer :=
  firstn (length target) src ++ skipn (length src) target.

(** [buf.subarray(0, n)] *)
Definition subarray (n : nat) (buf : Buffer) : Buffer := firstn n buf.

(** *** AES-128 (FIPS 197), the cipher behind [createCipheriv('aes-128-ecb')] *)

Definition xtime (b : Z) : Z :=
  Z.land (Z.lxor (Z.shiftl b 1) (if Z.testbit b 7 then 27 else 0)) 255.

Fixpoint gmul_aux (n : nat) (a b acc : Z) : Z :=
  match n with
  | O => acc
  | S n =>
      gmul_aux n (xtime a) (Z.shiftr b 1)
               (if Z.testbit b 0 then Z.lxor acc a else acc)
  end.

(** Multiplication in GF(2^8) modulo x^8 + x^4 + x^3 + x + 1 *)
Definition gmul (a b : Z) : Z := gmul_aux 8 a b 0.

(** The multiplicative inverse, [b^254] (and 0 for 0) *)
Definition ginv (b : Z) : Z :=
  let b2 := gmul b b in
  let b4 := gmul b2 b2 in
  let b8 := gmul b4 b4 in
  let b16 := gmul b8 b8 in
  let b32 := gmul b16 b16 in
  let b64 := gmul b32 b32 in
  let b128 := gmul b64 b64 in
  gmul b128 (gmul b64 (gmul b32 (gmul b16 (gmul b8 (gmul b4 b2))))).

Definition rotl8 (b : Z) (k : Z) : Z :=
  Z.land (Z.lor (Z.shiftl b k) (Z.shiftr b (8 - k))) 255.

Definition sbox_of (b : Z) : Z :=
  let x := ginv b in
  Z.lxor (Z.lxor (Z.lxor (Z.lxor (Z.lxor x (rotl8 x 1)) (rotl8 x 2)) (rotl8 x 3))
                 (rotl8 x 4)) 99.

Definition sbox_table : list Z :=
  Eval vm_compute in map (fun i => sbox_of (Z.of_nat i)) (seq 0 256).

Definition sbox (b : Z) : Z := nth (Z.to_nat b) sbox_table 0.

Definition xor_bytes (a b : list Z) : list Z :=
  map (fun p => Z.lxor (fst p) (snd p)) (combine a b).

Definition SubBytes (st : list Z) : list Z := map sbox st.

(** The state is stored column by column: byte [r + 4c] is row [r] of
    column [c]. *)
Definition ShiftRows (st : list Z) : list Z :=
  map (fun i => nth ((i mod 4) + 4 * ((i / 4 + i mod 4) mod 4))%nat st 0) (seq 0 16).

Definition mix_column (a0 a1 a2 a3 : Z) : list Z :=
  [ Z.lxor (Z.lxor (Z.lxor (gmul 2 a0) (gmul 3 a1)) a2) a3;
    Z.lxor (Z.lxor (Z.lxor a0 (gmul 2 a1)) (gmul 3 a2)) a3;
    Z.lxor (Z.lxor (Z.lxor a0 a1) (gmul 2 a2)) (gmul 3 a3);
    Z.lxor (Z.lxor (Z.lxor (gmul 3 a0) a1) a2) (gmul 2 a3) ].

Fixpoint MixColumns (st : list Z) : list Z :=
  match st with
  | a0 :: a1 :: a2 :: a3 :: r => mix_column a0 a1 a2 a3 ++ MixColumns r
  | _ => []
  end.

Definition RotWord (w : list Z) : list Z :=
  match w with
  | a :: r => r ++ [a]
  | [] => []
  end.

(** The next round key from the previous one and the round constant *)
Definition next_round_key (rk : list Z) (rcon : Z) : list Z :=
  let w0 := firstn 4 rk in
  let w1 := firstn 4 (skipn 4 rk) in
  let w2 := firstn 4 (skipn 8 rk) in
  let w3 := firstn 4 (skipn 12 rk) in
  let t := xor_bytes (map sbox (RotWord w3)) [rcon; 0; 0; 0] in
  let n0 := xor_bytes w0 t in
  let n1 := xor_bytes w1 n0 in
  let n2 := xor_bytes w2 n1 in
  let n3 := xor_bytes w3 n2 in
  n0 ++ n1 ++ n2 ++ n3.

Definition rcons : list Z := [1; 2; 4; 8; 16; 32; 64; 128; 27; 54].

(** The round keys 1 to 10 *)
Fixpoint KeyExpansion (rk : list Z) (rcs : list Z) : list (list Z) :=
  match rcs with
  | [] => []
  | rc :: rcs' =>
      let rk' := next_round_key rk rc in
      rk' :: KeyExpansion rk' rcs'
  end.

Fixpoint rounds (st : list Z) (rks : list (list Z)) : list Z :=
  match rks with
  | [] => st
  | [rk] => xor_bytes (ShiftRows (SubBytes st)) rk
  | rk :: rks' =>
      rounds (xor_bytes (MixColumns (ShiftRows (SubBytes st))) rk) rks'
  end.

(** One 16-byte block under a 16-byte key *)
Definition aes128_block (key block : list Z) : list Z :=
  rounds (xor_bytes block key) (KeyExpansion key rcons).

(** *** Blocks, padding and the text encodings *)

(** The complete 16-byte blocks at the start of [data], each
    encrypted ([n] bounds their number); what [cipher.update] returns. *)
Fixpoint ecb_blocks (n : nat) (key data : list Z) : list Z :=
  match n with
  | O => []
  | S n =>
      if (16 <=? length data)%nat
      then aes128_block key (firstn 16 data) ++ ecb_blocks n key (skipn 16 data)
      else []
  end.

(** The bytes after the last complete block *)
Definition tail_bytes (data : list Z) : list Z :=
  skipn (16 * (length data / 16)) data.

(** PKCS#7: [16 - len mod 16] bytes of that value *)
Definition pkcs7 (data : list Z) : list Z :=
  let p := (16 - length data mod 16)%nat in
  data ++ repeat (Z.of_nat p) p.

Definition cipher_update (key data : list Z) : list Z :=
  ecb_blocks (length data) key data.

(** What [cipher.final] returns with automatic padding: the padded last
    block, encrypted. *)
Definition cipher_final (key data : list Z) : list Z :=
  aes128_block key (pkcs7 (tail_bytes data)).

Definition base64_alphabet : string :=
  "ABCDEFGHIJKLMNOPQRSTUVWXYZabcdefghijklmnopqrstuvwxyz0123456789+/".

Definition b64 (n : Z) : ascii :=
  match String.get (Z.to_nat n) base64_alphabet with
  | Some c => c
  | None => "="%char
  end.

Fixpoint base64 (data : list Z) : list ascii :=
  match data with
  | [] => []
  | [a] =>
      [b64 (Z.shiftr a 2); b64 (Z.shiftl (Z.land a 3) 4); "="; "="]%char
  | [a; b] =>
      [b64 (Z.shiftr a 2);
       b64 (Z.lor (Z.shiftl (Z.land a 3) 4) (Z.shiftr b 4));
       b64 (Z.shiftl (Z.land b 15) 2); "="%char]
  | a :: b :: c :: r =>
      [b64 (Z.shiftr a 2);
       b64 (Z.lor (Z.shiftl (Z.land a 3) 4) (Z.shiftr b 4));
       b64 (Z.lor (Z.shiftl (Z.land b 15) 2) (Z.shiftr c 6));
       b64 (Z.land c 63)] ++ base64 r
  end.

(** The string decoder behind the ['base64'] output encoding: [write]
    encodes the bytes up to the last multiple of three and keeps the rest;
    [end] encodes what was kept followed by the last bytes. *)
Definition decoder_write (data : list Z) : list ascii * list Z :=
  let n := (3 * (length data / 3))%nat in
  (base64 (firstn n data), skipn n data).

Definition decoder_end (kept data : list Z) : list ascii :=
  base64 (kept ++ data).

(** [s.replace(/\+/g, '-').replace(/\//g, '_').replace(/=/g, '')] *)
Definition url_safe (s : list ascii) : list ascii :=
  let s1 := map (fun c => if Ascii.eqb c "+" then "-"%char else c) s in
  let s2 := map (fun c => if Ascii.eqb c "/" then "_"%char else c) s1 in
  List.filter (fun c => negb (Ascii.eqb c "=")) s2.

Module RedoteCrypto.

Definition aesEcbEncrypt (key plaintext : string) : string :=
  let keyBuffer := Buffer_from key in
  let adjustedKey :=
    if (length keyBuffer <=? 16)%nat
    then Buffer_copy keyBuffer (Buffer_alloc 16)
    else if (length keyBuffer <=? 24)%nat
    then Buffer_copy keyBuffer (Buffer_alloc 24)
    else Buffer_copy keyBuffer (Buffer_alloc 32) in
  let cipher_key := subarray 16 adjustedKey in
  let data := Buffer_from plaintext in
  let '(encrypted, kept) := decoder_write (cipher_update cipher_key data) in
  let encrypted := encrypted ++ decoder_end kept (cipher_final cipher_key data) in
  string_of_list_ascii (url_safe encrypted).

End RedoteCrypto.

(** *** The scheme in the words of the specification *)

(** The key window: the key material cut, or filled with zeros, to exactly
    16 bytes *)
Definition key_window (key : string) : list Z :=
  firstn 16 (Buffer_from key ++ repeat 0 16).

(** The electronic codebook of a padded text: each 16-byte block encrypted
    on its own *)
Definition aes128_ecb (key data : list Z) : list Z :=
  ecb_blocks (length data) key data.

(** AES-128 in ECB mode under the key window, PKCS#7 padding, the result in
    URL-safe base64 without padding characters *)
Definition vendor_encrypt (key plaintext : string) : string :=
  string_of_list_ascii
    (url_safe (base64 (aes128_ecb (key_window key) (pkcs7 (Buffer_from plaintext))))).

(** The characters of URL-safe base64 *)
Definition url_alphabet : string :=
  "ABCDEFGHIJKLMNOPQRSTUVWXYZabcdefghijklmnopqrstuvwxyz0123456789-_".

End Crypto.

(** ** The wire envelope ([WebSocketMessage] of [src/types.ts]) *)

Module WebSocketMessage.
Import Json.
Local Open Scope string_scope.

(** [None] is an absent (or [undefined]) field.  [type] is optional too:
    [send] takes a [Partial<WebSocketMessage>] and checks it. *)
Record t := mk {
  type : option Z;
  seq : option Z;
  ack : option Z;
  token : option string;
  appId : option string;
  topic : option string;
  encrypt : option bool;
  secureKey : option string;
  data : option json
}.

Definition empty : t := mk None None None None None None None None None.

Definition prop {A} (k : string) (inj : A -> json) (x : option A)
  : list (string * json) :=
  match x with
  | Some a => [(k, inj a)]
  | None => []
  end.

(** The object as [JSON.stringify] sees it: the defined properties.  The
    order is the one of the object literals of the client: [type] first,
    [seq] last. *)
Definition to_json (m : t) : json :=
  JObj (prop "type" JInt (type m) ++ prop "ack" JInt (ack m)
        ++ prop "token" JStr (token m) ++ prop "appId" JStr (appId m)
        ++ prop "topic" JStr (topic m) ++ prop "encrypt" JBool (encrypt m)
        ++ prop "secureKey" JStr (secureKey m) ++ prop "data" id (data m)
        ++ prop "seq" JInt (seq m))%list.

Definition as_int (v : json) : option Z :=
  match v with JNum z 0 => Some z | _ => None end.
Definition as_string (v : json) : option string :=
  match v with JStr s => Some s | _ => None end.
Definition as_bool (v : json) : option bool :=
  match v with JBool b => Some b | _ => None end.

(** The field [k] of a parsed object read at its declared type: absent,
    present with that type, or ([None]) present with another one. *)
Definition field {A} (k : string) (conv : json -> option A)
           (l : list (string * json)) : option (option A) :=
  match lookup_prop k l with
  | None => Some None
  | Some v =>
      match conv v with
      | Some a => Some (Some a)
      | None => None
      end
  end.

(** The parsed frame seen [as WebSocketMessage] when its known fields have
    their declared types (the numbers being integers); [None] on the
    others, which the cast of the source lets through: see [read_as]. *)
Definition of_json (v : json) : option t :=
  match v with
  | JObj l =>
      match field "type" as_int l, field "seq" as_int l, field "ack" as_int l,
            field "token" as_string l, field "appId" as_string l,
            field "topic" as_string l, field "encrypt" as_bool l,
            field "secureKey" as_string l, field "data" Some l with
      | Some a, Some b, Some c, Some d, Some e, Some f, Some g, Some h, Some i =>
          Some (mk a b c d e f g h i)
      | _, _, _, _, _, _, _, _, _ => None
      end
  | _ => None
  end.

(** The known fields of a parsed frame that have their declared types: a
    field of another type counts as absent, and a value that is no object
    has no field. *)
Definition typed {A} (k : string) (conv : json -> option A)
           (l : list (string * json)) : option A :=
  match lookup_prop k l with
  | Some v => conv v
  | None => None
  end.

Definition read_as (v : json) : t :=
  match v with
  | JObj l =>
      mk (typed "type" as_int l) (typed "seq" as_int l) (typed "ack" as_int l)
         (typed "token" as_string l) (typed "appId" as_string l)
         (typed "topic" as_string l) (typed "encrypt" as_bool l)
         (typed "secureKey" as_string l) (lookup_prop "data" l)
  | _ => empty
  end.

(** The outbound text of an envelope, and the inbound reading of a frame *)
Definition encode (m : t) : string := stringify (to_json m).
Definition decode (frame : string) : option t :=
  match parse frame with
  | Some v => of_json v
  | None => None
  end.

(** A well-formed envelope: its [data] is a well-formed value, as every value
    that [JSON.parse] returns is. *)
Definition wf_message (m : WebSocketMessage.t) : bool :=
  match WebSocketMessage.data m with
  | Some j => wf j
  | None => true
  end.

End WebSocketMessage.

(** ** The client ([src/websocket-client.ts]) *)

Module Client.
Import Json.
Local Open Scope string_scope.
Local Open Scope Z_scope.

Record WebSocketClientConfig := {
  userId : string;
  sellerId : string;
  uri : string;
  appId : string;
  token : string;
  appName : string;
  appVersion : string;
  retryInterval : Z
}.

(** The defaults of the constructor *)
Definition defaults (userId sellerId : string) : WebSocketClientConfig :=
  {| userId := userId;
     sellerId := sellerId;
     uri := "wss://zelda.xiaohongshu.com/websocketV2";
     appId := "647e8f23d15d890d5cc02700";
     token := "7f54749ef19aaf9966ed7a616982c016bda5dfba";
     appName := "walle-ad";
     appVersion := "0.21.0";
     retryInterval := 3 |}.

(** The fields of the class.  A socket and a timer are named by the
    handle under which the runtime keeps them. *)
Record RedoteWebSocketClient := {
  config : WebSocketClientConfig;
  websocket : option nat;
  seq : Z;
  heartbeatTimer : option nat;
  reconnectTimer : option nat;
  isConnecting : bool;
  shouldReconnect : bool
}.

Definition constructor (config : WebSocketClientConfig) : RedoteWebSocketClient :=
  {| config := config;
     websocket := None;
     seq := 0;
     heartbeatTimer := None;
     reconnectTimer := None;
     isConnecting := false;
     shouldReconnect := true |}.

(** *** The runtime: sockets, timers, clock and what the client does to
    the outside *)

Inductive readyState := CONNECTING | OPEN | CLOSING | CLOSED.

(** A socket of the [ws] library, with what [connect] hangs on it:
    [opened] once the promise of [connect] has been resolved by the
    ['open'] listener, [once_error] while the [once('error')] listener is
    still registered. *)
Record socket := {
  state : readyState;
  opened : bool;
  once_error : bool
}.

(** The two callbacks given to [setTimeout] *)
Inductive callback := heartbeat_callback | reconnect_callback.

(** An armed timer: its callback and the time from which it may fire *)
Record timer := {
  run : callback;
  due : Z
}.

Inductive level := Debug | Info | Warn | Err.

Inductive notice :=
| connected
| disconnected
| reconnecting
| error_notice (e : error)
| rawMessage (m : WebSocketMessage.t).

(** What an observer sees.  [Invoked_connect auto] marks a call of
    [connect], [auto] when the caller is the reconnect timer; [Unhandled]
    is the rejection of a promise that nobody awaits. *)
Inductive effect :=
| Sent (ws : nat) (frame : string)
| Emitted (n : notice)
| Logged (l : level) (what : string)
| Unhandled (e : error)
| Invoked_connect (auto : bool).

Record Runtime := {
  sockets : gmap nat socket;
  timers : gmap nat timer;
  clock : Z;
  next : nat;
  trace : list (Z * effect)
}.

Record machine := {
  this : RedoteWebSocketClient;
  rt : Runtime
}.

Definition boot (config : WebSocketClientConfig) : machine :=
  {| this := constructor config;
     rt := {| sockets := ∅; timers := ∅; clock := 0; next := 0; trace := [] |} |}.

(** *** Field updates *)

Definition set_websocket (v : option nat) (c : RedoteWebSocketClient) :=
  {| config := config c; websocket := v; seq := seq c;
     heartbeatTimer := heartbeatTimer c; reconnectTimer := reconnectTimer c;
     isConnecting := isConnecting c; shouldReconnect := shouldReconnect c |}.
Definition set_seq (v : Z) (c : RedoteWebSocketClient) :=
  {| config := config c; websocket := websocket c; seq := v;
     heartbeatTimer := heartbeatTimer c; reconnectTimer := reconnectTimer c;
     isConnecting := isConnecting c; shouldReconnect := shouldReconnect c |}.
Definition set_heartbeatTimer (v : option nat) (c : RedoteWebSocketClient) :=
  {| config := config c; websocket := websocket c; seq := seq c;
     heartbeatTimer := v; reconnectTimer := reconnectTimer c;
     isConnecting := isConnecting c; shouldReconnect := shouldReconnect c |}.
Definition set_reconnectTimer (v : option nat) (c : RedoteWebSocketClient) :=
  {| config := config c; websocket := websocket c; seq := seq c;
     heartbeatTimer := heartbeatTimer c; reconnectTimer := v;
     isConnecting := isConnecting c; shouldReconnect := shouldReconnect c |}.
Definition set_isConnecting (v : bool) (c : RedoteWebSocketClient) :=
  {| config := config c; websocket := websocket c; seq := seq c;
     heartbeatTimer := heartbeatTimer c; reconnectTimer := reconnectTimer c;
     isConnecting := v; shouldReconnect := shouldReconnect c |}.
Definition set_shouldReconnect (v : bool) (c : RedoteWebSocketClient) :=
  {| config := config c; websocket := websocket c; seq := seq c;
     heartbeatTimer := heartbeatTimer c; reconnectTimer := reconnectTimer c;
     isConnecting := isConnecting c; shouldReconnect := v |}.

Definition set_sockets (v : gmap nat socket) (r : Runtime) :=
  {| sockets := v; timers := timers r; clock := clock r; next := next r;
     trace := trace r |}.
Definition set_timers (v : gmap nat timer) (r : Runtime) :=
  {| sockets := sockets r; timers := v; clock := clock r; next := next r;
     trace := trace r |}.
Definition set_clock (v : Z) (r : Runtime) :=
  {| sockets := sockets r; timers := timers r; clock := v; next := next r;
     trace := trace r |}.
Definition set_next (v : nat) (r : Runtime) :=
  {| sockets := sockets r; timers := timers r; clock := clock r; next := v;
     trace := trace r |}.
Definition set_trace (v : list (Z * effect)) (r : Runtime) :=
  {| sockets := sockets r; timers := timers r; clock := clock r; next := next r;
     trace := v |}.

(** *** The monad of the methods: state, and exceptions that keep it *)

Definition M (A : Type) : Type := machine -> outcome A * machine.

Definition ret {A} (a : A) : M A := fun s => (Ret a, s).
Definition throw {A} (e : error) : M A := fun s => (Throw e, s).
Definition bind {A B} (c : M A) (k : A -> M B) : M B :=
  fun s =>
    match c s with
    | (Ret a, s') => k a s'
    | (Throw e, s') => (Throw e, s')
    end.
(** [try { c } catch (error) { h }] *)
Definition try_catch {A} (c : M A) (h : error -> M A) : M A :=
  fun s =>
    match c s with
    | (Ret a, s') => (Ret a, s')
    | (Throw e, s') => h e s'
    end.

Declare Scope machine_scope.
Delimit Scope machine_scope with M.
Notation "'let*' x ':=' c 'in' k" := (bind c (fun x => k))
  (at level 10, x name, c at level 100, k at level 200) : machine_scope.
Notation "c1 ;; c2" := (bind c1 (fun _ => c2))
  (at level 100, c2 at level 200, right associativity) : machine_scope.
Local Open Scope machine_scope.

Definition self : M RedoteWebSocketClient := fun s => (Ret (this s), s).
Definition update (f : RedoteWebSocketClient -> RedoteWebSocketClient) : M unit :=
  fun s => (Ret tt, {| this := f (this s); rt := rt s |}).
Definition runtime (f : Runtime -> Runtime) : M unit :=
  fun s => (Ret tt, {| this := this s; rt := f (rt s) |}).

Definition note (e : effect) : M unit :=
  runtime (fun r => set_trace (trace r ++ [(clock r, e)])%list r).
Definition emit (n : notice) : M unit := note (Emitted n).
Definition log (l : level) (what : string) : M unit := note (Logged l what).

(** An [async] call that is not awaited: its rejection is nobody's. *)
Definition spawn (c : M unit) : M unit :=
  try_catch c (fun e => note (Unhandled e)).

(** [setTimeout(cb, delay)]: a new one-shot timer, due [delay] from now
    (the delay is taken as given). *)
Definition setTimeout (cb : callback) (delay : Z) : M nat :=
  fun s =>
    let r := rt s in
    let h := next r in
    (Ret h,
     {| this := this s;
        rt := set_next (S h)
                (set_timers (<[h := {| run := cb; due := clock r + delay |}]> (timers r)) r) |}).

(** [clearTimeout(h)] *)
Definition clearTimeout (h : nat) : M unit :=
  runtime (fun r => set_timers (delete h (timers r)) r).

(** [new WebSocket(uri)] followed by the registration of the listeners *)
Definition new_WebSocket : M nat :=
  fun s =>
    let r := rt s in
    let h := next r in
    (Ret h,
     {| this := this s;
        rt := set_next (S h)
                (set_sockets (<[h := {| state := CONNECTING; opened := false;
                                        once_error := true |}]> (sockets r)) r) |}).

Definition readyState_of (r : Runtime) (ws : nat) : option readyState :=
  match sockets r !! ws with
  | Some sk => Some (state sk)
  | None => None
  end.

Definition is_OPEN (st : option readyState) : bool :=
  match st with
  | Some OPEN => true
  | _ => false
  end.

(** [this.websocket?.readyState === WebSocket.OPEN] *)
Definition websocket_open (s : machine) : bool :=
  match websocket (this s) with
  | Some ws => is_OPEN (readyState_of (rt s) ws)
  | None => false
  end.

Definition set_state (st : readyState) (sk : socket) : socket :=
  {| state := st; opened := opened sk; once_error := once_error sk |}.

(** [ws.close()]: a socket that is connecting or open starts closing. *)
Definition ws_close (ws : nat) : M unit :=
  runtime (fun r =>
    match sockets r !! ws with
    | Some sk =>
        match state sk with
        | CONNECTING | OPEN => set_sockets (<[ws := set_state CLOSING sk]> (sockets r)) r
        | CLOSING | CLOSED => r
        end
    | None => r
    end).

(** [ws.send(text)] *)
Definition ws_send (ws : nat) (text : string) : M unit := note (Sent ws text).

(** *** The methods *)

Definition send (data : WebSocketMessage.t) : M unit :=
  fun s =>
    match websocket (this s) with
    | Some ws =>
        if is_OPEN (readyState_of (rt s) ws) then
          match WebSocketMessage.type data with
          | Some ty =>
              (let n := seq (this s) + 1 in
               update (set_seq n) ;;
               let message :=
                 WebSocketMessage.mk (Some ty) (Some n) (WebSocketMessage.ack data)
                   (WebSocketMessage.token data) (WebSocketMessage.appId data)
                   (WebSocketMessage.topic data) (WebSocketMessage.encrypt data)
                   (WebSocketMessage.secureKey data) (WebSocketMessage.data data) in
               ws_send ws (stringify (WebSocketMessage.to_json message)) ;;
               log Debug "> Sent:") s
          | None => (Throw (Error "WebSocketMessage 缺少必需的 type 字段"), s)
          end
        else (Throw (Error "WebSocket is not connected"), s)
    | None => (Throw (Error "WebSocket is not connected"), s)
    end.

Definition sendAuthMessage : M unit :=
  let* c := self in
  send {| WebSocketMessage.type := Some 1;
          WebSocketMessage.seq := None;
          WebSocketMessage.ack := None;
          WebSocketMessage.token := Some (token (config c));
          WebSocketMessage.appId := Some (appId (config c));
          WebSocketMessage.topic := None;
          WebSocketMessage.encrypt := None;
          WebSocketMessage.secureKey := None;
          WebSocketMessage.data := None |}.

Definition clearHeartbeat : M unit :=
  let* c := self in
  match heartbeatTimer c with
  | Some h => clearTimeout h ;; update (set_heartbeatTimer None)
  | None => ret tt
  end.

(** An envelope with a type and nothing else *)
Definition reply (type : Z) : WebSocketMessage.t :=
  {| WebSocketMessage.type := Some type;
     WebSocketMessage.seq := None;
     WebSocketMessage.ack := None;
     WebSocketMessage.token := None;
     WebSocketMessage.appId := None;
     WebSocketMessage.topic := None;
     WebSocketMessage.encrypt := None;
     WebSocketMessage.secureKey := None;
     WebSocketMessage.data := None |}.

(** The callback of the heartbeat timer *)
Definition heartbeat : M unit :=
  try_catch (send (reply 4)) (fun _ => log Err "Heartbeat failed:").

Definition startHeartbeat (interval : Z) : M unit :=
  clearHeartbeat ;;
  let* h := setTimeout heartbeat_callback interval in
  update (set_heartbeatTimer (Some h)).

Definition scheduleReconnect : M unit :=
  let* c := self in
  match reconnectTimer c with
  | Some _ => ret tt
  | None =>
      let* h := setTimeout reconnect_callback (retryInterval (config c) * 1000) in
      update (set_reconnectTimer (Some h))
  end.

Definition cleanup : M unit :=
  update (set_seq 0) ;;
  clearHeartbeat ;;
  update (set_websocket None).

(** [connect] up to its [await]; the rest of it runs in the listeners of
    ['open'] and ['error'] below.  The constructor of the socket is taken
    to succeed. *)
Definition connect (auto : bool) : M unit :=
  note (Invoked_connect auto) ;;
  fun s =>
    if isConnecting (this s) || websocket_open s then (Ret tt, s)
    else
      (update (set_isConnecting true) ;;
       emit reconnecting ;;
       let* ws := new_WebSocket in
       update (set_websocket (Some ws))) s.

(** The [catch] block of [connect] *)
Definition connect_catch (e : error) : M unit :=
  update (set_isConnecting false) ;;
  log Err "Failed to connect:" ;;
  emit (error_notice e) ;;
  let* c := self in
  if shouldReconnect c then scheduleReconnect else ret tt.

(** The callback of the reconnect timer *)
Definition reconnect : M unit :=
  update (set_reconnectTimer None) ;;
  log Info "Reconnecting..." ;;
  connect true.

Definition disconnect : M unit :=
  update (set_shouldReconnect false) ;;
  (let* c := self in
   match reconnectTimer c with
   | Some h => clearTimeout h ;; update (set_reconnectTimer None)
   | None => ret tt
   end) ;;
  clearHeartbeat ;;
  let* c := self in
  match websocket c with
  | Some ws => ws_close ws ;; update (set_websocket None)
  | None => ret tt
  end.

(** [message.data?.type === 'PUSH_SIXINTONG_MSG'] *)
Definition is_push (message : WebSocketMessage.t) : bool :=
  match Message.get_optional (WebSocketMessage.data message) "type" with
  | Some (JStr s) => String.eqb s "PUSH_SIXINTONG_MSG"
  | _ => false
  end.

Definition handleMessage (message : WebSocketMessage.t) : M unit :=
  match WebSocketMessage.type message with
  | Some 2 =>
      send {| WebSocketMessage.type := Some 130;
              WebSocketMessage.seq := None;
              WebSocketMessage.ack := WebSocketMessage.seq message;
              WebSocketMessage.token := None;
              WebSocketMessage.appId := None;
              WebSocketMessage.topic := None;
              WebSocketMessage.encrypt := None;
              WebSocketMessage.secureKey := None;
              WebSocketMessage.data := None |} ;;
      if is_push message then emit (rawMessage message) else ret tt
  | Some 4 => send (reply 132)
  | Some 129 =>
      let* c := self in
      match WebSocketMessage.secureKey message with
      | Some key =>
          send {| WebSocketMessage.type := Some 10;
                  WebSocketMessage.seq := None;
                  WebSocketMessage.ack := None;
                  WebSocketMessage.token := None;
                  WebSocketMessage.appId := None;
                  WebSocketMessage.topic :=
                    Some (Crypto.RedoteCrypto.aesEcbEncrypt key (userId (config c)));
                  WebSocketMessage.encrypt := Some true;
                  WebSocketMessage.secureKey := None;
                  WebSocketMessage.data := None |}
      | None => throw TypeError
      end
  | Some 132 => startHeartbeat 60000
  | Some 138 =>
      let* c := self in
      send {| WebSocketMessage.type := Some 12;
              WebSocketMessage.seq := None;
              WebSocketMessage.ack := None;
              WebSocketMessage.token := None;
              WebSocketMessage.appId := None;
              WebSocketMessage.topic := None;
              WebSocketMessage.encrypt := None;
              WebSocketMessage.secureKey := None;
              WebSocketMessage.data :=
                Some (JObj [("userAgent",
                             JObj [("appName", JStr (appName (config c)));
                                   ("appVersion", JStr (appVersion (config c)))]);
                            ("additionalInfo",
                             JObj [("userId", JStr (userId (config c)));
                                   ("sellerId", JStr (sellerId (config c)))])]) |}
  | Some 140 => startHeartbeat 30000
  | _ => log Warn "Unknown message type"
  end.

(** *** The listeners *)

(** The [once('open')] listener of [connect] *)
Definition open_listener : M unit :=
  update (set_isConnecting false) ;;
  log Info "WebSocket connection established" ;;
  emit connected ;;
  spawn sendAuthMessage.

(** [handleMessage] would read a field of the parsed frame that has not
    its declared type: a frame of type 2, which is answered with its [seq]
    and handed on whole, is outside the declared shape; or the [secureKey]
    of a frame of type 129 is an array or an object, of which
    [Buffer.from] makes a key. *)
Definition misread (v : json) : bool :=
  match v with
  | JObj l =>
      match WebSocketMessage.typed "type" WebSocketMessage.as_int l with
      | Some 2 =>
          match WebSocketMessage.of_json v with
          | Some _ => false
          | None => true
          end
      | Some 129 =>
          match lookup_prop "secureKey" l with
          | Some (JArr _) | Some (JObj _) => true
          | _ => false
          end
      | _ => false
      end
  | _ => false
  end.

(** The ['message'] listener.  The cast of the parsed frame checks nothing:
    reading the [type] of [null] throws in [handleMessage], whose promise
    nobody awaits; every other value is handled as far as its fields are
    read, a [secureKey] that is a number, a boolean or [null] being refused
    by [Buffer.from] as a missing one is.  [None]: the handler would
    [misread] the frame, which the model leaves out. *)
Definition message_listener (data : string) : option (M unit) :=
  match parse data with
  | Some JNull => Some (log Debug "< Received:" ;; spawn (throw TypeError))
  | Some v =>
      if misread v then None
      else Some (log Debug "< Received:"
                 ;; spawn (handleMessage (WebSocketMessage.read_as v)))
  | None => Some (log Err "Failed to parse message:")
  end.

(** The ['close'] listener *)
Definition close_listener : M unit :=
  log Debug "WebSocket connection closed" ;;
  emit disconnected ;;
  cleanup ;;
  let* c := self in
  if shouldReconnect c then scheduleReconnect else ret tt.

(** The ['error'] listeners of the socket [ws], in the order of their
    registration: the one of [setupEventHandlers], then (once) the one of
    [connect], whose [reject] reaches the [catch] block while the promise
    is pending. *)
Definition error_listeners (ws : nat) (e : error) : M unit :=
  log Err "WebSocket error:" ;;
  emit (error_notice e) ;;
  fun s =>
    match sockets (rt s) !! ws with
    | Some sk =>
        if once_error sk then
          (runtime (fun r =>
             set_sockets (<[ws := {| state := state sk; opened := opened sk;
                                     once_error := false |}]> (sockets r)) r) ;;
           update (set_isConnecting false) ;;
           if opened sk then ret tt else connect_catch e) s
        else (Ret tt, s)
    | None => (Ret tt, s)
    end.

Definition fire (cb : callback) : M unit :=
  match cb with
  | heartbeat_callback => heartbeat
  | reconnect_callback => reconnect
  end.

(** *** The events and the steps of the machine

    The runtime delivers one event at a time; the listeners run to
    completion, with the continuations they queue. *)

Inductive event :=
| Call_connect
| Call_disconnect
| Open (ws : nat)
| Message (ws : nat) (data : string)
| Failure (ws : nat) (e : error)
| Close (ws : nat)
| Fire (h : nat)
| Tick (dt : Z).

Definition exec (c : M unit) (s : machine) : machine := snd (spawn c s).

Definition put_socket (ws : nat) (sk : socket) (s : machine) : machine :=
  {| this := this s; rt := set_sockets (<[ws := sk]> (sockets (rt s))) (rt s) |}.

Definition step (ev : event) (s : machine) : option machine :=
  match ev with
  | Call_connect => Some (exec (connect false) s)
  | Call_disconnect => Some (exec disconnect s)
  | Open ws =>
      match sockets (rt s) !! ws with
      | Some sk =>
          match state sk with
          | CONNECTING =>
              Some (exec open_listener
                      (put_socket ws {| state := OPEN; opened := true;
                                        once_error := once_error sk |} s))
          | _ => None
          end
      | None => None
      end
  | Message ws data =>
      match readyState_of (rt s) ws with
      | Some OPEN | Some CLOSING =>
          match message_listener data with
          | Some c => Some (exec c s)
          | None => None
          end
      | _ => None
      end
  | Failure ws e =>
      match sockets (rt s) !! ws with
      | Some sk =>
          match state sk with
          | CLOSED => None
          | _ => Some (exec (error_listeners ws e) (put_socket ws (set_state CLOSING sk) s))
          end
      | None => None
      end
  | Close ws =>
      match sockets (rt s) !! ws with
      | Some sk =>
          match state sk with
          | CLOSED => None
          | _ => Some (exec close_listener (put_socket ws (set_state CLOSED sk) s))
          end
      | None => None
      end
  | Fire h =>
      match timers (rt s) !! h with
      | Some t =>
          if due t <=? clock (rt s)
          then Some (exec (fire (run t))
                       {| this := this s;
                          rt := set_timers (delete h (timers (rt s))) (rt s) |})
          else None
      | None => None
      end
  | Tick dt =>
      if 0 <=? dt
      then Some {| this := this s; rt := set_clock (clock (rt s) + dt) (rt s) |}
      else None
  end.

Fixpoint steps (evs : list event) (s : machine) : option machine :=
  match evs with
  | [] => Some s
  | ev :: evs' =>
      match step ev s with
      | Some s' => steps evs' s'
      | None => None
      end
  end.

Definition reachable (cfg : WebSocketClientConfig) (s : machine) : Prop :=
  exists evs, steps evs (boot cfg) = Some s.

(** *** Observations *)

Definition frames_of (tr : list (Z * effect)) : list string :=
  omap (fun te => match snd te with Sent _ f => Some f | _ => None end) tr.

(** What a method appends to the trace *)
Definition produced (s s' : machine) : list (Z * effect) :=
  skipn (length (trace (rt s))) (trace (rt s')).

(** *** What the properties are stated with *)

(** The socket [send] writes to: [this.websocket] when it is open *)
Definition open_socket (s : machine) : option nat :=
  match websocket (this s) with
  | Some ws => if is_OPEN (readyState_of (rt s) ws) then Some ws else None
  | None => None
  end.

(** The envelope as [send] completes it: the next sequence number *)
Definition stamped (s : machine) (m : WebSocketMessage.t) : WebSocketMessage.t :=
  WebSocketMessage.mk (WebSocketMessage.type m) (Some (seq (this s) + 1))
    (WebSocketMessage.ack m) (WebSocketMessage.token m) (WebSocketMessage.appId m)
    (WebSocketMessage.topic m) (WebSocketMessage.encrypt m)
    (WebSocketMessage.secureKey m) (WebSocketMessage.data m).

(** What a successful [send] does to the outside *)
Definition sent_now (s : machine) (ws : nat) (m : WebSocketMessage.t) : list (Z * effect) :=
  [(clock (rt s), Sent ws (WebSocketMessage.encode (stamped s m)));
   (clock (rt s), Logged Debug "> Sent:")].

(** The machine after a successful [send] *)
Definition after_send (ws : nat) (data : WebSocketMessage.t) (s : machine) : machine :=
  {| this := set_seq (seq (this s) + 1) (this s);
     rt := set_trace (trace (rt s) ++ sent_now s ws data)%list (rt s) |}.

Definition not_connected : error := Error "WebSocket is not connected".

(** The acknowledgement of an inbound push *)
Definition ack_of (S : option Z) : WebSocketMessage.t :=
  {| WebSocketMessage.type := Some 130;
     WebSocketMessage.seq := None;
     WebSocketMessage.ack := S;
     WebSocketMessage.token := None;
     WebSocketMessage.appId := None;
     WebSocketMessage.topic := None;
     WebSocketMessage.encrypt := None;
     WebSocketMessage.secureKey := None;
     WebSocketMessage.data := None |}.

(** The forwarding of a user-message push to the listeners of [rawMessage] *)
Definition forwarded (s : machine) (m : WebSocketMessage.t) : list (Z * effect) :=
  if is_push m then [(clock (rt s), Emitted (rawMessage m))] else [].

(** How a method may change the machine: the configuration and the clock
    stay, the reconnect flag is never raised, a timer is an old one, a
    heartbeat timer or a reconnect timer due one retry interval from now
    (armed only while the flag is up), and the trace grows; [connect] is
    marked automatic only when [auto] says so. *)
Record evolves (auto : bool) (s s' : machine) : Prop := {
  ev_config : config (this s') = config (this s);
  ev_clock : clock (rt s') = clock (rt s);
  ev_flag : shouldReconnect (this s') = true -> shouldReconnect (this s) = true;
  ev_timers : forall h t, timers (rt s') !! h = Some t ->
      timers (rt s) !! h = Some t \/ run t = heartbeat_callback \/
      (run t = reconnect_callback
       /\ due t = clock (rt s) + retryInterval (config (this s)) * 1000
       /\ shouldReconnect (this s) = true);
  ev_trace : exists added, trace (rt s') = (trace (rt s) ++ added)%list
      /\ forall t, In (t, Invoked_connect true) added -> auto = true /\ t = clock (rt s)
}.

Definition tame (auto : bool) {A} (c : M A) : Prop :=
  forall s, evolves auto s (snd (c s)).

(** The same for a step of the machine; time may pass, and an automatic
    [connect] comes from a reconnect timer that was due. *)
Record advances (ev : event) (s s' : machine) : Prop := {
  ad_config : config (this s') = config (this s);
  ad_clock : clock (rt s) <= clock (rt s');
  ad_flag : shouldReconnect (this s') = true -> shouldReconnect (this s) = true;
  ad_timers : forall h t, timers (rt s') !! h = Some t ->
      timers (rt s) !! h = Some t \/ run t = heartbeat_callback \/
      (run t = reconnect_callback
       /\ due t = clock (rt s) + retryInterval (config (this s)) * 1000
       /\ shouldReconnect (this s) = true);
  ad_trace : exists added, trace (rt s') = (trace (rt s) ++ added)%list
      /\ forall t, In (t, Invoked_connect true) added ->
           t = clock (rt s)
           /\ exists h tm, ev = Fire h /\ timers (rt s) !! h = Some tm
                /\ run tm = reconnect_callback /\ due tm <= clock (rt s)
}.

(** The handles are in order: the armed timers were allocated, an armed
    heartbeat timer is the one in [heartbeatTimer], an armed reconnect timer
    the one in [reconnectTimer]. *)
Record consistent (s : machine) : Prop := {
  fresh_timers : forall h t, timers (rt s) !! h = Some t -> (h < next (rt s))%nat;
  one_heartbeat : forall h t, timers (rt s) !! h = Some t ->
      run t = heartbeat_callback -> heartbeatTimer (this s) = Some h;
  one_reconnect : forall h t, timers (rt s) !! h = Some t ->
      run t = reconnect_callback -> reconnectTimer (this s) = Some h
}.

Definition keeps {A} (c : M A) : Prop :=
  forall s, consistent s -> consistent (snd (c s)).

(** No reconnect timer is due before [T], and no automatic connect was
    made before [T] since the trace had length [n0]. *)
Record quiet_until (T : Z) (n0 : nat) (s : machine) : Prop := {
  q_len : (n0 <= length (trace (rt s)))%nat;
  q_clock : T <= clock (rt s) + retryInterval (config (this s)) * 1000;
  q_timers : forall h t, timers (rt s) !! h = Some t -> run t = reconnect_callback -> T <= due t;
  q_trace : forall t, In (t, Invoked_connect true) (skipn n0 (trace (rt s))) -> T <= t
}.

(** Reconnection is off: the flag is down and no reconnect timer is armed;
    no automatic connect was made since the trace had length [n0]. *)
Record reconnect_off (n0 : nat) (s : machine) : Prop := {
  off_len : (n0 <= length (trace (rt s)))%nat;
  off_flag : shouldReconnect (this s) = false;
  off_timers : forall h t, timers (rt s) !! h = Some t -> run t <> reconnect_callback;
  off_trace : forall t, ~ In (t, Invoked_connect true) (skipn n0 (trace (rt s)))
}.

(** After arming with delay [d]: a timer that was not armed before is the
    one heartbeat timer, due [d] from now. *)
Definition armed_alone (d : Z) (s s' : machine) : Prop :=
  exists h,
    timers (rt s) !! h = None
    /\ heartbeatTimer (this s') = Some h
    /\ timers (rt s') !! h = Some {| run := heartbeat_callback; due := clock (rt s) + d |}
    /\ (forall h' t, timers (rt s') !! h' = Some t -> run t = heartbeat_callback -> h' = h).

Definition at_most_one_heartbeat (s : machine) : Prop :=
  forall h1 t1 h2 t2,
    timers (rt s) !! h1 = Some t1 -> run t1 = heartbeat_callback ->
    timers (rt s) !! h2 = Some t2 -> run t2 = heartbeat_callback -> h1 = h2.

(** [this.config.retryInterval * 1000] *)
Definition retry_delay (s : machine) : Z := retryInterval (config (this s)) * 1000.

(** The handles kept in the fields: the heartbeat handle was allocated, the
    reconnect handle names an armed reconnect timer, and the two differ. *)
Record armed (s : machine) : Prop := {
  heartbeat_allocated : forall h, heartbeatTimer (this s) = Some h -> (h < next (rt s))%nat;
  reconnect_pending : forall h, reconnectTimer (this s) = Some h ->
      exists t, timers (rt s) !! h = Some t /\ run t = reconnect_callback;
  handles_apart : forall a b,
      heartbeatTimer (this s) = Some a -> reconnectTimer (this s) = Some b -> a <> b
}.

Definition sound (s : machine) : Prop := consistent s /\ armed s.

Definition holds {A} (c : M A) : Prop :=
  forall s, sound s -> sound (snd (c s)).

(** Every armed reconnect timer is due within one retry interval *)
Definition punctual (s : machine) : Prop :=
  forall h t, timers (rt s) !! h = Some t -> run t = reconnect_callback ->
    due t <= clock (rt s) + retry_delay s.

(** *** The states and envelopes of the examples, and what is read off a trace *)

(** A client with the defaults of the constructor *)
Definition demo : WebSocketClientConfig := defaults "u1" "s1".

(** The frames of a list of effects, decoded *)
Definition envelopes (tr : list (Z * effect)) : list (option WebSocketMessage.t) :=
  map WebSocketMessage.decode (frames_of tr).

(** The type codes and the sequence numbers of the envelopes sent *)
Definition types_sent (tr : list (Z * effect)) : list (option Z) :=
  map (fun o => match o with Some m => WebSocketMessage.type m | None => None end)
      (envelopes tr).
Definition seqs_sent (tr : list (Z * effect)) : list (option Z) :=
  map (fun o => match o with Some m => WebSocketMessage.seq m | None => None end)
      (envelopes tr).

(** An inbound push of a user message, [seq = 7] *)
Definition push7 : WebSocketMessage.t :=
  {| WebSocketMessage.type := Some 2;
     WebSocketMessage.seq := Some 7;
     WebSocketMessage.ack := None;
     WebSocketMessage.token := None;
     WebSocketMessage.appId := None;
     WebSocketMessage.topic := None;
     WebSocketMessage.encrypt := None;
     WebSocketMessage.secureKey := None;
     WebSocketMessage.data := Some (JObj [("type", JStr "PUSH_SIXINTONG_MSG")]) |}.

(** An envelope of type 4 that carries a [seq] of its own *)
Definition ping7 : WebSocketMessage.t :=
  {| WebSocketMessage.type := Some 4;
     WebSocketMessage.seq := Some 7;
     WebSocketMessage.ack := None;
     WebSocketMessage.token := None;
     WebSocketMessage.appId := None;
     WebSocketMessage.topic := None;
     WebSocketMessage.encrypt := None;
     WebSocketMessage.secureKey := None;
     WebSocketMessage.data := None |}.

(** An inbound secure key *)
Definition key129 : WebSocketMessage.t :=
  {| WebSocketMessage.type := Some 129;
     WebSocketMessage.seq := Some 3;
     WebSocketMessage.ack := None;
     WebSocketMessage.token := None;
     WebSocketMessage.appId := None;
     WebSocketMessage.topic := None;
     WebSocketMessage.encrypt := None;
     WebSocketMessage.secureKey := Some "0123456789abcdef";
     WebSocketMessage.data := None |}.

(** The subscription sent in answer to the secure key *)
Definition subscription (topic : string) : WebSocketMessage.t :=
  {| WebSocketMessage.type := Some 10;
     WebSocketMessage.seq := None;
     WebSocketMessage.ack := None;
     WebSocketMessage.token := None;
     WebSocketMessage.appId := None;
     WebSocketMessage.topic := Some topic;
     WebSocketMessage.encrypt := Some true;
     WebSocketMessage.secureKey := None;
     WebSocketMessage.data := None |}.

(** Processing [m] in [s] sends the acknowledgement of [S] and nothing else *)
Definition acknowledged (s : machine) (m : WebSocketMessage.t) (S : Z) : Prop :=
  exists s', handleMessage m s = (Ret tt, s')
    /\ envelopes (produced s s') = [Some (stamped s (ack_of (Some S)))].

(** *** More of what the properties are stated with *)

(** The authentication sent when the socket has opened *)
Definition authentication (cfg : WebSocketClientConfig) : WebSocketMessage.t :=
  {| WebSocketMessage.type := Some 1;
     WebSocketMessage.seq := None;
     WebSocketMessage.ack := None;
     WebSocketMessage.token := Some (token cfg);
     WebSocketMessage.appId := Some (appId cfg);
     WebSocketMessage.topic := None;
     WebSocketMessage.encrypt := None;
     WebSocketMessage.secureKey := None;
     WebSocketMessage.data := None |}.

(** The answer to a request for the user agent and the additional
    information *)
Definition metadata (cfg : WebSocketClientConfig) : WebSocketMessage.t :=
  {| WebSocketMessage.type := Some 12;
     WebSocketMessage.seq := None;
     WebSocketMessage.ack := None;
     WebSocketMessage.token := None;
     WebSocketMessage.appId := None;
     WebSocketMessage.topic := None;
     WebSocketMessage.encrypt := None;
     WebSocketMessage.secureKey := None;
     WebSocketMessage.data :=
       Some (JObj [("userAgent",
                    JObj [("appName", JStr (appName cfg));
                          ("appVersion", JStr (appVersion cfg))]);
                   ("additionalInfo",
                    JObj [("userId", JStr (userId cfg));
                          ("sellerId", JStr (sellerId cfg))])]) |}.

(** The type codes that [handleMessage] knows *)
Definition known_types : list Z := [2; 4; 129; 132; 138; 140].

(** The machine with one more entry in its trace *)
Definition noted (e : effect) (s : machine) : machine :=
  {| this := this s;
     rt := set_trace (trace (rt s) ++ [(clock (rt s), e)])%list (rt s) |}.

(** The notices given to the listeners *)
Definition emitted (tr : list (Z * effect)) : list notice :=
  omap (fun te => match snd te with Emitted n => Some n | _ => None end) tr.

(** What the processing of an inbound frame may change: it leaves the
    configuration, the socket in use, the two flags, the reconnect timer,
    the sockets and the clock; it arms no reconnect timer; it sends at
    most one frame, and the sequence counter moves by the number of frames
    sent. *)
Record answered (s s' : machine) : Prop := {
  an_config : config (this s') = config (this s);
  an_websocket : websocket (this s') = websocket (this s);
  an_connecting : isConnecting (this s') = isConnecting (this s);
  an_flag : shouldReconnect (this s') = shouldReconnect (this s);
  an_reconnect : reconnectTimer (this s') = reconnectTimer (this s);
  an_sockets : sockets (rt s') = sockets (rt s);
  an_clock : clock (rt s') = clock (rt s);
  an_timers : forall h t, timers (rt s') !! h = Some t -> run t = reconnect_callback ->
      timers (rt s) !! h = Some t;
  an_trace : exists added, trace (rt s') = (trace (rt s) ++ added)%list
      /\ (length (frames_of added) <= 1)%nat
      /\ seq (this s') = seq (this s) + Z.of_nat (length (frames_of added))
}.

End Client.

(** ** The bot ([src/redote.ts]) *)

Module Redote.
Import Json Message.
Local Open Scope string_scope.
Local Open Scope Z_scope.

(** [MessageEvent] of [types.ts].  The identifiers and the time are what
    the payload holds, of whatever type; [reply], a closure that sends to
    [userId], is left out. *)
Module MessageEvent.
Record t := {
  messageId : json;
  userId : json;
  userName : any;
  timestamp : json;
  chain : MessageChain;
  raw : WebSocketMessage.t
}.
End MessageEvent.

(** An exception as the bot reads it, by its message: [new Error(message)];
    an exception of the runtime or of a library, with a message of its
    own; [new Error(prefix + cause.message)]. *)
Inductive failure :=
| Raised (message : string)
| Thrown (e : error)
| Wrapped (prefix : string) (cause : failure).

Inductive result (A : Type) :=
| Ok (a : A)
| Fail (f : failure).
Arguments Ok {A} a.
Arguments Fail {A} f.

(** What [fetch] gives: a rejection, or a response with its status and its
    body ([None]: a body that is not JSON). *)
Inductive answer :=
| Unreachable (e : error)
| Response (ok : bool) (status : Z) (statusText : string) (body : option json).

(** The events of the bot ([BotEventMap]) but [rawMessage], which the bot
    does not emit *)
Inductive signal :=
| message (event : MessageEvent.t)
| error (e : error)
| connected
| disconnected
| reconnecting.

(** A call of [fetch] as [request] makes it: the method, the URL and the
    search parameters added to it (their values as given, [undefined]
    included, before the conversion to text), the cookie header, the body
    and the timeout in milliseconds.  The other headers are constants, but
    the content type, which goes with the body. *)
Record Request := {
  method : string;
  url : string;
  params : list (string * any);
  cookie : string;
  content : option string;
  timeout_ms : Z
}.

(** What the bot does to the outside *)
Inductive effect :=
| Emitted (s : signal)
| Requested (r : Request)
| Logged (l : Client.level) (what : string).

(** [handleRawMessage], with [now] for [Date.now()] and [listeners] for
    what the listeners of ['message'] do with the event, which is to
    return or to throw; what one throws is caught like every exception of
    the method.  An entry of the log holds the fixed part of its text.
    [None]: the content of the payload is a truthy value that is not a
    string, of which [parseMessage] makes segments that the types of
    [types.ts] do not have, and which the model leaves out. *)
Definition handleRawMessage_with (listeners : MessageEvent.t -> outcome unit)
           (rawMessage : WebSocketMessage.t) (now : Z) : option (list effect) :=
  let payload :=
    get_optional (get_optional (WebSocketMessage.data rawMessage) "payload")
                 "sixin_message" in
  match payload with
  | Some p =>
      if truthy p then
        let messageType := get_optional payload "message_type" in
        let messageId := or_else (get_optional payload "message_id") (JStr "unknown") in
        let userId := or_else (get_optional payload "sender_user_id") (JStr "unknown") in
        let userName := get_optional payload "sender_name" in
        let timestamp := or_else (get_optional payload "create_time") (JInt now) in
        match or_else (get_optional payload "content") (JStr "") with
        | JStr content =>
            (* a discriminator that is not a string matches no case of
               the parser's switch *)
            let parsed :=
              match messageType with
              | Some (JStr t) => MessageParser.parseMessage t content
              | _ => Ret (MessageBuilder.fromString content)
              end in
            match parsed with
            | Ret chain =>
                let messageEvent :=
                  {| MessageEvent.messageId := messageId;
                     MessageEvent.userId := userId;
                     MessageEvent.userName := userName;
                     MessageEvent.timestamp := timestamp;
                     MessageEvent.chain := chain;
                     MessageEvent.raw := rawMessage |} in
                match listeners messageEvent with
                | Ret _ =>
                    Some [Emitted (message messageEvent);
                          Logged Client.Debug "处理消息事件"]
                | Throw e =>
                    Some [Emitted (message messageEvent);
                          Logged Client.Err "处理原始消息失败:"; Emitted (error e)]
                end
            | Throw e =>
                Some [Logged Client.Err "处理原始消息失败:"; Emitted (error e)]
            end
        | _ => None
        end
      else Some [Logged Client.Debug "消息 payload 为空，跳过处理"]
  | None => Some [Logged Client.Debug "消息 payload 为空，跳过处理"]
  end.

(** [handleRawMessage] when no listener of ['message'] throws, as the bot
    is run below *)
Definition handleRawMessage (rawMessage : WebSocketMessage.t) (now : Z)
  : option (list effect) :=
  handleRawMessage_with (fun _ => Ret tt) rawMessage now.

(** The listeners that [initialize] registers on the client: the
    connection events are passed on, a raw message goes to
    [handleRawMessage]. *)
Definition passed_on (n : Client.notice) : option signal :=
  match n with
  | Client.connected => Some connected
  | Client.disconnected => Some disconnected
  | Client.reconnecting => Some reconnecting
  | Client.error_notice e => Some (error e)
  | Client.rawMessage _ => None
  end.

Definition forward (now : Z) (n : Client.notice) : option (list effect) :=
  match n with
  | Client.rawMessage m => handleRawMessage m now
  | _ => Some (map Emitted (option_list (passed_on n)))
  end.

(** What the bot does for the notices of the client, in their order *)
Fixpoint reactions (now : Z) (ns : list Client.notice) : option (list effect) :=
  match ns with
  | [] => Some []
  | n :: r =>
      match forward now n, reactions now r with
      | Some a, Some b => Some (a ++ b)%list
      | _, _ => None
      end
  end.

(** The events given to the listeners of the bot *)
Definition signals (l : list effect) : list signal :=
  omap (fun e => match e with Emitted s => Some s | _ => None end) l.


(** *** The state of the bot and the world around it *)

(** [config.websocket]: the options of the client that are given *)
Module WebSocketOptions.
Record t := {
  uri : option string;
  appId : option string;
  token : option string;
  appName : option string;
  appVersion : option string;
  retryInterval : option Z
}.
End WebSocketOptions.

(** The configuration as the constructor completes it *)
Record RedoteConfig := {
  cookies : string;
  platform : Z;
  contactWay : string;
  timeout : Z;
  websocket : WebSocketOptions.t
}.

(** The fields of the class that are read below.  The account data are
    what the server answered, of whatever type. *)
Record Redote := {
  config : RedoteConfig;
  userInfo : any;
  userDetail : any;
  websocketClient : option Client.machine;
  isInitialized : bool;
  userId : any;
  sellerId : any;
  accountNo : any
}.

(** The outcome of what [uploadImage] does with the upload token (reading
    it, reading the file, the signature and the upload to the storage),
    which is not modelled: the fields of the result that are not constants,
    taken to be strings, or the exception. *)
Inductive upload :=
| Uploaded (cloudType fileId preViewUrl : string)
| Upload_failed (cause : failure).

(** The world: the answers of the network to the calls of [request], in
    their order; the values of [Date.now()] and of
    [Math.floor(Math.random() * 90000000)] at the calls of [generateUuid];
    the outcomes of the uploads; and what the bot has done. *)
Record World := {
  answers : nat -> answer;
  asked : nat;
  now : nat -> Z;
  random : nat -> Z;
  drawn : nat;
  uploads : nat -> upload;
  tried : nat;
  trace : list effect
}.

Record state := {
  this : Redote;
  world : World
}.

Definition set_trace (v : list effect) (w : World) : World :=
  {| answers := answers w; asked := asked w; now := now w; random := random w;
     drawn := drawn w; uploads := uploads w; tried := tried w; trace := v |}.
Definition set_asked (v : nat) (w : World) : World :=
  {| answers := answers w; asked := v; now := now w; random := random w;
     drawn := drawn w; uploads := uploads w; tried := tried w; trace := trace w |}.
Definition set_drawn (v : nat) (w : World) : World :=
  {| answers := answers w; asked := asked w; now := now w; random := random w;
     drawn := v; uploads := uploads w; tried := tried w; trace := trace w |}.
Definition set_tried (v : nat) (w : World) : World :=
  {| answers := answers w; asked := asked w; now := now w; random := random w;
     drawn := drawn w; uploads := uploads w; tried := v; trace := trace w |}.
Definition set_isInitialized (v : bool) (b : Redote) : Redote :=
  {| config := config b; userInfo := userInfo b; userDetail := userDetail b;
     websocketClient := websocketClient b; isInitialized := v; userId := userId b;
     sellerId := sellerId b; accountNo := accountNo b |}.
Definition set_userInfo (v : any) (b : Redote) : Redote :=
  {| config := config b; userInfo := v; userDetail := userDetail b;
     websocketClient := websocketClient b; isInitialized := isInitialized b;
     userId := userId b; sellerId := sellerId b; accountNo := accountNo b |}.
Definition set_userDetail (v : any) (b : Redote) : Redote :=
  {| config := config b; userInfo := userInfo b; userDetail := v;
     websocketClient := websocketClient b; isInitialized := isInitialized b;
     userId := userId b; sellerId := sellerId b; accountNo := accountNo b |}.
(** [Object.assign(this, {userId, sellerId, accountNo})] *)
Definition assign (u sl a : any) (b : Redote) : Redote :=
  {| config := config b; userInfo := userInfo b; userDetail := userDetail b;
     websocketClient := websocketClient b; isInitialized := isInitialized b;
     userId := u; sellerId := sl; accountNo := a |}.
Definition set_websocketClient (v : option Client.machine) (b : Redote) : Redote :=
  {| config := config b; userInfo := userInfo b; userDetail := userDetail b;
     websocketClient := v; isInitialized := isInitialized b; userId := userId b;
     sellerId := sellerId b; accountNo := accountNo b |}.

(** *** The monad of the methods *)

Definition M (A : Type) : Type := state -> result A * state.

Definition ret {A} (a : A) : M A := fun s => (Ok a, s).
Definition throw {A} (f : failure) : M A := fun s => (Fail f, s).
Definition bind {A B} (c : M A) (k : A -> M B) : M B :=
  fun s =>
    match c s with
    | (Ok a, s') => k a s'
    | (Fail f, s') => (Fail f, s')
    end.
Definition try_catch {A} (c : M A) (h : failure -> M A) : M A :=
  fun s =>
    match c s with
    | (Ok a, s') => (Ok a, s')
    | (Fail f, s') => h f s'
    end.

Declare Scope bot_scope.
Delimit Scope bot_scope with bot.
Notation "'let*' x ':=' c 'in' k" := (bind c (fun x => k))
  (at level 10, x name, c at level 100, k at level 200) : bot_scope.
Notation "c1 ;; c2" := (bind c1 (fun _ => c2))
  (at level 100, c2 at level 200, right associativity) : bot_scope.
Local Open Scope bot_scope.

Definition self : M Redote := fun s => (Ok (this s), s).
Definition update (f : Redote -> Redote) : M unit :=
  fun s => (Ok tt, {| this := f (this s); world := world s |}).
Definition note (e : effect) : M unit :=
  fun s => (Ok tt, {| this := this s;
                      world := set_trace (trace (world s) ++ [e])%list (world s) |}).
Definition log (l : Client.level) (what : string) : M unit := note (Logged l what).

(** *** [request] *)

(** [body ? JSON.stringify(body) : null] *)
Definition fetchBody (body : option json) : option string :=
  match body with
  | Some v => if truthy v then Some (stringify v) else None
  | None => None
  end.

(** [request].  The timeout is taken to be one that [AbortSignal.timeout]
    accepts. *)
Definition request (url method : string) (params : list (string * any))
           (body : option json) : M json :=
  fun s =>
    let w := world s in
    let r := {| method := method; url := url; params := params;
                cookie := cookies (config (this s));
                content := fetchBody body;
                timeout_ms := timeout (config (this s)) * 1000 |} in
    let s1 := {| this := this s;
                 world := set_asked (S (asked w))
                            (set_trace (trace w ++ [Requested r])%list w) |} in
    match answers w (asked w) with
    | Unreachable e => (Fail (Thrown e), s1)
    | Response ok status statusText b =>
        if ok then
          match b with
          | Some v => (log Client.Debug "请求成功" ;; ret v) s1
          | None => (Fail (Thrown SyntaxError), s1)
          end
        else
          (log Client.Err "请求失败" ;;
           match b with
           | Some _ =>
               throw (Raised ("HTTP " ++ to_string (JInt status) ++ ": " ++ statusText))
           | None => throw (Thrown SyntaxError)
           end) s1
    end.

Definition baseUrl : string := "https://sxt.xiaohongshu.com/api-sxt/edith".

(** [a ?? b], and the value of a parameter with a default *)
Definition nullish {A} (a : option A) (b : A) : A :=
  match a with
  | Some v => v
  | None => b
  end.

(** *** The checks and the sending *)

Definition not_initialized : failure := Raised "机器人未初始化，请先调用 initialize() 方法".

Definition ensureInitialized : M unit :=
  let* b := self in
  if isInitialized b then ret tt else throw not_initialized.

(** [RedoteCrypto.generateUuid] of [crypto.ts] *)
Definition generateUuid : M string :=
  fun s =>
    let w := world s in
    let timestamp := now w (drawn w) in
    let randomNumber := random w (drawn w) + 10000000 in
    (Ok (to_string (JInt timestamp) ++ "-" ++ to_string (JInt randomNumber)),
     {| this := this s; world := set_drawn (S (drawn w)) w |}).

(** [a.k] for a value that may be [undefined]; the keys that the bot
    reads are no properties of a prototype. *)
Definition read (a : any) (k : string) : M any :=
  match a with
  | Some v =>
      match get v k with
      | Ret x => ret x
      | Throw e => throw (Thrown e)
      end
  | None => throw (Thrown TypeError)
  end.

(** A property of an object literal: left out by [JSON.stringify] when its
    value is [undefined] *)
Definition member (k : string) (a : any) : list (string * json) :=
  match a with
  | Some v => [(k, v)]
  | None => []
  end.

Definition sendMessage (receiverId : string) (content : json) (messageType : string)
  : M json :=
  ensureInitialized ;;
  if String.eqb receiverId "" then throw (Raised "接收者 ID 不能为空")
  else if negb (truthy content) then throw (Raised "消息内容不能为空")
  else
    let* b := self in
    let* uuid := generateUuid in
    let* data := read (userInfo b) "data" in
    let* c_user_id := read data "c_user_id" in
    let messageData :=
      JObj (member "sender_porch_id" (userId b)
            ++ [("receiver_id", JStr receiverId);
             ("content", content);
             ("message_type", JStr messageType);
             ("uuid", JStr uuid)]
            ++ member "c_user_id" c_user_id
            ++ [("platform", JInt (platform (config b)))])%list in
    request (baseUrl ++ "/chatline/msg") "POST" [("porch_user_id", userId b)]
            (Some messageData).

Definition sendText (receiverId : string) (content : json) : M json :=
  sendMessage receiverId content "TEXT".
Definition sendNote (receiverId : string) (noteId : json) : M json :=
  sendMessage receiverId noteId "NOTE".
Definition sendCard (receiverId : string) (card : json) : M json :=
  sendMessage receiverId card "CARD".

Definition UPLOADER_VERSION : string := "1".
Definition UPLOADER_SOURCE : string := "web".

Definition getUploadToken (bizName scene : string) : M json :=
  request (baseUrl ++ "/uploader/v3/token") "GET"
          [("biz_name", Some (JStr bizName)); ("scene", Some (JStr scene));
           ("file_count", Some (JStr "1")); ("version", Some (JStr UPLOADER_VERSION));
           ("source", Some (JStr UPLOADER_SOURCE))]
          None.

(** What follows the token in the [try] block of [uploadImage] *)
Definition upload_with (uploadToken : json) (bizName scene : string) : M json :=
  fun s =>
    let w := world s in
    let s1 := {| this := this s; world := set_tried (S (tried w)) w |} in
    match uploads w (tried w) with
    | Uploaded cloudType fileId preViewUrl =>
        (log Client.Info "图片上传成功" ;;
         ret (upload_result cloudType bizName scene fileId preViewUrl 800 600)) s1
    | Upload_failed cause => (Fail cause, s1)
    end.

Definition uploadImage (filePath : string) : M json :=
  ensureInitialized ;;
  if String.eqb filePath "" then throw (Raised "文件路径不能为空")
  else
    try_catch
      (let bizName := "cs" in
       let scene := "feeva_img" in
       let* uploadToken := getUploadToken bizName scene in
       upload_with uploadToken bizName scene)
      (fun error =>
         log Client.Err "图片上传失败" ;;
         throw (Wrapped "图片上传失败: " error)).

Definition sendImage (receiverId filePath : string) : M json :=
  let* uploadResult := uploadImage filePath in
  sendMessage receiverId (JStr (stringify uploadResult)) "IMAGE".

(** An element of the array that [sendMessageChain] returns: the result of
    a send, or [{error: message}] *)
Inductive entry :=
| Delivered (result : json)
| Failed (f : failure).

(** The [switch] of [sendMessageChain] *)
Definition send_segment (receiverId : string) (segment : MessageSegment) : M json :=
  match segment with
  | TextSegment text => sendText receiverId (JStr text)
  | ImageSegment file url _ _ =>
      match file with
      | Some f =>
          if String.eqb f "" then sendText receiverId (or_else url (JStr "[图片]"))
          else sendImage receiverId f
      | None => sendText receiverId (or_else url (JStr "[图片]"))
      end
  | CardSegment content _ => sendCard receiverId (JStr content)
  | NoteSegment noteId _ _ _ => sendNote receiverId (JStr noteId)
  | EmoticonSegment _ name _ => sendText receiverId (or_else name (JStr "[表情]"))
  | AtSegment userId name =>
      sendText receiverId
        (JStr ("@" ++ match name with
                      | Some n => if String.eqb n "" then userId else n
                      | None => userId
                      end))
  | VideoSegment _ _ _ | VoiceSegment _ _ _ | OtherSegment _ =>
      sendText receiverId (JStr "[未知消息类型]")
  end.

Fixpoint sendMessageChain (receiverId : string) (chain : MessageChain) : M (list entry) :=
  match chain with
  | [] => ret []
  | segment :: rest =>
      let* r := try_catch
                  (let* result := send_segment receiverId segment in
                   ret (Delivered result))
                  (fun error => log Client.Err "发送消息段失败" ;; ret (Failed error)) in
      let* results := sendMessageChain receiverId rest in
      ret (r :: results)
  end.

(** *** The chats *)

(** [getChats(isActive = true, limit = 80)], the limit an integer *)
Definition getChats (isActive : option bool) (limit : option Z) : M json :=
  ensureInitialized ;;
  let* b := self in
  request (baseUrl ++ "/chatline/chat") "GET"
          [("porch_user_id", userId b);
           ("limit", Some (JStr (to_string (JInt (nullish limit 80)))));
           ("is_active", Some (JStr (to_string (JBool (nullish isActive true)))))]
          None.

(** [getChatMessages(customerUserId, limit = 20)] *)
Definition getChatMessages (customerUserId : string) (limit : option Z) : M json :=
  ensureInitialized ;;
  if String.eqb customerUserId "" then throw (Raised "客户用户 ID 不能为空")
  else
    let* b := self in
    request (baseUrl ++ "/chatline/msg") "GET"
            [("porch_user_id", userId b);
             ("customer_user_id", Some (JStr customerUserId));
             ("limit", Some (JStr (to_string (JInt (nullish limit 20)))))]
            None.

(** [switchStatus], for a status of [UserStatus] ('online', 'rest' or
    'offline') or any other string *)
Definition switchStatus (status : string) : M json :=
  ensureInitialized ;;
  let* b := self in
  request (baseUrl ++ "/pc/chatline/user/switch_status") "POST" []
          (Some (JObj ([("status", JStr status)]
                       ++ member "account_no" (accountNo b)
                       ++ [("contact_way", JStr (contactWay (config b)))])%list)).

(** *** The constructor and [initialize] *)

(** The configuration as it is given: every field but the cookies may be
    missing. *)
Record RedoteOptions := {
  given_cookies : option string;
  given_platform : option Z;
  given_contactWay : option string;
  given_timeout : option Z;
  given_websocket : option WebSocketOptions.t
}.

Definition no_options : WebSocketOptions.t :=
  {| WebSocketOptions.uri := None; WebSocketOptions.appId := None;
     WebSocketOptions.token := None; WebSocketOptions.appName := None;
     WebSocketOptions.appVersion := None; WebSocketOptions.retryInterval := None |}.

Definition constructor (options : RedoteOptions) : result Redote :=
  match given_cookies options with
  | Some c =>
      if String.eqb c "" then Fail (Raised "cookies 配置不能为空")
      else
        Ok {| config := {| cookies := c;
                           platform := nullish (given_platform options) 1;
                           contactWay := nullish (given_contactWay options) "octopus";
                           timeout := nullish (given_timeout options) 60;
                           websocket := nullish (given_websocket options) no_options |};
              userInfo := None;
              userDetail := None;
              websocketClient := None;
              isInitialized := false;
              userId := Some (JStr "");
              sellerId := Some (JStr "");
              accountNo := Some (JStr "") |}
  | None => Fail (Raised "cookies 配置不能为空")
  end.

Definition getUserInfo : M json :=
  request (baseUrl ++ "/ads/user/info") "GET" [] None.

Definition getUserDetail (accountNo : any) : M json :=
  let* b := self in
  request (baseUrl ++ "/pc/flow/user/detail") "GET"
          [("account_no", accountNo); ("contact_way", Some (JStr (contactWay (config b))))]
          None.

(** The configuration of the client: the options that are given, over
    the defaults of the client's constructor, with the two identifiers of
    the account. *)
Definition websocketConfig (o : WebSocketOptions.t) (userId sellerId : string)
  : Client.WebSocketClientConfig :=
  let d := Client.defaults userId sellerId in
  {| Client.userId := userId;
     Client.sellerId := sellerId;
     Client.uri := nullish (WebSocketOptions.uri o) (Client.uri d);
     Client.appId := nullish (WebSocketOptions.appId o) (Client.appId d);
     Client.token := nullish (WebSocketOptions.token o) (Client.token d);
     Client.appName := nullish (WebSocketOptions.appName o) (Client.appName d);
     Client.appVersion := nullish (WebSocketOptions.appVersion o) (Client.appVersion d);
     Client.retryInterval :=
       nullish (WebSocketOptions.retryInterval o) (Client.retryInterval d) |}.

(** An identifier of the account as the client holds it.  [initialize]
    checks nothing: the client is made for whatever the server sent.  The
    configuration of the client holds strings, so a value that is not a
    string (or is missing) is kept by the bot and stands as the empty
    string in the client, which reads it only where [happens] stops. *)
Definition identifier (a : any) : string :=
  match a with
  | Some (JStr s) => s
  | _ => ""
  end.

Definition is_text (a : any) : bool :=
  match a with
  | Some (JStr _) => true
  | _ => false
  end.

(** The [try] block of [initialize] *)
Definition initialize_try : M unit :=
  log Client.Info "开始初始化机器人..." ;;
  let* info := getUserInfo in
  update (set_userInfo (Some info)) ;;
  let* data := read (Some info) "data" in
  let* account_no := read data "account_no" in
  let* detail := getUserDetail account_no in
  update (set_userDetail (Some detail)) ;;
  let* data := read (Some info) "data" in
  let* b_user_id := read data "b_user_id" in
  let* data' := read (Some detail) "data" in
  let* flow_user := read data' "flow_user" in
  let* cs_provider_id := read flow_user "cs_provider_id" in
  let* data := read (Some info) "data" in
  let* account_no := read data "account_no" in
  update (assign b_user_id cs_provider_id account_no) ;;
  let* b := self in
  update (set_websocketClient
            (Some (Client.boot (websocketConfig (websocket (config b))
                                                (identifier (userId b))
                                                (identifier (sellerId b)))))) ;;
  update (set_isInitialized true) ;;
  log Client.Info "机器人初始化成功".

Definition initialize : M unit :=
  let* b := self in
  if isInitialized b then
    log Client.Warn "机器人已经初始化，跳过重复初始化"
  else
    try_catch initialize_try
      (fun error =>
         log Client.Err "机器人初始化失败:" ;;
         throw (Wrapped "机器人初始化失败: " error)).

(** *** [start] and [stop] *)

(** A method of the client called by the bot, [connect] (up to its
    [await]) or [disconnect], neither of which throws: the client moves,
    and what it gives to its listeners during the call, connection events
    only, is passed on. *)
Definition client_call (c : Client.machine) (method : Client.M unit) : M unit :=
  fun s =>
    let c' := Client.exec method c in
    (Ok tt,
     {| this := set_websocketClient (Some c') (this s);
        world := set_trace
                   (trace (world s)
                    ++ map Emitted (omap passed_on (Client.emitted (Client.produced c c'))))%list
                   (world s) |}).

(** [start], up to the [await] of [connect], which goes on in the
    listeners of the client *)
Definition start : M unit :=
  ensureInitialized ;;
  let* b := self in
  match websocketClient b with
  | Some c =>
      log Client.Info "启动消息监听器..." ;;
      client_call c (Client.connect false)
  | None => throw not_initialized
  end.

Definition stop : M unit :=
  (let* b := self in
   match websocketClient b with
   | Some c => client_call c Client.disconnect
   | None => ret tt
   end) ;;
  update (set_isInitialized false) ;;
  log Client.Info "机器人已停止".

(** *** The life of a bot *)

(** What happens to a bot: a call of one of its methods, or an event of
    the runtime at its client, at the time [now]. *)
Inductive call :=
| Initialize
| Start
| Stop
| GetChats (isActive : option bool) (limit : option Z)
| GetChatMessages (customerUserId : string) (limit : option Z)
| SwitchStatus (status : string)
| UploadImage (filePath : string)
| SendText (receiverId : string) (content : json)
| SendImage (receiverId filePath : string)
| SendNote (receiverId : string) (noteId : json)
| SendCard (receiverId : string) (card : json)
| SendMessageChain (receiverId : string) (chain : MessageChain)
| Happens (ev : Client.event) (now : Z).

(** The event is a frame whose handling reads the identifiers in the
    configuration of the client: one of type 129 or 138 *)
Definition reads_identifiers (ev : Client.event) : bool :=
  match ev with
  | Client.Message _ data =>
      match Json.parse data with
      | Some v =>
          match WebSocketMessage.type (WebSocketMessage.read_as v) with
          | Some 129 | Some 138 => true
          | _ => false
          end
      | None => false
      end
  | _ => false
  end.

(** The event would make the client read an identifier that is not a
    string *)
Definition out_of_reach (ev : Client.event) (b : Redote) : bool :=
  reads_identifiers ev && negb (is_text (userId b) && is_text (sellerId b)).

(** An event at the client: the client makes its step, and the listeners
    of the bot react to what it gives them.  [None]: the event cannot
    happen, [connect] and [disconnect] being called through [start] and
    [stop] only, or the model of the client does not say what it does: the
    event is [out_of_reach], or the frame is one the client would misread,
    or hands over a raw message that [handleRawMessage] leaves out. *)
Definition happens (ev : Client.event) (now : Z) (s : state) : option state :=
  match ev with
  | Client.Call_connect | Client.Call_disconnect => None
  | _ =>
      if out_of_reach ev (this s) then None else
      match websocketClient (this s) with
      | Some c =>
          match Client.step ev c with
          | Some c' =>
              match reactions now (Client.emitted (Client.produced c c')) with
              | Some l =>
                  Some {| this := set_websocketClient (Some c') (this s);
                          world := set_trace (trace (world s) ++ l)%list (world s) |}
              | None => None
              end
          | None => None
          end
      | None => None
      end
  end.

(** The state after a call, whatever it returns.  [None]: see [happens]. *)
Definition perform (c : call) (s : state) : option state :=
  match c with
  | Initialize => Some (snd (initialize s))
  | Start => Some (snd (start s))
  | Stop => Some (snd (stop s))
  | GetChats isActive limit => Some (snd (getChats isActive limit s))
  | GetChatMessages customerUserId limit =>
      Some (snd (getChatMessages customerUserId limit s))
  | SwitchStatus status => Some (snd (switchStatus status s))
  | UploadImage filePath => Some (snd (uploadImage filePath s))
  | SendText receiverId content => Some (snd (sendText receiverId content s))
  | SendImage receiverId filePath => Some (snd (sendImage receiverId filePath s))
  | SendNote receiverId noteId => Some (snd (sendNote receiverId noteId s))
  | SendCard receiverId card => Some (snd (sendCard receiverId card s))
  | SendMessageChain receiverId chain => Some (snd (sendMessageChain receiverId chain s))
  | Happens ev now => happens ev now s
  end.

Fixpoint run (calls : list call) (s : state) : option state :=
  match calls with
  | [] => Some s
  | c :: rest =>
      match perform c s with
      | Some s' => run rest s'
      | None => None
      end
  end.

(** A new bot in the world [w] *)
Definition created (options : RedoteOptions) (w : World) : option state :=
  match constructor options with
  | Ok b => Some {| this := b; world := w |}
  | Fail _ => None
  end.

(** *** What the properties are stated with *)

Definition requests (l : list effect) : list Request :=
  omap (fun e => match e with Requested r => Some r | _ => None end) l.

(** What a method appends to the trace *)
Definition produced (s s' : state) : list effect :=
  skipn (length (trace (world s))) (trace (world s')).

(** The text that [sendMessageChain] sends for a segment: [None] for an
    image with a file, which is uploaded *)
Definition sent_text (segment : MessageSegment) : option json :=
  match segment with
  | TextSegment text => Some (JStr text)
  | ImageSegment (Some f) url _ _ =>
      if String.eqb f "" then Some (or_else url (JStr "[图片]")) else None
  | ImageSegment None url _ _ => Some (or_else url (JStr "[图片]"))
  | CardSegment content _ => Some (JStr content)
  | NoteSegment noteId _ _ _ => Some (JStr noteId)
  | EmoticonSegment _ name _ => Some (or_else name (JStr "[表情]"))
  | AtSegment userId name =>
      Some (JStr ("@" ++ match name with
                         | Some n => if String.eqb n "" then userId else n
                         | None => userId
                         end))
  | VideoSegment _ _ _ | VoiceSegment _ _ _ | OtherSegment _ => Some (JStr "[未知消息类型]")
  end.

(** A state that differs from [s] by entries of the log only *)
Definition quiet (s s' : state) : Prop :=
  this s' = this s
  /\ asked (world s') = asked (world s)
  /\ drawn (world s') = drawn (world s)
  /\ tried (world s') = tried (world s)
  /\ exists added, trace (world s') = (trace (world s) ++ added)%list
       /\ requests added = [] /\ signals added = [].

(** A method that leaves the fields of the bot and gives nothing to its
    listeners *)
Definition steady {A} (c : M A) : Prop :=
  forall s, this (snd (c s)) = this s
    /\ exists added, trace (world (snd (c s))) = (trace (world s) ++ added)%list
         /\ signals added = [].


(** A segment whose text is empty (or another falsy value) *)
Definition empty_text (segment : MessageSegment) : bool :=
  match sent_text segment with
  | Some c => negb (truthy c)
  | None => false
  end.

(** The message type under which [sendMessageChain] sends a segment *)
Definition sent_type (segment : MessageSegment) : string :=
  match segment with
  | CardSegment _ _ => "CARD"
  | NoteSegment _ _ _ _ => "NOTE"
  | ImageSegment (Some f) _ _ _ => if String.eqb f "" then "TEXT" else "IMAGE"
  | _ => "TEXT"
  end.


(** A method that keeps the configuration and gives every request the
    cookie and the timeout of the configuration *)
Definition lawful {A} (c : M A) : Prop :=
  forall s, config (this (snd (c s))) = config (this s)
    /\ exists added, trace (world (snd (c s))) = (trace (world s) ++ added)%list
         /\ Forall (fun r => cookie r = cookies (config (this s))
                             /\ timeout_ms r = timeout (config (this s)) * 1000)
                   (requests added).

(** The account data are such that [sendMessage] can read the identifier
    of the user in them: [userInfo.data] is there and not [null]. *)
Definition account_known (b : Redote) : bool :=
  match userInfo b with
  | Some info =>
      match get info "data" with
      | Ret (Some JNull) => false
      | Ret (Some _) => true
      | _ => false
      end
  | None => false
  end.

(** The two requests of [initialize] *)
Definition info_request (b : Redote) : Request :=
  {| method := "GET"; url := baseUrl ++ "/ads/user/info"; params := [];
     cookie := cookies (config b); content := None;
     timeout_ms := timeout (config b) * 1000 |}.

Definition detail_request (b : Redote) (account_no : any) : Request :=
  {| method := "GET"; url := baseUrl ++ "/pc/flow/user/detail";
     params := [("account_no", account_no);
                ("contact_way", Some (JStr (contactWay (config b))))];
     cookie := cookies (config b); content := None;
     timeout_ms := timeout (config b) * 1000 |}.

(** An initialized bot has what its methods read: the account data, and
    a client, which is configured with the two identifiers when they are
    strings. *)
Definition complete (b : Redote) : Prop :=
  isInitialized b = true ->
  account_known b = true
  /\ exists c,
       websocketClient b = Some c
       /\ (forall u, userId b = Some (JStr u) ->
             Client.userId (Client.config (Client.this c)) = u)
       /\ (forall sl, sellerId b = Some (JStr sl) ->
             Client.sellerId (Client.config (Client.this c)) = sl).

(** The account data are the answers [info] and [detail] of the server, and
    the identifiers are the ones in them, of whatever type *)
Definition account_of (info detail : json) (b : Redote) : Prop :=
  userInfo b = Some info /\ userDetail b = Some detail
  /\ (exists data, get info "data" = Ret (Some data)
         /\ get data "b_user_id" = Ret (userId b)
         /\ get data "account_no" = Ret (accountNo b))
  /\ (exists data flow_user, get detail "data" = Ret (Some data)
         /\ get data "flow_user" = Ret (Some flow_user)
         /\ get flow_user "cs_provider_id" = Ret (sellerId b)).

(** A world for the examples: the server knows the account, and accepts
    what is sent. *)
Definition demo_options : RedoteOptions :=
  {| given_cookies := Some "web_session=abc";
     given_platform := None;
     given_contactWay := None;
     given_timeout := None;
     given_websocket := None |}.

Definition demo_answers (n : nat) : answer :=
  match n with
  | O =>
      Response true 200 "OK"
        (Some (JObj [("data", JObj [("account_no", JStr "a1"); ("b_user_id", JStr "b1");
                                    ("c_user_id", JStr "c1")])]))
  | S O =>
      Response true 200 "OK"
        (Some (JObj [("data",
                      JObj [("flow_user", JObj [("cs_provider_id", JStr "p1");
                                                ("name", JStr "shop");
                                                ("status", JStr "online")])])]))
  | _ => Response true 200 "OK" (Some (JObj [("code", JInt 0)]))
  end.

Definition demo_world : World :=
  {| answers := demo_answers; asked := 0; now := fun _ => 1700000000000;
     random := fun _ => 12345678; drawn := 0;
     uploads := fun _ => Uploaded "4" "f1" "https://img/f1"; tried := 0; trace := [] |}.

Definition demo_bot : Redote :=
  {| config := {| cookies := "web_session=abc"; platform := 1; contactWay := "octopus";
                  timeout := 60; websocket := no_options |};
     userInfo := None;
     userDetail := None;
     websocketClient := None;
     isInitialized := false;
     userId := Some (JStr "");
     sellerId := Some (JStr "");
     accountNo := Some (JStr "") |}.

(** The new bot, and the bot after [initialize] *)
Definition demo_start : state := {| this := demo_bot; world := demo_world |}.
Definition demo_ready : state := snd (initialize demo_start).

(** A world where the server gives a number for the identifier of the
    user, and no identifier of the seller *)
Definition odd_answers (n : nat) : answer :=
  match n with
  | O =>
      Response true 200 "OK"
        (Some (JObj [("data", JObj [("account_no", JStr "a1"); ("b_user_id", JInt 5)])]))
  | S O =>
      Response true 200 "OK"
        (Some (JObj [("data", JObj [("flow_user", JObj [("name", JStr "shop")])])]))
  | _ => Response true 200 "OK" (Some (JObj [("code", JInt 0)]))
  end.

Definition odd_start : state :=
  {| this := demo_bot;
     world := {| answers := odd_answers; asked := 0; now := fun _ => 1700000000000;
                 random := fun _ => 12345678; drawn := 0;
                 uploads := fun _ => Uploaded "4" "f1" "https://img/f1"; tried := 0;
                 trace := [] |} |}.

End Redote.

(** * Properties *)

(** ** The text format: what is printed reads back *)

Module JsonFacts.
Import Json.

Lemma digits_of_uint_digits u : forallb is_digit (digits_of_uint u) = true.
Proof. induction u; simpl; auto. Qed.

Lemma uint_of_digits_of_uint u : uint_of_digits (digits_of_uint u) = u.
Proof. induction u; simpl; congruence. Qed.

Lemma N_of_digits_of_N n : N_of_digits (digits_of_N n) = n.
Proof.
  unfold N_of_digits, digits_of_N. rewrite uint_of_digits_of_uint.
  apply DecimalN.Unsigned.of_to.
Qed.

Lemma span_digits_app ds r :
  forallb is_digit ds = true ->
  match r with [] => True | c :: _ => is_digit c = false end ->
  span_digits (ds ++ r) = (ds, r).
Proof.
  induction ds as [|d ds IH]; simpl; intros Hd Hr.
  - destruct r as [|c r]; [reflexivity|]. simpl. now rewrite Hr.
  - apply andb_prop in Hd as [H1 H2]. rewrite H1, IH; auto.
Qed.

Lemma nzhead_int_ok u :
  Decimal.nzhead u <> Decimal.Nil -> int_ok (digits_of_uint (Decimal.nzhead u)) = true.
Proof.
  induction u; simpl; intros H; try congruence; auto;
    match goal with |- context [digits_of_uint ?v] => destruct (digits_of_uint v); reflexivity end.
Qed.

Lemma int_ok_digits_of_N n : int_ok (digits_of_N n) = true.
Proof.
  unfold digits_of_N.
  rewrite <- (DecimalN.Unsigned.of_to n) at 1.
  rewrite DecimalN.Unsigned.to_of. unfold Decimal.unorm.
  destruct (Decimal.nzhead (N.to_uint n)) eqn:E; try reflexivity;
    rewrite <- E; apply nzhead_int_ok; congruence.
Qed.

Lemma digits_of_N_nonempty n : exists c ds, digits_of_N n = c :: ds /\ is_digit c = true.
Proof.
  pose proof (int_ok_digits_of_N n) as H.
  pose proof (digits_of_uint_digits (N.to_uint n)) as D.
  unfold digits_of_N in *.
  destruct (digits_of_uint (N.to_uint n)) as [|c ds]; [discriminate|].
  simpl in D. apply andb_prop in D as [D _]. eauto.
Qed.

Lemma normalize_canonical m e : canonical m e = true -> normalize m e = (m, e).
Proof.
  unfold canonical, normalize. intros H.
  destruct (Z.eqb_spec e 0) as [E|Ne].
  - subst e. destruct (Z.eqb_spec m 0) as [E|Nm]; [subst m; reflexivity|].
    simpl. now rewrite Z.mul_1_r.
  - simpl in H. apply andb_prop in H as [Hl Hm]. apply Z.ltb_lt in Hl.
    destruct (Z.eqb_spec m 0) as [E|Nm]; [subst m; discriminate|].
    destruct (Z.leb_spec 0 e); [lia|].
    destruct (Z.to_nat (- e)) as [|k] eqn:K; [lia|]. simpl.
    apply Z.ltb_lt in Hl. rewrite Hl. simpl.
    destruct (m mod 10 =? 0)%Z; [discriminate|reflexivity].
Qed.

Lemma shorten_spec j : forall s z s' z',
  shorten j s z = (s', z') ->
  (z <= z')%Z /\ s = (s' * 10 ^ (z' - z))%Z /\ (z < z' -> s mod 10 = 0)%Z.
Proof.
  induction j as [|j IH]; intros s z s' z'; simpl.
  - intros H; inversion H; subst. rewrite Z.sub_diag, Z.mul_1_r. repeat split; lia.
  - destruct (Z.eqb_spec (s mod 10) 0) as [E|E].
    + intros H. apply IH in H as (L & V & _). split; [lia|]. split; [|auto].
      replace (z' - z)%Z with (Z.succ (z' - (z + 1)))%Z by lia.
      rewrite Z.pow_succ_r by lia.
      rewrite (Z.div_mod s 10) at 1 by lia. rewrite E, V. lia.
    + intros H; inversion H; subst. rewrite Z.sub_diag, Z.mul_1_r. repeat split; lia.
Qed.

Lemma N_of_digits_zero l : N_of_digits ("0"%char :: l) = N_of_digits l.
Proof. reflexivity. Qed.

Lemma N_of_digits_zeros j l : N_of_digits (repeat "0"%char j ++ l) = N_of_digits l.
Proof. induction j as [|j IH]; [reflexivity|]. simpl repeat. simpl app. now rewrite N_of_digits_zero. Qed.

Lemma digits_of_N_digits n : forallb is_digit (digits_of_N n) = true.
Proof. apply digits_of_uint_digits. Qed.

Lemma forallb_firstn {A} (f : A -> bool) j l :
  forallb f l = true -> forallb f (firstn j l) = true.
Proof.
  revert j. induction l as [|x l IH]; intros [|j]; simpl; auto.
  intros H. apply andb_prop in H as [-> H]. simpl. auto.
Qed.

Lemma forallb_skipn {A} (f : A -> bool) j l :
  forallb f l = true -> forallb f (skipn j l) = true.
Proof.
  revert j. induction l as [|x l IH]; intros [|j]; simpl; auto.
  intros H. apply andb_prop in H as [_ H]. auto.
Qed.

Lemma forallb_zeros j : forallb is_digit (repeat "0"%char j) = true.
Proof. induction j; simpl; auto. Qed.

Lemma int_ok_firstn j l :
  (0 < j)%nat -> int_ok l = true -> int_ok (firstn j l) = true.
Proof.
  destruct j as [|j]; [lia|]. intros _.
  destruct l as [|c [|d l]]; intros H.
  - discriminate H.
  - destruct j; reflexivity.
  - simpl in *. destruct (firstn j (d :: l)); auto.
Qed.

Lemma stops_no_digit r : stops r -> no_digit r.
Proof. destruct r; [auto|]. intros H. apply H. Qed.

Lemma lex_exp_none r : stops r -> lex_exp r = Some (0%Z, r).
Proof.
  destruct r as [|x r]; [reflexivity|]. simpl. intros (_ & _ & -> & ->). reflexivity.
Qed.

Lemma lex_exp_exponent x r :
  no_digit r -> lex_exp (print_exponent x ++ r) = Some (x, r).
Proof.
  intros Hr. unfold print_exponent. cbn [app lex_exp].
  change (Ascii.eqb "e" "e") with true. cbn [orb].
  assert (S : span_digits (digits_of_N (Z.abs_N x) ++ r) = (digits_of_N (Z.abs_N x), r)).
  { apply span_digits_app; [apply digits_of_N_digits|exact Hr]. }
  destruct (digits_of_N_nonempty (Z.abs_N x)) as (c & ds & E & Hc).
  destruct (Z.ltb_spec x 0).
  - change (Ascii.eqb "-" "-") with true. cbv iota. unfold lex_exp_digits. rewrite S, E.
    rewrite <- E, N_of_digits_of_N, N2Z.inj_abs_N. do 2 f_equal. lia.
  - change (Ascii.eqb "+" "-") with false. change (Ascii.eqb "+" "+") with true. cbv iota.
    unfold lex_exp_digits. rewrite S, E.
    rewrite <- E, N_of_digits_of_N, N2Z.inj_abs_N. do 2 f_equal. lia.
Qed.

(** The text of a number after its sign: the digits [I] of the integer
    part, the digits [F] of the fraction, and what [lex_exp] reads as the
    exponent [x] *)
Lemma lex_unsigned_text neg I F X x r :
  forallb is_digit I = true -> int_ok I = true -> forallb is_digit F = true ->
  lex_exp (X ++ r) = Some (x, r) ->
  no_digit (X ++ r) ->
  match X ++ r with [] => True | c :: _ => Ascii.eqb c "." = false end ->
  lex_unsigned neg (I ++ match F with [] => [] | _ :: _ => "."%char :: F end ++ X ++ r)
  = Some (let '(m', e') :=
            normalize (if neg then - Z.of_N (N_of_digits (I ++ F))
                       else Z.of_N (N_of_digits (I ++ F)))
                      (x - Z.of_nat (length F)) in
          JNum m' e', r).
Proof.
  intros HI Hok HF Hx Hd Hp. unfold lex_unsigned.
  assert (S : span_digits (I ++ match F with [] => [] | _ :: _ => "."%char :: F end ++ X ++ r)
              = (I, match F with [] => [] | _ :: _ => "."%char :: F end ++ X ++ r)).
  { apply span_digits_app; [exact HI|]. destruct F; [exact Hd|reflexivity]. }
  rewrite S, Hok.
  assert (L : lex_frac (match F with [] => [] | _ :: _ => "."%char :: F end ++ X ++ r)
              = Some (F, X ++ r)).
  { destruct F as [|f F].
    - simpl. destruct (X ++ r) as [|c q]; [reflexivity|]. simpl. now rewrite Hp.
    - change (("."%char :: f :: F) ++ X ++ r) with ("."%char :: (f :: F) ++ X ++ r).
      unfold lex_frac. change (Ascii.eqb "." ".") with true. cbv iota.
      rewrite (span_digits_app (f :: F) (X ++ r) HF Hd). reflexivity. }
  rewrite L, Hx. destruct (normalize _ _). reflexivity.
Qed.

Lemma digits_head n : exists c ds, digits_of_N n = c :: ds /\ is_digit c = true
  /\ (ds <> [] -> Ascii.eqb c "0" = false).
Proof.
  destruct (digits_of_N_nonempty n) as (c & ds & E & Hc). exists c, ds.
  split; [exact E|]. split; [exact Hc|]. intros N.
  pose proof (int_ok_digits_of_N n) as K. rewrite E in K.
  destruct ds as [|d ds]; [congruence|]. simpl in K. now apply negb_true_iff in K.
Qed.

Lemma lex_number_sign m t r v :
  (exists c q, t = c :: q /\ is_digit c = true) ->
  lex_unsigned (m <? 0)%Z (t ++ r) = Some (v, r) ->
  lex_number ((if (m <? 0)%Z then ["-"%char] else []) ++ t ++ r) = Some (v, r).
Proof.
  intros (c & q & -> & Hc) H. destruct (m <? 0)%Z.
  - exact H.
  - cbn [app]. cbn [app] in H. unfold lex_number.
    destruct (Ascii.eqb_spec c "-") as [->|_]; [discriminate Hc|exact H].
Qed.

Lemma lex_number_print m e r :
  canonical m e = true -> stops r ->
  lex_number (print_number m e ++ r) = Some (JNum m e, r).
Proof.
  intros Hc Hr. pose proof (stops_no_digit r Hr) as Hn. unfold print_number.
  rewrite (normalize_canonical m e Hc).
  destruct (Z.eqb_spec m 0) as [Em|Nm].
  { subst m. assert (e = 0%Z) as ->.
    { unfold canonical in Hc. destruct (Z.eqb_spec e 0); [assumption|].
      simpl in Hc. rewrite andb_false_r in Hc. discriminate. }
    cbn [app]. unfold lex_number. change (Ascii.eqb "0" "-") with false. cbv iota.
    pose proof (lex_unsigned_text false ["0"%char] [] [] 0 r eq_refl eq_refl eq_refl
                  (lex_exp_none r Hr) Hn) as L.
    cbn [app] in L. rewrite L; [reflexivity|].
    destruct r; [exact I|]. apply Hr. }
  destruct (shorten _ (Z.abs m) 0) as [s z] eqn:Sh.
  apply shorten_spec in Sh as (Hz & Hs & Hz0). rewrite Z.sub_0_r in Hs.
  assert (Hspos : (0 < s)%Z).
  { assert (0 < Z.abs m)%Z by lia. rewrite Hs in H.
    assert (0 < 10 ^ z)%Z by (apply Z.pow_pos_nonneg; lia). nia. }
  assert (Hcan : z = 0%Z \/ e = 0%Z).
  { unfold canonical in Hc. destruct (Z.eqb_spec e 0); [auto|]. simpl in Hc.
    apply andb_prop in Hc as [_ Hm]. apply negb_true_iff, Z.eqb_neq in Hm.
    left. destruct (Z.eq_dec z 0%Z); [assumption|].
    exfalso. apply Hm. assert (Z.abs m mod 10 = 0)%Z by (apply Hz0; lia).
    destruct (Z.abs_spec m) as [[_ A]|[_ A]]; rewrite A in H; [exact H|].
    apply Z.mod_divide in H; [|lia]. apply Z.mod_divide; [lia|].
    destruct H as [q Hq]. exists (- q)%Z. lia. }
  assert (He : (e <= 0)%Z).
  { unfold canonical in Hc. destruct (Z.eqb_spec e 0); [lia|]. simpl in Hc.
    apply andb_prop in Hc as [Hl _]. apply Z.ltb_lt in Hl. lia. }
  set (ds := digits_of_N (Z.to_N s)).
  assert (Dd : forallb is_digit ds = true) by apply digits_of_N_digits.
  assert (Dv : Z.of_N (N_of_digits ds) = s).
  { unfold ds. rewrite N_of_digits_of_N. lia. }
  destruct (digits_head (Z.to_N s)) as (c & q & E & Hcd & Hc0). fold ds in E.
  assert (Dok : int_ok ds = true) by apply int_ok_digits_of_N.
  set (k := Z.of_nat (length ds)).
  assert (Hk : (1 <= k)%Z) by (unfold k; rewrite E; simpl; lia).
  assert (Sg : (if (m <? 0)%Z then - s * 10 ^ z else s * 10 ^ z)%Z = m).
  { destruct (Z.ltb_spec m 0); lia. }
  destruct ((k <=? k + z + e)%Z && (k + z + e <=? 21)%Z) eqn:B1.
  { (* an integer written with all its digits *)
    apply andb_prop in B1 as [B1 _]. apply Z.leb_le in B1.
    assert (e = 0%Z) as -> by (destruct Hcan; lia).
    replace (k + z + 0 - k)%Z with z by lia.
    rewrite <- app_assoc. apply lex_number_sign.
    { destruct (digits_of_N_nonempty (Z.to_N (s * 10 ^ z))) as (c' & q' & E' & H').
      eauto. }
    pose proof (lex_unsigned_text (m <? 0)%Z (digits_of_N (Z.to_N (s * 10 ^ z))) [] [] 0 r
                  (digits_of_N_digits _) (int_ok_digits_of_N _) eq_refl
                  (lex_exp_none r Hr) Hn) as L.
    cbn [app] in L. rewrite L.
    - rewrite app_nil_r, N_of_digits_of_N, Z2N.id by nia. cbn [length].
      unfold normalize.
      assert (Nz : (s * 10 ^ z <> 0)%Z) by nia.
      destruct (m <? 0)%Z.
      + destruct (Z.eqb_spec (- (s * 10 ^ z)) 0); [lia|]. simpl.
        rewrite Z.mul_1_r. do 3 f_equal. lia.
      + destruct (Z.eqb_spec (s * 10 ^ z) 0); [lia|]. simpl.
        rewrite Z.mul_1_r. do 3 f_equal. lia.
    - destruct r; [exact I|]. apply Hr. }
  rewrite <- app_assoc. apply lex_number_sign.
  { unfold print_fraction. fold k.
    destruct ((0 <? k + z + e)%Z && (k + z + e <=? 21)%Z) eqn:B.
    - apply andb_prop in B as [B _]. apply Z.ltb_lt in B.
      destruct (Z.to_nat (k + z + e)) eqn:K; [lia|]. rewrite E. cbn. eauto.
    - rewrite E. destruct ((-6 <? k + z + e)%Z && (k + z + e <=? 0)%Z); [cbn; eauto|].
      destruct q; cbn; eauto. }
  assert (Norm : forall F x, x = (z + e)%Z ->
            N_of_digits F = N_of_digits ds ->
            normalize (if (m <? 0)%Z then - Z.of_N (N_of_digits F) else Z.of_N (N_of_digits F))
                      x = (m, e)).
  { intros F x Hx HF. rewrite Hx, HF, Dv. unfold normalize.
    destruct Hcan as [->| ->].
    - rewrite Z.pow_0_r, Z.mul_1_r in Sg. rewrite Z.mul_1_r in Sg.
      rewrite Z.add_0_l.
      replace (if (m <? 0)%Z then (- s)%Z else s) with m
        by (destruct (m <? 0)%Z; lia).
      change (normalize m e = (m, e)). now apply normalize_canonical.
    - rewrite Z.add_0_r.
      replace (if (m <? 0)%Z then (- s)%Z else s) with
        (if (m <? 0)%Z then - s else s)%Z by reflexivity.
      destruct (m <? 0)%Z eqn:Lm.
      + destruct (Z.eqb_spec (- s) 0); [lia|].
        destruct (Z.leb_spec 0 z); [|lia]. f_equal. lia.
      + destruct (Z.eqb_spec s 0); [lia|].
        destruct (Z.leb_spec 0 z); [|lia]. f_equal. lia. }
  unfold print_fraction. fold k.
  destruct ((0 <? k + z + e)%Z && (k + z + e <=? 21)%Z) eqn:B2.
  { (* digits, the point, digits *)
    apply andb_prop in B2 as [B2 B2']. apply Z.ltb_lt in B2.
    apply andb_false_iff in B1.
    assert (Hlt : (k + z + e < k)%Z) by (destruct B1 as [B1|B1]; [apply Z.leb_gt in B1|apply Z.leb_gt in B1]; lia).
    set (j := Z.to_nat (k + z + e)).
    assert (Hj : (0 < j < length ds)%nat) by (unfold j, k in *; lia).
    destruct (skipn j ds) as [|f F] eqn:Sk.
    { apply (f_equal (@length _)) in Sk. rewrite length_skipn in Sk. simpl in Sk. lia. }
    assert (HF : forallb is_digit (f :: F) = true).
    { rewrite <- Sk. now apply forallb_skipn. }
    pose proof (lex_unsigned_text (m <? 0)%Z (firstn j ds) (f :: F) [] 0 r
                  (forallb_firstn _ _ _ Dd) (int_ok_firstn _ _ (proj1 Hj) Dok) HF
                  (lex_exp_none r Hr) Hn) as L.
    cbn [app] in L. rewrite <- app_assoc. cbn [app]. rewrite L; clear L.
    - rewrite Norm; [reflexivity| |].
      + rewrite <- Sk, length_skipn. unfold j, k in *. lia.
      + rewrite <- Sk, firstn_skipn. reflexivity.
    - destruct r; [exact I|]. apply Hr. }
  destruct ((-6 <? k + z + e)%Z && (k + z + e <=? 0)%Z) eqn:B3.
  { (* zero, the point, zeros, digits *)
    apply andb_prop in B3 as [_ B3]. apply Z.leb_le in B3.
    set (j := Z.to_nat (- (k + z + e))).
    assert (Hne : exists f F, repeat "0"%char j ++ ds = f :: F).
    { rewrite E. destruct j; cbn; eauto. }
    destruct Hne as (f & F & EF).
    assert (HF : forallb is_digit (f :: F) = true).
    { rewrite <- EF, forallb_app, forallb_zeros, Dd. reflexivity. }
    pose proof (lex_unsigned_text (m <? 0)%Z ["0"%char] (f :: F) [] 0 r eq_refl eq_refl HF
                  (lex_exp_none r Hr) Hn) as L.
    cbn [app] in L. cbn [app]. rewrite EF. cbn [app]. rewrite L; clear L.
    - rewrite N_of_digits_zero, Norm; [reflexivity| |].
      + rewrite <- EF, length_app, repeat_length. unfold j, k in *. lia.
      + rewrite <- EF. apply N_of_digits_zeros.
    - destruct r; [exact I|]. apply Hr. }
  (* a digit, the point, digits, the exponent *)
  rewrite E. rewrite E in Dd, Dok, Dv, Norm. unfold k in *. rewrite E in *. clear k.
  assert (Xd : no_digit (print_exponent (Z.of_nat (length (c :: q)) + z + e - 1) ++ r))
    by reflexivity.
  assert (Xp : match print_exponent (Z.of_nat (length (c :: q)) + z + e - 1) ++ r with
               | [] => True | c0 :: _ => Ascii.eqb c0 "." = false end) by reflexivity.
  pose proof (lex_unsigned_text (m <? 0)%Z [c] q
                (print_exponent (Z.of_nat (length (c :: q)) + z + e - 1))
                (Z.of_nat (length (c :: q)) + z + e - 1) r) as L.
  simpl in Dd. apply andb_prop in Dd as [Dc Dq].
  specialize (L ltac:(simpl; now rewrite Dc) eq_refl Dq (lex_exp_exponent _ r Hn) Xd Xp).
  destruct q as [|d q].
  - cbn [app] in L |- *. rewrite L.
    rewrite (Norm [c]); [reflexivity| |reflexivity]. cbn [length]. lia.
  - cbn [app] in L |- *. rewrite <- app_assoc. rewrite L.
    rewrite (Norm (c :: d :: q)); [reflexivity| |reflexivity].
    cbn [length]. lia.
Qed.

Lemma lex_string_quote_char c rest :
  lex_string (quote_char c ++ rest) = prepend [c] (lex_string rest).
Proof.
  destruct c as [[] [] [] [] [] [] [] []]; reflexivity.
Qed.

Lemma lex_string_quote s r :
  lex_string (flat_map quote_char s ++ "034"%char :: r) = Some (s, r).
Proof.
  induction s as [|c s IH]; [reflexivity|].
  simpl flat_map. rewrite <- app_assoc, lex_string_quote_char, IH. reflexivity.
Qed.

Lemma quote_char_not_ws c : exists x l, quote_char c = x :: l.
Proof. destruct c as [[] [] [] [] [] [] [] []]; simpl; eauto. Qed.

Lemma skip_ws_length s : length (skip_ws s) <= length s.
Proof. induction s as [|c s IH]; simpl; [lia|]. destruct (is_ws c); simpl; lia. Qed.

Lemma span_digits_length s ds r :
  span_digits s = (ds, r) -> length s = length ds + length r.
Proof.
  revert ds r. induction s as [|c s IH]; simpl; intros ds r H.
  - now inversion H.
  - destruct (is_digit c).
    + destruct (span_digits s) as [ds' r'] eqn:E. inversion H; subst.
      simpl. rewrite (IH _ _ eq_refl). reflexivity.
    + inversion H; subst. reflexivity.
Qed.

Lemma prepend_Some pre x cs r :
  prepend pre x = Some (cs, r) -> exists cs', x = Some (cs', r).
Proof. destruct x as [[cs' r']|]; simpl; intros H; inversion H; subst; eauto. Qed.

Lemma lex_string_length s : forall cs r, lex_string s = Some (cs, r) -> length r < length s.
Proof.
  induction s as [s IH] using (induction_ltof1 _ (@length ascii)). unfold ltof in IH.
  intros cs r H. destruct s as [|c s]; [discriminate|]. simpl in H.
  repeat match type of H with
  | Some _ = Some _ => inversion H; subst; clear H
  | None = Some _ => discriminate H
  | prepend _ _ = Some _ => apply prepend_Some in H as [? H]; apply IH in H; simpl in *; try lia
  | context [if ?b then _ else _] => destruct b
  | context [match ?x with _ => _ end] => destruct x
  end; simpl in *; try lia.
Qed.

Lemma lex_frac_length s fs r : lex_frac s = Some (fs, r) -> length r <= length s.
Proof.
  unfold lex_frac. destruct s as [|c s]; [intros H; inversion H; simpl; lia|].
  destruct (Ascii.eqb c ".").
  - destruct (span_digits s) as [ds r'] eqn:E. apply span_digits_length in E.
    destruct ds; intros H; inversion H; subst. simpl in *. lia.
  - intros H; inversion H; subst. lia.
Qed.

Lemma lex_exp_digits_length neg s x r :
  lex_exp_digits neg s = Some (x, r) -> length r <= length s.
Proof.
  unfold lex_exp_digits. destruct (span_digits s) as [ds r'] eqn:E.
  apply span_digits_length in E. destruct ds; intros H; inversion H; subst. lia.
Qed.

Lemma lex_exp_length s x r : lex_exp s = Some (x, r) -> length r <= length s.
Proof.
  unfold lex_exp. destruct s as [|c s]; [intros H; inversion H; simpl; lia|].
  destruct (_ || _).
  - destruct s as [|y s]; [discriminate|].
    destruct (Ascii.eqb y "-"); [|destruct (Ascii.eqb y "+")];
      intros H; apply lex_exp_digits_length in H; simpl in *; lia.
  - intros H; inversion H; subst. lia.
Qed.

Lemma lex_unsigned_length neg s v r :
  lex_unsigned neg s = Some (v, r) -> length r < length s.
Proof.
  unfold lex_unsigned. destruct (span_digits s) as [ds s2] eqn:E.
  apply span_digits_length in E.
  destruct (int_ok ds) eqn:Hok; [|discriminate].
  destruct (lex_frac s2) as [[fs s3]|] eqn:Hf; [|discriminate].
  destruct (lex_exp s3) as [[x s4]|] eqn:He; [|discriminate].
  destruct (normalize _ _). intros H; inversion H; subst.
  apply lex_frac_length in Hf. apply lex_exp_length in He.
  destruct ds; [discriminate|]. simpl in *. lia.
Qed.

Lemma lex_number_length s v r : lex_number s = Some (v, r) -> length r < length s.
Proof.
  unfold lex_number. destruct s as [|c s]; [discriminate|].
  destruct (Ascii.eqb c "-"); intros H; apply lex_unsigned_length in H; simpl in *; lia.
Qed.

Lemma strip_prefix_length p s r :
  strip_prefix p s = Some r -> length s = length p + length r.
Proof.
  revert s. induction p as [|a p IH]; simpl; intros s H.
  - now inversion H.
  - destruct s as [|b s]; [discriminate|]. destruct (Ascii.eqb a b); [|discriminate].
    simpl. now rewrite (IH _ H).
Qed.

Lemma lex_literal_length s v r : lex_literal s = Some (v, r) -> length r < length s.
Proof.
  unfold lex_literal. intros H.
  destruct (strip_prefix (list_ascii_of_string "true") s) eqn:E1.
  { apply strip_prefix_length in E1. simpl in E1. inversion H; subst. lia. }
  destruct (strip_prefix (list_ascii_of_string "false") s) eqn:E2.
  { apply strip_prefix_length in E2. simpl in E2. inversion H; subst. lia. }
  destruct (strip_prefix (list_ascii_of_string "null") s) eqn:E3; [|discriminate].
  apply strip_prefix_length in E3. simpl in E3. inversion H; subst. lia.
Qed.

#[local] Arguments lex_number : simpl never.
#[local] Arguments lex_literal : simpl never.
#[local] Arguments lex_string : simpl never.

Lemma fuel_enough n :
  enough parse_value n /\ enough parse_elements n /\ enough parse_members n.
Proof.
  induction n as [|n (IHv & IHe & IHm)].
  { unfold enough; split; [|split]; intros ? ? ? H; discriminate H. }
  assert (Hv : enough parse_value (S n)).
  { intros s v r H. simpl in H.
    pose proof (skip_ws_length s) as Hs.
    destruct (skip_ws s) as [|c s1] eqn:Es; [discriminate|]. simpl in Hs.
    destruct (Ascii.eqb c "{") eqn:E1.
    { pose proof (skip_ws_length s1) as Hs1.
      destruct (skip_ws s1) as [|c' s2] eqn:Es1; [discriminate|]. simpl in Hs1.
      destruct (Ascii.eqb c' "}") eqn:E2.
      - inversion H; subst. split; [lia|]. intros m Hm.
        destruct m as [|m]; [lia|]. simpl. now rewrite Es, E1, Es1, E2.
      - destruct (parse_members n s1) as [[ms r']|] eqn:Em; [|discriminate].
        inversion H; subst. destruct (IHm _ _ _ Em) as [L K]. split; [lia|].
        intros m Hm. destruct m as [|m]; [lia|]. simpl. rewrite Es, E1, Es1, E2.
        rewrite (K m); [reflexivity|lia]. }
    destruct (Ascii.eqb c "[") eqn:E3.
    { pose proof (skip_ws_length s1) as Hs1.
      destruct (skip_ws s1) as [|c' s2] eqn:Es1; [discriminate|]. simpl in Hs1.
      destruct (Ascii.eqb c' "]") eqn:E2.
      - inversion H; subst. split; [lia|]. intros m Hm.
        destruct m as [|m]; [lia|]. simpl. now rewrite Es, E1, E3, Es1, E2.
      - destruct (parse_elements n s1) as [[ms r']|] eqn:Em; [|discriminate].
        inversion H; subst. destruct (IHe _ _ _ Em) as [L K]. split; [lia|].
        intros m Hm. destruct m as [|m]; [lia|]. simpl. rewrite Es, E1, E3, Es1, E2.
        rewrite (K m); [reflexivity|lia]. }
    destruct (Ascii.eqb c "034") eqn:E4.
    { destruct (lex_string s1) as [[cs r']|] eqn:El; [|discriminate].
      inversion H; subst. apply lex_string_length in El as L. split; [lia|].
      intros m Hm. destruct m as [|m]; [lia|]. simpl. now rewrite Es, E1, E3, E4, El. }
    destruct (Ascii.eqb c "-" || is_digit c) eqn:E5.
    { apply lex_number_length in H as L. simpl in L. split; [lia|].
      intros m Hm. destruct m as [|m]; [lia|]. simpl. now rewrite Es, E1, E3, E4, E5. }
    apply lex_literal_length in H as L. simpl in L. split; [lia|].
    intros m Hm. destruct m as [|m]; [lia|]. simpl. now rewrite Es, E1, E3, E4, E5. }
  assert (He : enough parse_elements (S n)).
  { intros s vs r H. simpl in H.
    destruct (parse_value n s) as [[v r1]|] eqn:Ev; [|discriminate].
    destruct (IHv _ _ _ Ev) as [L K].
    pose proof (skip_ws_length r1) as Hs1.
    destruct (skip_ws r1) as [|c r2] eqn:Es1; [discriminate|]. simpl in Hs1.
    destruct (Ascii.eqb c "]") eqn:E1.
    - inversion H; subst. split; [lia|]. intros m Hm.
      destruct m as [|m]; [lia|]. simpl. rewrite (K m) by lia. now rewrite Es1, E1.
    - destruct (Ascii.eqb c ",") eqn:E2; [|discriminate].
      destruct (parse_elements n r2) as [[vs' r3]|] eqn:Ee; [|discriminate].
      inversion H; subst. destruct (IHe _ _ _ Ee) as [L' K']. split; [lia|].
      intros m Hm. destruct m as [|m]; [lia|]. simpl. rewrite (K m) by lia.
      rewrite Es1, E1, E2, (K' m) by lia. reflexivity. }
  assert (Hm : enough parse_members (S n)).
  { intros s ms r H. simpl in H.
    pose proof (skip_ws_length s) as Hs.
    destruct (skip_ws s) as [|q s0] eqn:Es; [discriminate|]. simpl in Hs.
    destruct (Ascii.eqb q "034") eqn:Eq; [|discriminate].
    destruct (lex_string s0) as [[ks s1]|] eqn:El; [|discriminate].
    apply lex_string_length in El as Ll.
    pose proof (skip_ws_length s1) as Hs1.
    destruct (skip_ws s1) as [|col s2] eqn:Es1; [discriminate|]. simpl in Hs1.
    destruct (Ascii.eqb col ":") eqn:Ec; [|discriminate].
    destruct (parse_value n s2) as [[v s3]|] eqn:Ev; [|discriminate].
    destruct (IHv _ _ _ Ev) as [L K].
    pose proof (skip_ws_length s3) as Hs3.
    destruct (skip_ws s3) as [|c s4] eqn:Es3; [discriminate|]. simpl in Hs3.
    destruct (Ascii.eqb c "}") eqn:E1.
    - inversion H; subst. split; [lia|]. intros m Hm'.
      destruct m as [|m]; [lia|]. simpl. rewrite Es, Eq, El, Es1, Ec, (K m) by lia.
      now rewrite Es3, E1.
    - destruct (Ascii.eqb c ",") eqn:E2; [|discriminate].
      destruct (parse_members n s4) as [[ms' s5]|] eqn:Em; [|discriminate].
      inversion H; subst. destruct (IHm _ _ _ Em) as [L' K']. split; [lia|].
      intros m Hm'. destruct m as [|m]; [lia|]. simpl.
      rewrite Es, Eq, El, Es1, Ec, (K m) by lia.
      rewrite Es3, E1, E2, (K' m) by lia. reflexivity. }
  auto.
Qed.

Lemma digit_facts c :
  is_digit c = true ->
  is_ws c = false /\ Ascii.eqb c "]" = false /\ Ascii.eqb c "}" = false
  /\ Ascii.eqb c "{" = false /\ Ascii.eqb c "[" = false /\ Ascii.eqb c "034" = false.
Proof. destruct c as [[] [] [] [] [] [] [] []]; intros H; try discriminate H; repeat split. Qed.

Lemma print_number_head m e :
  exists c t, print_number m e = c :: t /\ (c = "-"%char \/ is_digit c = true).
Proof.
  unfold print_number. destruct (normalize m e) as [m1 e1].
  destruct (m1 =? 0)%Z; [eexists _, _; split; [reflexivity|right; reflexivity]|].
  destruct (shorten _ _ _) as [s z].
  destruct (m1 <? 0)%Z.
  { destruct (_ && _); eexists _, _; (split; [reflexivity|left; reflexivity]). }
  cbn [app].
  destruct (_ && _).
  { destruct (digits_of_N_nonempty (Z.to_N (s * 10 ^ (Z.of_nat (length (digits_of_N (Z.to_N s)))
                                                      + z + e1
                                                      - Z.of_nat (length (digits_of_N (Z.to_N s)))))))
      as (c & ds & E & Hc).
    rewrite E. eauto. }
  destruct (digits_of_N_nonempty (Z.to_N s)) as (c & ds & E & Hc). rewrite E.
  set (n := (Z.of_nat (length (c :: ds)) + z + e1)%Z).
  unfold print_fraction.
  destruct ((0 <? n)%Z && (n <=? 21)%Z) eqn:B.
  - apply andb_prop in B as [B _]. apply Z.ltb_lt in B.
    destruct (Z.to_nat n) eqn:K; [lia|]. cbn. eauto.
  - destruct ((-6 <? n)%Z && (n <=? 0)%Z);
      [eexists _, _; split; [reflexivity|right; reflexivity]|].
    destruct ds; cbn; eauto.
Qed.

Lemma print_head v : exists c t, print v = c :: t /\ value_start c.
Proof.
  destruct v as [| [] | m e | s | l | l]; simpl;
    try (eexists _, _; split; [reflexivity|repeat split]).
  destruct (print_number_head m e) as (c & t & E & [->|Hc]).
  - eexists _, _; split; [exact E|repeat split].
  - eexists _, _; split; [exact E|].
    destruct (digit_facts c Hc) as (? & ? & ? & _). repeat split; auto.
Qed.

Lemma skip_ws_start c t : is_ws c = false -> skip_ws (c :: t) = c :: t.
Proof. intros H. simpl. now rewrite H. Qed.

#[local] Arguments skip_ws : simpl nomatch.

Lemma mono_value n m s v r :
  parse_value n s = Some (v, r) -> n <= m -> parse_value m s = Some (v, r).
Proof. intros H L. destruct (fuel_enough n) as (E & _). apply (E _ _ _ H). auto. Qed.

Lemma mono_elements n m s v r :
  parse_elements n s = Some (v, r) -> n <= m -> parse_elements m s = Some (v, r).
Proof. intros H L. destruct (fuel_enough n) as (_ & E & _). apply (E _ _ _ H). auto. Qed.

Lemma mono_members n m s v r :
  parse_members n s = Some (v, r) -> n <= m -> parse_members m s = Some (v, r).
Proof. intros H L. destruct (fuel_enough n) as (_ & _ & E). apply (E _ _ _ H). auto. Qed.

Lemma join_head (f : json -> list ascii) x l rest :
  (exists c t, f x = c :: t) ->
  exists t, join_with [","%char] (map f (x :: l)) ++ rest
            = hd "0"%char (f x) :: t.
Proof.
  intros (c & t & E). simpl. rewrite E. destruct (map f l); simpl; eauto.
Qed.

Lemma parse_elements_print l :
  l <> [] -> Forall parses l ->
  forall r, exists n,
    parse_elements n (join_with [","%char] (map print l) ++ "]"%char :: r) = Some (l, r).
Proof.
  induction l as [|x l IH]; [congruence|]. intros _ HF r.
  inversion HF as [|? ? Hx Hl]; subst.
  destruct l as [|y l].
  - destruct (Hx ("]"%char :: r)) as [n Hn]; [repeat split|].
    exists (S n). simpl. simpl in Hn. rewrite Hn. reflexivity.
  - destruct (IH ltac:(congruence) Hl r) as [n2 Hn2].
    change (join_with [","%char] (map print (x :: y :: l)))
      with (print x ++ [","%char] ++ join_with [","%char] (map print (y :: l))).
    set (J := join_with [","%char] (map print (y :: l))) in *.
    rewrite <- !app_assoc. change ([","%char] ++ J ++ "]"%char :: r) with (","%char :: J ++ "]"%char :: r).
    destruct (Hx (","%char :: J ++ "]"%char :: r))
      as [n1 Hn1]; [repeat split|].
    exists (S (Nat.max n1 n2)).
    cbn [parse_elements]. rewrite (mono_value _ (Nat.max n1 n2) _ _ _ Hn1) by lia.
    rewrite skip_ws_start by reflexivity.
    change (Ascii.eqb "," "]") with false. change (Ascii.eqb "," ",") with true. cbv iota.
    rewrite (mono_elements _ (Nat.max n1 n2) _ _ _ Hn2) by lia. reflexivity.
Qed.

Lemma parse_members_print l :
  l <> [] -> Forall (fun kv => parses (snd kv)) l ->
  forall r, exists n,
    parse_members n (join_with [","%char] (map member l) ++ "}"%char :: r) = Some (l, r).
Proof.
  induction l as [|[k x] l IH]; [congruence|]. intros _ HF r.
  inversion HF as [|? ? Hx Hl]; subst. simpl in Hx.
  assert (Hm : forall n rest,
    (parse_value n (print x ++ rest) = Some (x, rest)) ->
    parse_members (S n) (member (k, x) ++ rest) =
      match skip_ws rest with
      | c :: r4 =>
          if Ascii.eqb c "}" then Some ([(k, x)], r4)
          else if Ascii.eqb c "," then
            match parse_members n r4 with
            | Some (ms, r5) => Some ((k, x) :: ms, r5)
            | None => None
            end
          else None
      | [] => None
      end).
  { intros n rest Hn. unfold member, quote. simpl fst. simpl snd.
    cbn [app]. rewrite <- !app_assoc. cbn [app].
    cbn [parse_members]. rewrite skip_ws_start by reflexivity.
    change (Ascii.eqb "034" "034") with true. cbv iota.
    pose proof (lex_string_quote (list_ascii_of_string k) (":"%char :: print x ++ rest)) as Q.
    rewrite Q. rewrite skip_ws_start by reflexivity.
    change (Ascii.eqb ":" ":") with true. cbv iota.
    rewrite Hn, string_of_list_ascii_of_string. reflexivity. }
  destruct l as [|y l].
  - destruct (Hx ("}"%char :: r)) as [n Hn]; [repeat split|].
    exists (S n). simpl join_with. rewrite (Hm n _ Hn). reflexivity.
  - destruct (IH ltac:(congruence) Hl r) as [n2 Hn2].
    change (join_with [","%char] (map member ((k, x) :: y :: l)))
      with (member (k, x) ++ [","%char] ++ join_with [","%char] (map member (y :: l))).
    set (J := join_with [","%char] (map member (y :: l))) in *.
    rewrite <- !app_assoc. change ([","%char] ++ J ++ "}"%char :: r) with (","%char :: J ++ "}"%char :: r).
    destruct (Hx (","%char :: J ++ "}"%char :: r))
      as [n1 Hn1]; [repeat split|].
    exists (S (Nat.max n1 n2)).
    rewrite (Hm _ _ (mono_value _ (Nat.max n1 n2) _ _ _ Hn1 ltac:(lia))).
    rewrite skip_ws_start by reflexivity.
    change (Ascii.eqb "," "}") with false. change (Ascii.eqb "," ",") with true. cbv iota.
    rewrite (mono_members _ (Nat.max n1 n2) _ _ _ Hn2) by lia. reflexivity.
Qed.

Lemma distinct_NoDup ks : distinct ks = true -> List.NoDup ks.
Proof.
  induction ks as [|k ks IH]; simpl; intros H; constructor.
  - apply andb_prop in H as [H _]. intros Hin.
    apply negb_true_iff in H.
    assert (existsb (String.eqb k) ks = true); [|congruence].
    apply existsb_exists. exists k. split; [exact Hin|apply String.eqb_refl].
  - apply andb_prop in H as [_ H]. auto.
Qed.

Lemma set_member_fresh k v acc :
  ~ List.In k (map fst acc) -> set_member k v acc = (acc ++ [(k, v)])%list.
Proof.
  induction acc as [|[k' v'] acc IH]; simpl; intros H; [reflexivity|].
  destruct (String.eqb_spec k k') as [->|Hne]; [tauto|].
  rewrite IH; tauto.
Qed.

Lemma obj_of_members_distinct l : distinct (map fst l) = true -> obj_of_members l = l.
Proof.
  intros H. apply distinct_NoDup in H. unfold obj_of_members.
  enough (G : forall acc, List.NoDup (map fst (acc ++ l)) ->
              fold_left (fun acc kv => set_member (fst kv) (snd kv) acc) l acc = (acc ++ l)%list).
  { apply (G []). exact H. }
  clear H. induction l as [|[k v] l IH]; intros acc H; simpl.
  - now rewrite app_nil_r.
  - rewrite set_member_fresh.
    + rewrite IH; rewrite <- app_assoc; [reflexivity|exact H].
    + rewrite map_app in H. simpl in H. apply List.NoDup_remove_2 in H.
      intros Hin. apply H. apply in_or_app. now left.
Qed.

Lemma parse_print v : wf v = true -> parses v.
Proof.
  induction v as [| b | m e | s | l IH | l IH] using json_nested_ind; intros Hwf r Hr.
  - exists 1. reflexivity.
  - exists 1. destruct b; reflexivity.
  - simpl in Hwf. exists 1.
    destruct (print_head (JNum m e)) as (c & t & E & Hws & _).
    pose proof (lex_number_print m e r Hwf Hr) as L. simpl in E.
    cbn [parse_value print]. rewrite E in *. simpl app in *.
    rewrite skip_ws_start by assumption.
    assert (Hd : Ascii.eqb c "-" || is_digit c = true).
    { unfold lex_number in L. destruct (Ascii.eqb c "-"); [reflexivity|]. simpl.
      unfold lex_unsigned in L. simpl in L. destruct (is_digit c); [reflexivity|].
      discriminate L. }
    assert (Hc : Ascii.eqb c "{" = false /\ Ascii.eqb c "[" = false /\ Ascii.eqb c "034" = false).
    { apply orb_prop in Hd as [Hd|Hd].
      - apply Ascii.eqb_eq in Hd. subst c. repeat split.
      - apply digit_facts in Hd. tauto. }
    destruct Hc as (-> & -> & ->). rewrite Hd. exact L.
  - exists 1. cbn [print]. unfold quote. cbn [app].
    rewrite <- app_assoc. cbn [app].
    pose proof (lex_string_quote (list_ascii_of_string s) r) as Q.
    cbn [parse_value]. rewrite skip_ws_start by reflexivity.
    change (Ascii.eqb "034" "{") with false. change (Ascii.eqb "034" "[") with false.
    change (Ascii.eqb "034" "034") with true. cbv iota.
    rewrite Q, string_of_list_ascii_of_string. reflexivity.
  - simpl in Hwf. destruct l as [|x l]; [exists 1; reflexivity|].
    assert (HF : Forall parses (x :: l)).
    { apply Forall_forall. intros y Hy. rewrite Forall_forall in IH. apply IH; [exact Hy|].
      rewrite forallb_forall in Hwf. apply Hwf. now apply list_elem_of_In. }
    destruct (parse_elements_print (x :: l) ltac:(congruence) HF r) as [n Hn].
    exists (S n). cbn [print]. cbn [app]. rewrite <- app_assoc. cbn [app parse_value].
    rewrite skip_ws_start by reflexivity.
    change (Ascii.eqb "[" "{") with false. change (Ascii.eqb "[" "[") with true. cbv iota.
    destruct (print_head x) as (c & t & E & Hws & Hb & _).
    destruct (join_head print x l ("]"%char :: r)) as [t' E']; [eauto|].
    rewrite E in E'. simpl hd in E'. rewrite E' in *.
    rewrite skip_ws_start by assumption. rewrite Hb, Hn. reflexivity.
  - simpl in Hwf. apply andb_prop in Hwf as [Hd Hwf].
    destruct l as [|[k x] l]; [exists 1; reflexivity|].
    assert (HF : Forall (fun kv => parses (snd kv)) ((k, x) :: l)).
    { apply Forall_forall. intros y Hy. rewrite Forall_forall in IH. apply IH; [exact Hy|].
      rewrite forallb_forall in Hwf. apply Hwf. now apply list_elem_of_In. }
    destruct (parse_members_print ((k, x) :: l) ltac:(congruence) HF r) as [n Hn].
    exists (S n). cbn [print]. fold member. cbn [app]. rewrite <- app_assoc. cbn [app parse_value].
    rewrite skip_ws_start by reflexivity.
    change (Ascii.eqb "{" "{") with true. cbv iota.
    assert (E' : exists t', join_with [","%char] (map member ((k, x) :: l)) ++ "}"%char :: r
                            = "034"%char :: t').
    { cbn [map join_with]. destruct (map member l); unfold member, quote; cbn [app fst]; eauto. }
    destruct E' as [t' E']. rewrite E' in *.
    rewrite skip_ws_start by reflexivity.
    change (Ascii.eqb "034" "}") with false. cbv iota.
    rewrite Hn, obj_of_members_distinct by exact Hd. reflexivity.
Qed.

Theorem parse_stringify v : wf v = true -> parse (stringify v) = Some v.
Proof.
  intros H. destruct (parse_print v H [] I) as [n Hn]. rewrite app_nil_r in Hn.
  unfold parse, stringify. rewrite list_ascii_of_string_of_list_ascii.
  destruct (fuel_enough n) as (E & _). destruct (E _ _ _ Hn) as [_ K].
  rewrite (K (S (length (print v)))); [reflexivity|]. right. lia.
Qed.

(** Every value [JSON.parse] returns is well formed: well-formedness is no
    condition on the values of the program, it is the form the parser
    gives them. *)
Lemma strip_zeros_canonical k : forall m e m' e',
  (e <= 0)%Z -> Z.to_nat (- e) <= k ->
  strip_zeros k m e = (m', e') -> canonical m' e' = true.
Proof.
  unfold canonical. induction k as [|k IH]; intros m e m' e' He Hk H; simpl in H.
  - inversion H; subst. assert (e' = 0)%Z as -> by lia. reflexivity.
  - destruct (Z.ltb_spec e 0) as [L|L]; simpl in H.
    + destruct (Z.eqb_spec (m mod 10) 0) as [M|M].
      * apply (IH (m / 10)%Z (e + 1)%Z); [lia|lia|exact H].
      * inversion H; subst. apply orb_true_iff. right.
        apply andb_true_iff. split; [now apply Z.ltb_lt|].
        apply negb_true_iff. now apply Z.eqb_neq.
    + inversion H; subst. assert (e' = 0)%Z as -> by lia. reflexivity.
Qed.

Lemma normalize_is_canonical m e m' e' :
  normalize m e = (m', e') -> canonical m' e' = true.
Proof.
  unfold normalize. intros H.
  destruct (m =? 0)%Z; [inversion H; reflexivity|].
  destruct (Z.leb_spec 0 e); [inversion H; reflexivity|].
  apply (strip_zeros_canonical (Z.to_nat (- e)) m e); [lia|apply le_n|exact H].
Qed.

Lemma lex_number_wf s v r : lex_number s = Some (v, r) -> wf v = true.
Proof.
  assert (U : forall neg t, lex_unsigned neg t = Some (v, r) -> wf v = true).
  { intros neg t H. unfold lex_unsigned in H.
    destruct (span_digits t) as [ds s2]. destruct (int_ok ds); [|discriminate].
    destruct (lex_frac s2) as [[fs s3]|]; [|discriminate].
    destruct (lex_exp s3) as [[x s4]|]; [|discriminate].
    destruct (normalize _ _) as [m' e'] eqn:N. inversion H; subst.
    simpl. apply (normalize_is_canonical _ _ _ _ N). }
  unfold lex_number. destruct s as [|c t]; [discriminate|].
  destruct (Ascii.eqb c "-"); apply U.
Qed.

Lemma lex_literal_wf s v r : lex_literal s = Some (v, r) -> wf v = true.
Proof.
  unfold lex_literal. intros H.
  repeat match type of H with
         | match ?x with _ => _ end = _ => destruct x
         end; inversion H; reflexivity.
Qed.

Lemma set_member_keys k v acc :
  map fst (set_member k v acc)
  = if existsb (String.eqb k) (map fst acc) then map fst acc else (map fst acc ++ [k])%list.
Proof.
  induction acc as [|[k' v'] acc IH]; simpl; [reflexivity|].
  destruct (String.eqb_spec k k') as [E|N]; simpl; [now subst|].
  rewrite IH. now destruct (existsb (String.eqb k) (map fst acc)).
Qed.

Lemma distinct_snoc ks k :
  distinct ks = true -> existsb (String.eqb k) ks = false -> distinct (ks ++ [k]) = true.
Proof.
  induction ks as [|a ks IH]; simpl; intros D E; [reflexivity|].
  apply andb_prop in D as [Da D]. apply orb_false_iff in E as [Ea E].
  rewrite IH by assumption. rewrite andb_true_r.
  apply negb_true_iff. rewrite existsb_app. simpl.
  apply negb_true_iff in Da. rewrite Da. simpl. rewrite orb_false_r.
  rewrite String.eqb_sym. exact Ea.
Qed.

Lemma set_member_wf k v acc :
  wf (JObj acc) = true -> wf v = true -> wf (JObj (set_member k v acc)) = true.
Proof.
  simpl. intros H Hv. apply andb_prop in H as [D F].
  apply andb_true_iff. split.
  - rewrite set_member_keys.
    destruct (existsb (String.eqb k) (map fst acc)) eqn:E; [exact D|].
    now apply distinct_snoc.
  - clear D. induction acc as [|[k' v'] acc IH]; simpl in *.
    + now rewrite Hv.
    + apply andb_prop in F as [F1 F2].
      destruct (String.eqb k k'); simpl; [now rewrite Hv|].
      now rewrite F1, IH.
Qed.

Lemma obj_of_members_wf ms :
  forallb (fun kv => wf (snd kv)) ms = true -> wf (JObj (obj_of_members ms)) = true.
Proof.
  unfold obj_of_members.
  enough (G : forall acc, wf (JObj acc) = true ->
              forallb (fun kv => wf (snd kv)) ms = true ->
              wf (JObj (fold_left (fun acc kv => set_member (fst kv) (snd kv) acc) ms acc)) = true).
  { apply G. reflexivity. }
  induction ms as [|[k v] ms IH]; intros acc A F; [exact A|].
  cbn [fold_left fst snd]. cbn [forallb snd] in F. apply andb_prop in F as [Fv F].
  apply IH; [|exact F]. now apply set_member_wf.
Qed.

Lemma parse_value_wf n :
  (forall s v r, parse_value n s = Some (v, r) -> wf v = true)
  /\ (forall s vs r, parse_elements n s = Some (vs, r) -> forallb wf vs = true)
  /\ (forall s ms r, parse_members n s = Some (ms, r) ->
        forallb (fun kv => wf (snd kv)) ms = true).
Proof.
  induction n as [|n (IHv & IHe & IHm)]; [repeat split; intros; discriminate|].
  split; [|split].
  - intros s v r H. cbn [parse_value] in H.
    destruct (skip_ws s) as [|c s1]; [discriminate|].
    destruct (Ascii.eqb c "{").
    { destruct (skip_ws s1) as [|c' s2]; [discriminate|].
      destruct (Ascii.eqb c' "}"); [inversion H; reflexivity|].
      destruct (parse_members n s1) as [[ms r']|] eqn:M; [|discriminate].
      inversion H; subst. apply obj_of_members_wf. apply (IHm _ _ _ M). }
    destruct (Ascii.eqb c "[").
    { destruct (skip_ws s1) as [|c' s2]; [discriminate|].
      destruct (Ascii.eqb c' "]"); [inversion H; reflexivity|].
      destruct (parse_elements n s1) as [[vs r']|] eqn:M; [|discriminate].
      inversion H; subst. simpl. apply (IHe _ _ _ M). }
    destruct (Ascii.eqb c "034").
    { destruct (lex_string s1) as [[cs r']|]; [|discriminate].
      inversion H; reflexivity. }
    destruct (Ascii.eqb c "-" || is_digit c).
    + apply (lex_number_wf _ _ _ H).
    + apply (lex_literal_wf _ _ _ H).
  - intros s vs r H. cbn [parse_elements] in H.
    destruct (parse_value n s) as [[v r1]|] eqn:V; [|discriminate].
    destruct (skip_ws r1) as [|c r2]; [discriminate|].
    destruct (Ascii.eqb c "]").
    { inversion H; subst. simpl. now rewrite (IHv _ _ _ V). }
    destruct (Ascii.eqb c ","); [|discriminate].
    destruct (parse_elements n r2) as [[vs' r3]|] eqn:E; [|discriminate].
    inversion H; subst. simpl. now rewrite (IHv _ _ _ V), (IHe _ _ _ E).
  - intros s ms r H. cbn [parse_members] in H.
    destruct (skip_ws s) as [|q r0]; [discriminate|].
    destruct (Ascii.eqb q "034"); [|discriminate].
    destruct (lex_string r0) as [[ks r1]|]; [|discriminate].
    destruct (skip_ws r1) as [|col r2]; [discriminate|].
    destruct (Ascii.eqb col ":"); [|discriminate].
    destruct (parse_value n r2) as [[v r3]|] eqn:V; [|discriminate].
    cbv zeta in H.
    destruct (skip_ws r3) as [|c r4]; [discriminate|].
    destruct (Ascii.eqb c "}").
    { inversion H; subst. simpl. now rewrite (IHv _ _ _ V). }
    destruct (Ascii.eqb c ","); [|discriminate].
    destruct (parse_members n r4) as [[ms' r5]|] eqn:E; [|discriminate].
    inversion H; subst. simpl. now rewrite (IHv _ _ _ V), (IHm _ _ _ E).
Qed.

Theorem parse_wf text v : parse text = Some v -> wf v = true.
Proof.
  unfold parse. intros H.
  destruct (parse_value _ _) as [[v' r]|] eqn:P; [|discriminate].
  destruct (skip_ws r); [|discriminate]. inversion H; subst.
  destruct (parse_value_wf (S (length (list_ascii_of_string text)))) as (G & _).
  apply (G _ _ _ P).
Qed.

End JsonFacts.

(** ** The message chain *)

Module MessageFacts.
Import Json Message Message.MessageParser.
Local Open Scope string_scope.

Lemma append_empty_r s : s ++ "" = s.
Proof.
  induction s as [|c s IH]; [reflexivity|].
  change (String c (s ++ "") = String c s). now rewrite IH.
Qed.

Lemma append_assoc' (a b c : string) : (a ++ b) ++ c = a ++ b ++ c.
Proof.
  induction a as [|x a IH]; [reflexivity|].
  change (String x ((a ++ b) ++ c) = String x (a ++ b ++ c)). now rewrite IH.
Qed.

Lemma join_empty l : join "" l = fold_right String.append "" l.
Proof.
  induction l as [|x l IH]; [reflexivity|].
  destruct l as [|y l]; [simpl; now rewrite append_empty_r|].
  change (join "" (x :: y :: l)) with (x ++ "" ++ join "" (y :: l)).
  rewrite IH. reflexivity.
Qed.

Lemma segmentText_rendering seg : segmentText seg = rendering seg.
Proof.
  destruct seg as [t|f u w h|f u d|f u d|c ct|n t c u|i [v|] u|u [n|]|k]; try reflexivity.
  - destruct v as [| [] | m e | s | l | l]; simpl; try reflexivity.
    + destruct (m =? 0)%Z; reflexivity.
    + destruct (String.eqb s ""); reflexivity.
Qed.

Lemma chainToText_app (a b : MessageChain) :
  chainToText (a ++ b)%list = chainToText a ++ chainToText b.
Proof.
  unfold chainToText. rewrite !join_empty, map_app, fold_right_app.
  induction (map segmentText a) as [|x l IH]; [reflexivity|].
  simpl. now rewrite IH, append_assoc'.
Qed.

(** C3 (as amended): [chainToText] is the concatenation, left to right and
    with no separator, of the renderings of the segments, where an
    emoticon contributes its name when it has one and the label [表情]
    otherwise (and an At segment whose name is empty the user id); so the
    text of a chain that starts with a segment is the rendering of that
    segment followed by the text of the rest. *)
Theorem chainToText_renders chain :
  chainToText chain = fold_right String.append "" (map rendering chain)
  /\ chainToText [] = ""
  /\ forall seg, chainToText (seg :: chain) = rendering seg ++ chainToText chain.
Proof.
  assert (H : forall c, chainToText c = fold_right String.append "" (map rendering c)).
  { intros c. unfold chainToText. rewrite join_empty. f_equal.
    apply map_ext. intros seg. apply segmentText_rendering. }
  split; [apply H|]. split; [reflexivity|].
  intros seg. rewrite (H (seg :: chain)), (H chain). reflexivity.
Qed.

(** C3 (as stated) fails: an emoticon with a name contributes the name, not
    the fixed label of its kind. *)
Lemma emoticon_name_not_label :
  fixed_label smile = Some "[表情]"
  /\ chainToText [smile] = "😊"
  /\ chainToText [smile] <> "[表情]".
Proof. repeat split. discriminate. Qed.

Lemma try_catch_total {A} (c : outcome A) (x : A) : exists y, Exn.try_catch c (Ret x) = Ret y.
Proof. destruct c; simpl; eauto. Qed.

(** C7: when [JSON.parse] fails on the content, [parseMessage] with the
    discriminator IMAGE returns the chain of the one Text segment that
    holds the content, as it does on the malformed text of the example;
    and for every discriminator and content [parseMessage] returns a chain
    of one segment: it never throws. *)
Theorem parseMessage_falls_back :
  (forall content, Json.parse content = None ->
     parseMessage "IMAGE" content = Ret [TextSegment content])
  /\ parseMessage "IMAGE" "{not json" = Ret [TextSegment "{not json"]
  /\ (forall messageType content, exists seg, parseMessage messageType content = Ret [seg]).
Proof.
  split; [|split].
  - intros content H. unfold parseMessage, JSON_parse. rewrite H. reflexivity.
  - reflexivity.
  - intros mt content. unfold parseMessage.
    repeat match goal with
    | |- context [String.eqb mt ?k] => destruct (String.eqb mt k)
    end; try (eexists; reflexivity).
    + destruct (JSON_parse content) as [v|e]; [|eexists; reflexivity].
      simpl. destruct (get v "link") as [l|e]; [|eexists; reflexivity].
      simpl. destruct (get v "size") as [z|e]; eexists; reflexivity.
    + destruct (JSON_parse content) as [v|e]; [|eexists; reflexivity].
      simpl. destruct (get v "url") as [l|e]; [|eexists; reflexivity].
      simpl. destruct (get v "duration") as [z|e]; eexists; reflexivity.
    + destruct (JSON_parse content) as [v|e]; [|eexists; reflexivity].
      simpl. destruct (get v "url") as [l|e]; [|eexists; reflexivity].
      simpl. destruct (get v "duration") as [z|e]; eexists; reflexivity.
    + destruct (JSON_parse content) as [v|e]; [|eexists; reflexivity].
      simpl. destruct (get v "id") as [l|e]; [|eexists; reflexivity].
      simpl. destruct (get v "name") as [z|e]; [|eexists; reflexivity].
      simpl. destruct (get v "url") as [w|e]; eexists; reflexivity.
Qed.

Lemma parseMessage_falls_back_witness :
  Json.parse "{not json" = None
  /\ parseMessage "IMAGE" "{not json" = Ret [TextSegment "{not json"].
Proof.
  split; [reflexivity|]. apply (proj1 parseMessage_falls_back). reflexivity.
Defined.

(** *** Reading a chain *)

Lemma getTextContent_fold chain :
  getTextContent chain
  = fold_right String.append "" (List.map data_text (getSegmentsByType chain MessageSegmentType.TEXT)).
Proof. unfold getTextContent. apply join_empty. Qed.

Lemma getTextContent_app (a b : MessageChain) :
  getTextContent (a ++ b)%list = getTextContent a ++ getTextContent b.
Proof.
  rewrite !getTextContent_fold. unfold getSegmentsByType.
  rewrite List.filter_app, map_app, fold_right_app.
  induction (List.map data_text (List.filter _ a)) as [|x l IH]; [reflexivity|].
  simpl. now rewrite IH, append_assoc'.
Qed.

(** X13: for a chain that holds Text segments only, [getTextContent] and
    [chainToText] give the same text, [getSegmentsByType] for the text
    type gives the chain itself, and [hasSegmentType] is false for every
    other type. *)
Theorem text_only_content chain :
  MessageChainUtils.isTextOnly chain = true ->
  getTextContent chain = chainToText chain
  /\ getSegmentsByType chain MessageSegmentType.TEXT = chain
  /\ forall type, type <> MessageSegmentType.TEXT -> hasSegmentType chain type = false.
Proof.
  intros H. induction chain as [|seg chain IH]; [repeat split|].
  cbn [MessageChainUtils.isTextOnly forallb] in H. apply andb_prop in H as [Hs Hc].
  destruct (IH Hc) as (I1 & I2 & I3).
  destruct seg; try discriminate Hs.
  split; [|split].
  - change (TextSegment text :: chain) with ([TextSegment text] ++ chain)%list.
    rewrite getTextContent_app, chainToText_app, I1. reflexivity.
  - unfold getSegmentsByType in *. cbn. now rewrite I2.
  - intros ty Hty. unfold hasSegmentType in *. cbn. rewrite (I3 ty Hty).
    destruct ty; try reflexivity. now elim Hty.
Qed.

Lemma text_only_content_witness :
  getTextContent [TextSegment "a"; TextSegment "b"] = "ab"
  /\ chainToText [TextSegment "a"; TextSegment "b"] = "ab".
Proof.
  destruct (text_only_content [TextSegment "a"; TextSegment "b"] eq_refl) as (H & _ & _).
  split; [reflexivity|]. rewrite <- H. reflexivity.
Defined.

Lemma fold_append_app (a b : list string) :
  fold_right String.append "" (a ++ b)
  = fold_right String.append "" a ++ fold_right String.append "" b.
Proof.
  induction a as [|x a IH]; [reflexivity|]. simpl. now rewrite IH, append_assoc'.
Qed.

(** X14: [merge] commutes with the readers of a chain: the text of the
    merged chain is the texts of the chains one after the other, for
    [chainToText] as for [getTextContent]; the merged chain has a segment
    of a type when one of the chains has; and its segments of a type are
    those of the chains, merged. *)
Theorem merge_distributes (chains : list MessageChain) :
  chainToText (MessageChainUtils.merge chains)
  = fold_right String.append "" (List.map chainToText chains)
  /\ getTextContent (MessageChainUtils.merge chains)
     = fold_right String.append "" (List.map getTextContent chains)
  /\ forall type,
       hasSegmentType (MessageChainUtils.merge chains) type
       = existsb (fun chain => hasSegmentType chain type) chains
       /\ getSegmentsByType (MessageChainUtils.merge chains) type
          = MessageChainUtils.merge
              (List.map (fun chain => getSegmentsByType chain type) chains).
Proof.
  unfold MessageChainUtils.merge.
  induction chains as [|c chains (I1 & I2 & I3)]; [repeat split|].
  cbn [concat List.map fold_right]. split; [|split].
  - now rewrite chainToText_app, I1.
  - now rewrite getTextContent_app, I2.
  - intros ty. destruct (I3 ty) as [I4 I5]. split.
    + unfold hasSegmentType in *. cbn [existsb]. now rewrite existsb_app, I4.
    + unfold getSegmentsByType in *. now rewrite List.filter_app, I5.
Qed.

(** X15: [hasSegmentType] holds exactly when [getSegmentsByType] gives a
    chain that is not empty, and each segment that [getSegmentsByType]
    gives has the type asked for.  The empty chain counts as text-only,
    though it has no segment of the text type, and its text content is
    empty. *)
Theorem segments_by_type chain type :
  hasSegmentType chain type
  = negb (MessageChainUtils.isEmpty (getSegmentsByType chain type))
  /\ Forall (fun segment => kind segment = Some type) (getSegmentsByType chain type)
  /\ (MessageChainUtils.isEmpty chain = true ->
      MessageChainUtils.isTextOnly chain = true
      /\ hasSegmentType chain type = false
      /\ getTextContent chain = "").
Proof.
  split; [|split].
  - unfold hasSegmentType, getSegmentsByType, MessageChainUtils.isEmpty.
    induction chain as [|seg chain IH]; [reflexivity|].
    cbn [existsb List.filter]. destruct (has_type type seg); [reflexivity|exact IH].
  - unfold getSegmentsByType. apply List.Forall_forall. intros seg H.
    apply filter_In in H as [_ H]. unfold has_type in H.
    destruct (kind seg) as [k|]; [|discriminate].
    destruct k, type; try discriminate H; reflexivity.
  - destruct chain; [repeat split|discriminate].
Qed.

(** X16: for a discriminator other than IMAGE, VIDEO, VOICE, CARD, NOTE
    and EMOTICON (TEXT, or one that the parser does not know),
    [parseMessage] gives the chain that [fromString] makes of the content,
    whatever the content is; that chain is text-only and both
    [chainToText] and [getTextContent] give the content back. *)
Theorem plain_content_kept messageType content :
  ~ In messageType structured_types ->
  parseMessage messageType content = Ret (MessageBuilder.fromString content)
  /\ chainToText (MessageBuilder.fromString content) = content
  /\ getTextContent (MessageBuilder.fromString content) = content
  /\ MessageChainUtils.isTextOnly (MessageBuilder.fromString content) = true.
Proof.
  intros H. split; [|repeat split].
  unfold parseMessage.
  destruct (String.eqb messageType "TEXT"); [reflexivity|].
  repeat match goal with
  | |- context [String.eqb messageType ?k] =>
      destruct (String.eqb_spec messageType k) as [->|_];
        [exfalso; apply H; cbn; tauto|]
  end.
  reflexivity.
Qed.

Lemma plain_content_kept_witness :
  parseMessage "HINT" "hello" = Ret [TextSegment "hello"]
  /\ parseMessage "TEXT" "" = Ret [TextSegment ""].
Proof.
  split.
  - apply (plain_content_kept "HINT" "hello"). cbn. intuition discriminate.
  - reflexivity.
Defined.

(** The three discriminators whose content is read as JSON and shown as
    text when it cannot be *)
Ltac media_case content :=
  unfold JSON_parse; destruct (Json.parse content) as [v|] eqn:P; cbn;
  [destruct v; cbn|];
  eexists; (split; [reflexivity|]);
  (split; [intros _; split;
             [intros [F|F]; first [discriminate F|reflexivity]
             |intros w W Hw; inversion W; subst; first [reflexivity|now elim Hw]]
          |split; [intros N; exfalso; apply N; cbn; tauto|discriminate]]).

(** X17: [parseMessage] gives one segment.  For IMAGE, VIDEO and VOICE it
    is the Text segment of the content when the content is not JSON or is
    the JSON [null], and a segment of the kind of the discriminator when
    the content is any other JSON value.  For every other discriminator
    the kind is the one of the discriminator.  EMOTICON never falls back
    to text: when the content is not JSON, or is [null], it gives the bare
    content as the id, with no name and no url; for any other JSON value
    the name and the url are the ones of the value and the id is its id
    when that is truthy and the content itself otherwise. *)
Theorem parsed_kind messageType content :
  exists segment,
    parseMessage messageType content = Ret [segment]
    /\ (In messageType ["IMAGE"; "VIDEO"; "VOICE"] ->
        (Json.parse content = None \/ Json.parse content = Some JNull ->
           segment = TextSegment content)
        /\ (forall v, Json.parse content = Some v -> v <> JNull ->
              kind segment = Some (expected_kind messageType)))
    /\ (~ In messageType ["IMAGE"; "VIDEO"; "VOICE"] ->
        kind segment = Some (expected_kind messageType))
    /\ (messageType = "EMOTICON" ->
        exists id name url,
          segment = EmoticonSegment id name url
          /\ (id = JStr content \/ truthy id = true)
          /\ (Json.parse content = None \/ Json.parse content = Some JNull ->
              id = JStr content /\ name = None /\ url = None)
          /\ (forall v, Json.parse content = Some v -> v <> JNull ->
                exists i, get v "id" = Ret i /\ id = or_else i (JStr content)
                  /\ get v "name" = Ret name /\ get v "url" = Ret url)).
Proof.
  unfold parseMessage, expected_kind.
  destruct (String.eqb_spec messageType "TEXT") as [->|_].
  { eexists. split; [reflexivity|]. split; [cbn; intuition discriminate|].
    split; [reflexivity|discriminate]. }
  destruct (String.eqb_spec messageType "IMAGE") as [->|_]; [media_case content|].
  destruct (String.eqb_spec messageType "VIDEO") as [->|_]; [media_case content|].
  destruct (String.eqb_spec messageType "VOICE") as [->|_]; [media_case content|].
  destruct (String.eqb_spec messageType "CARD") as [->|_].
  { eexists. split; [reflexivity|]. split; [cbn; intuition discriminate|].
    split; [reflexivity|discriminate]. }
  destruct (String.eqb_spec messageType "NOTE") as [->|_].
  { eexists. split; [reflexivity|]. split; [cbn; intuition discriminate|].
    split; [reflexivity|discriminate]. }
  destruct (String.eqb_spec messageType "EMOTICON") as [->|N].
  { unfold JSON_parse. destruct (Json.parse content) as [v|] eqn:P; cbn.
    - destruct v as [| b | m e | s | l | l]; cbn;
        eexists; (split; [reflexivity|]); (split; [cbn; intuition discriminate|]);
        (split; [reflexivity|]); intros _;
        do 3 eexists; (split; [reflexivity|]).
      + split; [left; reflexivity|]. split; [auto|]. intros w W Hw. inversion W; subst. now elim Hw.
      + split; [left; reflexivity|]. split; [intros [F|F]; discriminate F|].
        intros w W Hw. inversion W; subst. exists None. cbn. auto.
      + split; [left; reflexivity|]. split; [intros [F|F]; discriminate F|].
        intros w W Hw. inversion W; subst. exists None. cbn. auto.
      + split; [left; reflexivity|]. split; [intros [F|F]; discriminate F|].
        intros w W Hw. inversion W; subst. exists None. cbn. auto.
      + split; [left; reflexivity|]. split; [intros [F|F]; discriminate F|].
        intros w W Hw. inversion W; subst. exists None. cbn. auto.
      + split.
        { unfold or_else. destruct (lookup_prop "id" l) as [i|]; [|left; reflexivity].
          destruct (truthy i) eqn:T; [right; exact T|left; reflexivity]. }
        split; [intros [F|F]; discriminate F|].
        intros w W Hw. inversion W; subst. exists (lookup_prop "id" l). cbn. auto.
    - eexists. split; [reflexivity|]. split; [cbn; intuition discriminate|].
      split; [reflexivity|]. intros _.
      do 3 eexists. split; [reflexivity|]. split; [left; reflexivity|].
      split; [auto|]. intros w W. discriminate W. }
  eexists. split; [reflexivity|]. split; [cbn; intuition congruence|].
  split; [reflexivity|]. intros E. now elim N.
Qed.

(** X18: the content that [sendImage] sends, [JSON.stringify] of the
    result of an upload, is read by [parseMessage] under IMAGE as one Image
    segment with the preview URL, the width and the height of that
    result. *)
Theorem uploaded_image_parses cloudType bizName scene fileId preViewUrl width height :
  parseMessage "IMAGE"
    (stringify (upload_result cloudType bizName scene fileId preViewUrl width height))
  = Ret [ImageSegment None (Some (JStr preViewUrl)) (Some (JInt width)) (Some (JInt height))].
Proof.
  unfold parseMessage. cbn [String.eqb Ascii.eqb Bool.eqb]. unfold JSON_parse.
  rewrite JsonFacts.parse_stringify by reflexivity. reflexivity.
Qed.

End MessageFacts.

(** ** The cipher *)

Module CryptoFacts.
Import Crypto.
Local Open Scope Z_scope.

(** FIPS 197, appendix C.1 and appendix B *)
Example aes128_fips197_c1 :
  aes128_block [0; 1; 2; 3; 4; 5; 6; 7; 8; 9; 10; 11; 12; 13; 14; 15]
    [0; 17; 34; 51; 68; 85; 102; 119; 136; 153; 170; 187; 204; 221; 238; 255]
  = [105; 196; 224; 216; 106; 123; 4; 48; 216; 205; 183; 128; 112; 180; 197; 90].
Proof. vm_compute. reflexivity. Qed.

Example aes128_fips197_b :
  aes128_block [43; 126; 21; 22; 40; 174; 210; 166; 171; 247; 21; 136; 9; 207; 79; 60]
    [50; 67; 246; 168; 136; 90; 48; 141; 49; 49; 152; 162; 224; 55; 7; 52]
  = [57; 37; 132; 29; 2; 220; 9; 251; 220; 17; 133; 151; 25; 106; 11; 50].
Proof. vm_compute. reflexivity. Qed.

Example aesEcbEncrypt_hello :
  RedoteCrypto.aesEcbEncrypt "0123456789abcdef" "hello" = "Z0x-8454yr2c7JwSWCOmOQ"%string.
Proof. vm_compute. reflexivity. Qed.

#[local] Opaque aes128_block.

Lemma key_window_length key : length (key_window key) = 16%nat.
Proof.
  unfold key_window. rewrite length_firstn, length_app, repeat_length. lia.
Qed.

Lemma skipn_repeat {A} (x : A) k n : skipn k (repeat x n) = repeat x (n - k).
Proof.
  revert n. induction k as [|k IH]; intros [|n]; simpl; auto.
Qed.

Lemma firstn_repeat {A} (x : A) k n : firstn k (repeat x n) = repeat x (Nat.min k n).
Proof.
  revert n. induction k as [|k IH]; intros [|n]; simpl; auto. now rewrite IH.
Qed.

Lemma adjusted_key_window (k : list Z) n :
  (16 <= n)%nat ->
  subarray 16 (Buffer_copy k (Buffer_alloc n)) = firstn 16 (k ++ repeat 0 16).
Proof.
  intros Hn. unfold subarray, Buffer_copy, Buffer_alloc.
  rewrite repeat_length, skipn_repeat.
  destruct (Nat.le_gt_cases (length k) 16) as [L|L].
  - rewrite (firstn_all2 (n := n)) by lia.
    rewrite !firstn_app, (firstn_all2 (n := 16)) by lia.
    rewrite !firstn_repeat. f_equal. f_equal. lia.
  - rewrite !firstn_app.
    replace (16 - length k)%nat with 0%nat by lia.
    replace (16 - length (firstn n k))%nat with 0%nat by (rewrite length_firstn; lia).
    rewrite !firstn_O, !app_nil_r, firstn_firstn. f_equal. lia.
Qed.

Lemma pkcs7_short d : (length d < 16)%nat ->
  length (pkcs7 d) = 16%nat.
Proof.
  intros H. unfold pkcs7. rewrite length_app, repeat_length, Nat.mod_small by lia. lia.
Qed.

Lemma pkcs7_long d : (16 <= length d)%nat ->
  pkcs7 d = (firstn 16 d ++ pkcs7 (skipn 16 d))%list.
Proof.
  intros H. unfold pkcs7. rewrite length_skipn.
  replace (length d mod 16)%nat with ((length d - 16) mod 16)%nat.
  - now rewrite app_assoc, firstn_skipn.
  - replace (length d) with ((length d - 16) + 1 * 16)%nat at 2 by lia.
    now rewrite Nat.Div0.mod_add.
Qed.

Lemma tail_bytes_short d : (length d < 16)%nat -> tail_bytes d = d.
Proof. intros H. unfold tail_bytes. now rewrite Nat.div_small. Qed.

Lemma tail_bytes_long d : (16 <= length d)%nat -> tail_bytes d = tail_bytes (skipn 16 d).
Proof.
  intros H. unfold tail_bytes. rewrite length_skipn, skipn_skipn. f_equal.
  replace (length d) with ((length d - 16) + 1 * 16)%nat at 1 by lia.
  rewrite Nat.div_add by lia. lia.
Qed.

Lemma ecb_blocks_padded key n : forall d,
  (length d / 16 <= n)%nat ->
  ecb_blocks (S n) key (pkcs7 d)
  = (ecb_blocks n key d ++ aes128_block key (pkcs7 (tail_bytes d)))%list.
Proof.
  assert (Short : forall m d, (length d < 16)%nat ->
            ecb_blocks (S m) key (pkcs7 d) = aes128_block key (pkcs7 d)
            /\ ecb_blocks m key d = []).
  { intros m d H. split.
    - cbn [ecb_blocks]. rewrite (pkcs7_short d H). simpl Nat.leb. cbv iota.
      rewrite firstn_all2 by (rewrite pkcs7_short; lia).
      rewrite skipn_all2 by (rewrite pkcs7_short; lia).
      destruct m; simpl; now rewrite app_nil_r.
    - destruct m; [reflexivity|]. cbn [ecb_blocks].
      destruct (Nat.leb_spec 16 (length d)); [lia|reflexivity]. }
  induction n as [|n IH]; intros d Hd.
  - assert (H : (length d < 16)%nat).
    { destruct (Nat.lt_ge_cases (length d) 16); [assumption|].
      assert (1 <= length d / 16)%nat by (apply Nat.div_le_lower_bound; lia). lia. }
    destruct (Short 0%nat d H) as [-> ->]. now rewrite tail_bytes_short.
  - destruct (Nat.lt_ge_cases (length d) 16) as [H|H].
    + destruct (Short (S n) d H) as [-> ->]. now rewrite tail_bytes_short.
    + rewrite (pkcs7_long d H) at 1.
      assert (L16 : length (firstn 16 d) = 16%nat) by (rewrite length_firstn; lia).
      change (ecb_blocks (S (S n)) key (firstn 16 d ++ pkcs7 (skipn 16 d)))
        with (if (16 <=? length (firstn 16 d ++ pkcs7 (skipn 16 d)))%nat
              then aes128_block key (firstn 16 (firstn 16 d ++ pkcs7 (skipn 16 d)))
                     ++ ecb_blocks (S n) key (skipn 16 (firstn 16 d ++ pkcs7 (skipn 16 d)))
              else [])%list.
      rewrite length_app, L16.
      destruct (Nat.leb_spec 16 (16 + length (pkcs7 (skipn 16 d)))); [|lia].
      rewrite firstn_app, L16, Nat.sub_diag, firstn_O, app_nil_r, firstn_firstn.
      rewrite skipn_app, L16, Nat.sub_diag, skipn_O.
      rewrite (skipn_all2 (firstn 16 d)) by lia. cbn [app].
      rewrite IH.
      * cbn [ecb_blocks]. destruct (Nat.leb_spec 16 (length d)); [|lia].
        rewrite <- app_assoc. now rewrite <- tail_bytes_long.
      * rewrite length_skipn.
        replace (length d) with ((length d - 16) + 1 * 16)%nat in Hd by lia.
        rewrite Nat.div_add in Hd by lia. lia.
Qed.

Lemma ecb_blocks_fuel key n : forall m d,
  (length d / 16 <= n)%nat -> (length d / 16 <= m)%nat ->
  ecb_blocks n key d = ecb_blocks m key d.
Proof.
  induction n as [|n IH]; intros m d Hn Hm.
  - assert (H : (length d < 16)%nat).
    { destruct (Nat.lt_ge_cases (length d) 16); [assumption|].
      assert (1 <= length d / 16)%nat by (apply Nat.div_le_lower_bound; lia). lia. }
    destruct m; [reflexivity|]. cbn [ecb_blocks].
    destruct (Nat.leb_spec 16 (length d)); [lia|reflexivity].
  - destruct (Nat.lt_ge_cases (length d) 16) as [H|H].
    + cbn [ecb_blocks]. destruct (Nat.leb_spec 16 (length d)); [lia|].
      destruct m; [reflexivity|]. cbn [ecb_blocks].
      destruct (Nat.leb_spec 16 (length d)); [lia|reflexivity].
    + assert (D : (length d / 16 = S (length (skipn 16 d) / 16))%nat).
      { rewrite length_skipn.
        replace (length d) with ((length d - 16) + 1 * 16)%nat at 1 by lia.
        rewrite Nat.div_add by lia. lia. }
      destruct m as [|m]; [lia|]. cbn [ecb_blocks].
      destruct (Nat.leb_spec 16 (length d)); [|lia].
      f_equal. apply IH; lia.
Qed.

Lemma update_final_ecb key d :
  (cipher_update key d ++ cipher_final key d)%list = aes128_ecb key (pkcs7 d).
Proof.
  unfold cipher_update, cipher_final, aes128_ecb.
  assert (Hd : (length d / 16 <= length d)%nat) by (apply Nat.Div0.div_le_upper_bound; lia).
  rewrite <- ecb_blocks_padded by exact Hd.
  apply ecb_blocks_fuel.
  - unfold pkcs7. rewrite length_app, repeat_length.
    pose proof (Nat.mod_upper_bound (length d) 16 ltac:(lia)).
    apply Nat.Div0.div_le_upper_bound. lia.
  - apply Nat.Div0.div_le_upper_bound. lia.
Qed.

Lemma base64_app a : forall b,
  (length a mod 3 = 0)%nat -> base64 (a ++ b) = (base64 a ++ base64 b)%list.
Proof.
  induction a as [a IH] using (induction_ltof1 _ (@length Z)). unfold ltof in IH.
  intros b H. destruct a as [|x [|y [|z a]]]; try (simpl in H; discriminate H).
  - reflexivity.
  - change (base64 ((x :: y :: z :: a) ++ b))
      with ([b64 (Z.shiftr x 2);
             b64 (Z.lor (Z.shiftl (Z.land x 3) 4) (Z.shiftr y 4));
             b64 (Z.lor (Z.shiftl (Z.land y 15) 2) (Z.shiftr z 6));
             b64 (Z.land z 63)] ++ base64 (a ++ b))%list.
    rewrite IH.
    + reflexivity.
    + simpl. lia.
    + cbn [length] in H.
      replace (S (S (S (length a)))) with (length a + 1 * 3)%nat in H by lia.
      now rewrite Nat.Div0.mod_add in H.
Qed.

Lemma decoder_whole c1 c2 :
  (fst (decoder_write c1) ++ decoder_end (snd (decoder_write c1)) c2)%list
  = base64 (c1 ++ c2).
Proof.
  unfold decoder_write, decoder_end. cbn [fst snd].
  rewrite <- base64_app.
  - now rewrite app_assoc, firstn_skipn.
  - rewrite length_firstn.
    pose proof (Nat.Div0.mul_div_le (length c1) 3).
    rewrite Nat.min_l by lia. rewrite Nat.mul_comm. apply Nat.Div0.mod_mul.
Qed.

Theorem aesEcbEncrypt_vendor key plaintext :
  RedoteCrypto.aesEcbEncrypt key plaintext = vendor_encrypt key plaintext.
Proof.
  unfold RedoteCrypto.aesEcbEncrypt, vendor_encrypt.
  assert (K : (if (length (Buffer_from key) <=? 16)%nat
               then Buffer_copy (Buffer_from key) (Buffer_alloc 16)
               else if (length (Buffer_from key) <=? 24)%nat
                    then Buffer_copy (Buffer_from key) (Buffer_alloc 24)
                    else Buffer_copy (Buffer_from key) (Buffer_alloc 32))
              = Buffer_copy (Buffer_from key)
                  (Buffer_alloc (if (length (Buffer_from key) <=? 16)%nat then 16
                                 else if (length (Buffer_from key) <=? 24)%nat then 24
                                      else 32))).
  { destruct (_ <=? 16)%nat; [reflexivity|]. destruct (_ <=? 24)%nat; reflexivity. }
  rewrite K, adjusted_key_window
    by (destruct (_ <=? 16)%nat; [|destruct (_ <=? 24)%nat]; lia).
  fold (key_window key).
  pose proof (decoder_whole (cipher_update (key_window key) (Buffer_from plaintext))
                (cipher_final (key_window key) (Buffer_from plaintext))) as D.
  destruct (decoder_write _) as [enc kept]. cbn [fst snd] in D.
  now rewrite D, update_final_ecb.
Qed.

Lemma url_safe_alphabet s c :
  In c (url_safe s) ->
  Ascii.eqb c "+" = false /\ Ascii.eqb c "/" = false /\ Ascii.eqb c "=" = false.
Proof.
  unfold url_safe. intros H. apply filter_In in H as [H E].
  apply negb_true_iff in E.
  apply in_map_iff in H as (c1 & <- & H). apply in_map_iff in H as (c0 & <- & H).
  repeat split; try exact E.
  - destruct (Ascii.eqb_spec c0 "+") as [->|N1]; [reflexivity|].
    destruct (Ascii.eqb_spec c0 "/") as [->|N2]; [reflexivity|].
    now apply Ascii.eqb_neq.
  - destruct (Ascii.eqb_spec c0 "+") as [->|N1]; [reflexivity|].
    destruct (Ascii.eqb_spec c0 "/") as [->|N2]; [reflexivity|].
    now apply Ascii.eqb_neq.
Qed.

(** *** The text and the key *)

Lemma get_In n s c : String.get n s = Some c -> In c (list_ascii_of_string s).
Proof.
  revert n. induction s as [|a s IH]; intros [|n]; simpl; try discriminate.
  - intros H; inversion H; auto.
  - intros H. right. eauto.
Qed.

Lemma b64_alphabet n :
  In (b64 n) (list_ascii_of_string base64_alphabet) \/ b64 n = "="%char.
Proof.
  unfold b64. destruct (String.get (Z.to_nat n) base64_alphabet) as [c|] eqn:E; [|now right].
  left. eapply get_In, E.
Qed.

Lemma base64_chars_bounded n : forall data, (length data <= n)%nat ->
  forall c, In c (base64 data) ->
    In c (list_ascii_of_string base64_alphabet) \/ c = "="%char.
Proof.
  induction n as [|n IH]; intros data L c H.
  - destruct data; [destruct H|simpl in L; lia].
  - destruct data as [|a [|b [|d r]]].
    + destruct H.
    + cbn [base64] in H. destruct H as [<-|[<-|[<-|[<-|[]]]]];
        try apply b64_alphabet; now right.
    + cbn [base64] in H. destruct H as [<-|[<-|[<-|[<-|[]]]]];
        try apply b64_alphabet; now right.
    + cbn [base64 app] in H. destruct H as [<-|[<-|[<-|[<-|H]]]];
        try apply b64_alphabet.
      apply (IH r); [simpl in L; lia|exact H].
Qed.

Lemma base64_chars data c :
  In c (base64 data) -> In c (list_ascii_of_string base64_alphabet) \/ c = "="%char.
Proof. apply (base64_chars_bounded (length data)). lia. Qed.

Lemma url_safe_chars s c :
  (forall x, In x s -> In x (list_ascii_of_string base64_alphabet) \/ x = "="%char) ->
  In c (url_safe s) -> In c (list_ascii_of_string url_alphabet).
Proof.
  intros Hs H. unfold url_safe in H. apply filter_In in H as [H E].
  apply in_map_iff in H as (c1 & <- & H). apply in_map_iff in H as (c0 & <- & H).
  destruct (Hs c0 H) as [A| ->]; [|discriminate E].
  clear - A. cbn in A.
  repeat (destruct A as [<-|A]; [cbn; tauto|]). destruct A.
Qed.

(** X11: the text that [aesEcbEncrypt] returns is URL-safe: each of its
    characters is a letter, a digit, [-] or [_]; it has no [+], no [/]
    and no padding character. *)
Theorem aesEcbEncrypt_url_safe key plaintext c :
  In c (list_ascii_of_string (RedoteCrypto.aesEcbEncrypt key plaintext)) ->
  In c (list_ascii_of_string url_alphabet).
Proof.
  unfold RedoteCrypto.aesEcbEncrypt.
  destruct (decoder_write _) as [enc kept] eqn:D.
  rewrite list_ascii_of_string_of_list_ascii. apply url_safe_chars.
  intros x Hx. apply in_app_or in Hx as [Hx|Hx].
  - unfold decoder_write in D. inversion D; subst enc. now apply base64_chars in Hx.
  - unfold decoder_end in Hx. now apply base64_chars in Hx.
Qed.

Lemma aesEcbEncrypt_url_safe_witness :
  In "-"%char (list_ascii_of_string (RedoteCrypto.aesEcbEncrypt "0123456789abcdef" "hello"))
  /\ In "-"%char (list_ascii_of_string url_alphabet).
Proof.
  assert (H : In "-"%char
                (list_ascii_of_string (RedoteCrypto.aesEcbEncrypt "0123456789abcdef" "hello"))).
  { vm_compute. tauto. }
  split; [exact H|].
  exact (aesEcbEncrypt_url_safe "0123456789abcdef" "hello" "-" H).
Defined.

Lemma Buffer_from_app a b : Buffer_from (a ++ b) = (Buffer_from a ++ Buffer_from b)%list.
Proof.
  unfold Buffer_from. rewrite <- map_app. f_equal.
  induction a as [|c a IH]; [reflexivity|]. simpl. now rewrite IH.
Qed.

Lemma Buffer_from_length a : length (Buffer_from a) = String.length a.
Proof.
  unfold Buffer_from. rewrite length_map.
  induction a as [|c a IH]; [reflexivity|]. simpl. now rewrite IH.
Qed.

Lemma window_zero (k : list Z) :
  (length k < 16)%nat ->
  firstn 16 ((k ++ [0]) ++ repeat 0 16) = firstn 16 (k ++ repeat 0 16).
Proof.
  intros H. rewrite <- app_assoc. change ([0] ++ repeat 0 16)%list with (repeat 0 17).
  rewrite !firstn_app, !firstn_repeat. f_equal. rewrite !Nat.min_l by lia. reflexivity.
Qed.

Lemma window_cut (k extra : list Z) :
  length k = 16%nat ->
  firstn 16 ((k ++ extra) ++ repeat 0 16) = firstn 16 (k ++ repeat 0 16).
Proof.
  intros H. rewrite <- app_assoc, !firstn_app, H.
  replace (16 - 16)%nat with 0%nat by lia. now rewrite !firstn_O.
Qed.

(** X12: [aesEcbEncrypt] uses the first 16 bytes of the key only.  What
    follows the sixteenth byte of a key is ignored, and a key of fewer
    than 16 bytes gives the same text as the key followed by a zero
    byte. *)
Theorem aesEcbEncrypt_key_window key extra plaintext :
  (String.length key = 16%nat ->
   RedoteCrypto.aesEcbEncrypt (key ++ extra) plaintext
   = RedoteCrypto.aesEcbEncrypt key plaintext)
  /\ ((String.length key < 16)%nat ->
      RedoteCrypto.aesEcbEncrypt (key ++ String Ascii.zero EmptyString) plaintext
      = RedoteCrypto.aesEcbEncrypt key plaintext).
Proof.
  split; intros H; rewrite !aesEcbEncrypt_vendor; unfold vendor_encrypt.
  - assert (K : key_window (key ++ extra) = key_window key).
    { unfold key_window. rewrite Buffer_from_app. apply window_cut.
      now rewrite Buffer_from_length. }
    now rewrite K.
  - assert (K : key_window (key ++ String Ascii.zero EmptyString) = key_window key).
    { unfold key_window. rewrite Buffer_from_app. apply window_zero.
      now rewrite Buffer_from_length. }
    now rewrite K.
Qed.

End CryptoFacts.

(** ** The envelope codec *)

Module WireFacts.
Import Json JsonFacts.

Lemma of_json_to_json m : WebSocketMessage.of_json (WebSocketMessage.to_json m) = Some m.
Proof.
  destruct m as [[a|] [b|] [c|] [d|] [e|] [f|] [g|] [h|] [i|]]; reflexivity.
Qed.

Lemma typed_field {A} k (conv : json -> option A) l x :
  WebSocketMessage.field k conv l = Some x -> WebSocketMessage.typed k conv l = x.
Proof.
  unfold WebSocketMessage.field, WebSocketMessage.typed.
  destruct (lookup_prop k l) as [v|]; [destruct (conv v)|]; intros H; inversion H; reflexivity.
Qed.

(** On a frame of the declared shape the two readings agree *)
Lemma read_as_of_json v m :
  WebSocketMessage.of_json v = Some m -> WebSocketMessage.read_as v = m.
Proof.
  destruct v as [| | | | |l]; try discriminate. unfold WebSocketMessage.of_json.
  destruct (WebSocketMessage.field "type" _ l) as [a|] eqn:Ea; [|discriminate].
  destruct (WebSocketMessage.field "seq" _ l) as [b|] eqn:Eb; [|discriminate].
  destruct (WebSocketMessage.field "ack" _ l) as [c|] eqn:Ec; [|discriminate].
  destruct (WebSocketMessage.field "token" _ l) as [d|] eqn:Ed; [|discriminate].
  destruct (WebSocketMessage.field "appId" _ l) as [e|] eqn:Ee; [|discriminate].
  destruct (WebSocketMessage.field "topic" _ l) as [f|] eqn:Ef; [|discriminate].
  destruct (WebSocketMessage.field "encrypt" _ l) as [g|] eqn:Eg; [|discriminate].
  destruct (WebSocketMessage.field "secureKey" _ l) as [h|] eqn:Eh; [|discriminate].
  destruct (WebSocketMessage.field "data" Some l) as [i|] eqn:Ei; [|discriminate].
  intros H; inversion H; subst. cbn [WebSocketMessage.read_as].
  rewrite (typed_field _ _ _ _ Ea), (typed_field _ _ _ _ Eb), (typed_field _ _ _ _ Ec),
    (typed_field _ _ _ _ Ed), (typed_field _ _ _ _ Ee), (typed_field _ _ _ _ Ef),
    (typed_field _ _ _ _ Eg), (typed_field _ _ _ _ Eh).
  apply typed_field in Ei. unfold WebSocketMessage.typed in Ei.
  destruct (lookup_prop "data" l); now subst.
Qed.

Lemma wf_to_json m : wf (WebSocketMessage.to_json m) = WebSocketMessage.wf_message m.
Proof.
  destruct m as [[a|] [b|] [c|] [d|] [e|] [f|] [g|] [h|] [i|]];
    unfold WebSocketMessage.wf_message; cbn; rewrite ?andb_true_r; reflexivity.
Qed.

Theorem decode_encode m :
  WebSocketMessage.wf_message m = true -> WebSocketMessage.decode (WebSocketMessage.encode m) = Some m.
Proof.
  intros H. unfold WebSocketMessage.decode, WebSocketMessage.encode.
  rewrite parse_stringify by (now rewrite wf_to_json).
  apply of_json_to_json.
Qed.

Lemma lookup_prop_wf k l v :
  forallb (fun kv => wf (snd kv)) l = true -> lookup_prop k l = Some v -> wf v = true.
Proof.
  induction l as [|[k' v'] l IH]; simpl; [discriminate|].
  intros F H. apply andb_prop in F as [F1 F2].
  destruct (String.eqb k k'); [now inversion H; subst|auto].
Qed.

(** What the inbound path returns is well formed *)
Lemma decode_wf frame m :
  WebSocketMessage.decode frame = Some m -> WebSocketMessage.wf_message m = true.
Proof.
  unfold WebSocketMessage.decode. intros H.
  destruct (parse frame) as [v|] eqn:P; [|discriminate].
  apply parse_wf in P. destruct v as [| | | | |l]; try discriminate H.
  simpl in P. apply andb_prop in P as [_ F].
  unfold WebSocketMessage.of_json in H.
  destruct (WebSocketMessage.field "type" _ l) as [a|]; [|discriminate].
  destruct (WebSocketMessage.field "seq" _ l) as [b|]; [|discriminate].
  destruct (WebSocketMessage.field "ack" _ l) as [c|]; [|discriminate].
  destruct (WebSocketMessage.field "token" _ l) as [d|]; [|discriminate].
  destruct (WebSocketMessage.field "appId" _ l) as [e|]; [|discriminate].
  destruct (WebSocketMessage.field "topic" _ l) as [f|]; [|discriminate].
  destruct (WebSocketMessage.field "encrypt" _ l) as [g|]; [|discriminate].
  destruct (WebSocketMessage.field "secureKey" _ l) as [h|]; [|discriminate].
  destruct (WebSocketMessage.field "data" Some l) as [i|] eqn:D; [|discriminate].
  inversion H; subst. unfold WebSocketMessage.wf_message. cbn.
  destruct i as [j|]; [|reflexivity].
  unfold WebSocketMessage.field in D.
  destruct (lookup_prop "data" l) as [x|] eqn:L; [|discriminate].
  inversion D; subst. apply (lookup_prop_wf _ _ _ F L).
Qed.

End WireFacts.

(** ** The client *)

Module ClientFacts.
Import Json Client.
Local Open Scope string_scope.
Local Open Scope Z_scope.
Local Open Scope machine_scope.

Lemma produced_app s s' l :
  trace (rt s') = (trace (rt s) ++ l)%list -> produced s s' = l.
Proof. unfold produced. intros ->. apply drop_app_length. Qed.

Lemma produced_refl s : produced s s = [].
Proof. apply produced_app. now rewrite app_nil_r. Qed.

Lemma send_open s ws data ty :
  open_socket s = Some ws ->
  WebSocketMessage.type data = Some ty ->
  send data s = (Ret tt, after_send ws data s).
Proof.
  unfold open_socket, send. intros Hws Hty.
  destruct (websocket (this s)) as [w|]; [|discriminate].
  destruct (is_OPEN (readyState_of (rt s) w)); [|discriminate].
  inversion Hws; subst w. rewrite Hty.
  unfold after_send, sent_now, stamped, WebSocketMessage.encode. rewrite Hty.
  unfold bind, update, ws_send, log, note, runtime.
  cbn [this rt trace clock set_trace set_seq is_OPEN sockets timers next].
  rewrite <- app_assoc. reflexivity.
Qed.

Lemma send_closed s data :
  open_socket s = None -> send data s = (Throw not_connected, s).
Proof.
  unfold open_socket, send. intros H.
  destruct (websocket (this s)) as [w|]; [|reflexivity].
  destruct (is_OPEN (readyState_of (rt s) w)); [discriminate|reflexivity].
Qed.

Lemma send_untyped s data :
  WebSocketMessage.type data = None -> exists e, send data s = (Throw e, s).
Proof.
  unfold send. intros ->.
  destruct (websocket (this s)) as [w|]; [|eauto].
  destruct (is_OPEN (readyState_of (rt s) w)); eauto.
Qed.

Lemma send_throw_inv s data e s' :
  send data s = (Throw e, s') ->
  s' = s /\ (open_socket s = None \/ WebSocketMessage.type data = None).
Proof.
  destruct (open_socket s) as [ws|] eqn:Ho.
  - destruct (WebSocketMessage.type data) as [ty|] eqn:Ht.
    + rewrite (send_open _ _ _ _ Ho Ht). discriminate.
    + destruct (send_untyped s data Ht) as [e' ->]. intros H; inversion H; auto.
  - rewrite (send_closed _ _ Ho). intros H; inversion H; auto.
Qed.

Lemma produced_after_send s ws data :
  produced s (after_send ws data s) = sent_now s ws data.
Proof. now apply produced_app. Qed.

Lemma handle_push_open s ws m :
  WebSocketMessage.type m = Some 2 ->
  open_socket s = Some ws ->
  exists s', handleMessage m s = (Ret tt, s')
    /\ produced s s' = (sent_now s ws (ack_of (WebSocketMessage.seq m)) ++ forwarded s m)%list
    /\ seq (this s') = seq (this s) + 1.
Proof.
  intros Ht Ho. unfold handleMessage. rewrite Ht. unfold bind.
  fold (ack_of (WebSocketMessage.seq m)).
  rewrite (send_open s ws (ack_of (WebSocketMessage.seq m)) 130 Ho eq_refl).
  unfold forwarded. destruct (is_push m).
  - eexists. split; [reflexivity|]. split; [|reflexivity].
    apply produced_app. cbn. now rewrite <- app_assoc.
  - eexists. split; [reflexivity|]. split; [|reflexivity].
    rewrite app_nil_r. apply produced_after_send.
Qed.

Lemma handle_push_closed s m :
  WebSocketMessage.type m = Some 2 ->
  open_socket s = None ->
  handleMessage m s = (Throw not_connected, s).
Proof.
  intros Ht Ho. unfold handleMessage. rewrite Ht. unfold bind.
  fold (ack_of (WebSocketMessage.seq m)). now rewrite send_closed.
Qed.

Lemma evolves_refl a s : evolves a s s.
Proof.
  split; auto. exists []. split; [now rewrite app_nil_r|]. intros t [].
Qed.

Lemma evolves_trans a s1 s2 s3 : evolves a s1 s2 -> evolves a s2 s3 -> evolves a s1 s3.
Proof.
  intros [c1 k1 f1 t1 (a1 & e1 & i1)] [c2 k2 f2 t2 (a2 & e2 & i2)]. split.
  - congruence.
  - congruence.
  - auto.
  - intros h t H. destruct (t2 h t H) as [H'|[H'|(H1 & H2 & H3)]]; auto.
    right. right. rewrite c1, k1 in H2. auto.
  - exists (a1 ++ a2)%list. split; [rewrite e2, e1; now rewrite app_assoc|].
    intros t Hin. apply in_app_or in Hin as [Hin|Hin]; auto.
    destruct (i2 t Hin) as [? ?]. split; congruence.
Qed.

Lemma tame_ret a {A} (x : A) : tame a (ret x).
Proof. intros s. apply evolves_refl. Qed.

Lemma tame_throw a {A} e : tame a (@throw A e).
Proof. intros s. apply evolves_refl. Qed.

Lemma tame_bind a {A B} (c : M A) (k : A -> M B) :
  tame a c -> (forall x, tame a (k x)) -> tame a (bind c k).
Proof.
  intros Hc Hk s. unfold bind. specialize (Hc s).
  destruct (c s) as [[x|e] s1]; simpl in *; [|exact Hc].
  eapply evolves_trans; [exact Hc|apply Hk].
Qed.

Lemma tame_try_catch a {A} (c : M A) (h : error -> M A) :
  tame a c -> (forall e, tame a (h e)) -> tame a (try_catch c h).
Proof.
  intros Hc Hh s. unfold try_catch. specialize (Hc s).
  destruct (c s) as [[x|e] s1]; simpl in *; [exact Hc|].
  eapply evolves_trans; [exact Hc|apply Hh].
Qed.

Lemma tame_self a : tame a self.
Proof. intros s. apply evolves_refl. Qed.

Lemma tame_note a e : (e = Invoked_connect true -> a = true) -> tame a (note e).
Proof.
  intros He s. split; auto. exists [(clock (rt s), e)]. split; [reflexivity|].
  intros t [H|[]]. inversion H; subst. auto.
Qed.

Lemma tame_log a l w : tame a (log l w).
Proof. apply tame_note. discriminate. Qed.

Lemma tame_emit a n : tame a (emit n).
Proof. apply tame_note. discriminate. Qed.

Lemma tame_update a f :
  (forall c, config (f c) = config c) ->
  (forall c, shouldReconnect (f c) = true -> shouldReconnect c = true) ->
  tame a (update f).
Proof.
  intros H1 H2 s. split; simpl; auto. exists []. split; [now rewrite app_nil_r|]. intros t [].
Qed.

Lemma tame_spawn a c : tame a c -> tame a (spawn c).
Proof. intros H. apply tame_try_catch; [exact H|]. intros e. apply tame_note. discriminate. Qed.

Lemma tame_clearTimeout a h : tame a (clearTimeout h).
Proof.
  intros s. split; simpl; auto.
  - intros h' t H. apply lookup_delete_Some in H as [_ H]. auto.
  - exists []. split; [now rewrite app_nil_r|]. intros t [].
Qed.

Lemma tame_sockets a (f : Runtime -> gmap nat socket) :
  tame a (runtime (fun r => set_sockets (f r) r)).
Proof.
  intros s. split; simpl; auto. exists []. split; [now rewrite app_nil_r|]. intros t [].
Qed.

Lemma tame_ws_close a ws : tame a (ws_close ws).
Proof.
  intros s. unfold ws_close, runtime. simpl.
  destruct (sockets (rt s) !! ws) as [sk|]; [destruct (state sk)|];
    split; simpl; auto; exists []; (split; [now rewrite app_nil_r|]); intros t [].
Qed.

Lemma tame_new_WebSocket a : tame a new_WebSocket.
Proof.
  intros s. split; simpl; auto. exists []. split; [now rewrite app_nil_r|]. intros t [].
Qed.

Lemma tame_heartbeat_timer a d : tame a (setTimeout heartbeat_callback d).
Proof.
  intros s. split; simpl; auto.
  - intros h t H. apply lookup_insert_Some in H as [[_ <-]|[_ H]]; auto.
  - exists []. split; [now rewrite app_nil_r|]. intros t [].
Qed.

Ltac tame_step :=
  lazymatch goal with
  | |- tame _ (bind _ _) => apply tame_bind; [|intros ?]
  | |- tame _ (try_catch _ _) => apply tame_try_catch; [|intros ?]
  | |- tame _ (spawn _) => apply tame_spawn
  | |- tame _ (ret _) => apply tame_ret
  | |- tame _ (throw _) => apply tame_throw
  | |- tame _ self => apply tame_self
  | |- tame _ (log _ _) => apply tame_log
  | |- tame _ (emit _) => apply tame_emit
  | |- tame _ (clearTimeout _) => apply tame_clearTimeout
  | |- tame _ (ws_close _) => apply tame_ws_close
  | |- tame _ new_WebSocket => apply tame_new_WebSocket
  | |- tame _ (setTimeout heartbeat_callback _) => apply tame_heartbeat_timer
  | |- tame _ (update _) =>
      apply tame_update; [intros ?; reflexivity | intros ?; simpl; congruence]
  end.

Lemma tame_ws_send a ws txt : tame a (ws_send ws txt).
Proof. apply tame_note. discriminate. Qed.

Lemma tame_send a data : tame a (send data).
Proof.
  intros s. unfold send.
  destruct (websocket (this s)) as [ws|]; [|apply evolves_refl].
  destruct (is_OPEN _); [|apply evolves_refl].
  destruct (WebSocketMessage.type data); [|apply evolves_refl].
  cbv zeta. generalize (seq (this s) + 1). intros n.
  revert s. fold (tame a (update (set_seq n) ;; ws_send ws
     (Json.stringify (WebSocketMessage.to_json
        (WebSocketMessage.mk (Some z) (Some n) (WebSocketMessage.ack data)
           (WebSocketMessage.token data) (WebSocketMessage.appId data)
           (WebSocketMessage.topic data) (WebSocketMessage.encrypt data)
           (WebSocketMessage.secureKey data) (WebSocketMessage.data data)))) ;;
     log Debug "> Sent:")).
  repeat tame_step. apply tame_ws_send.
Qed.

Lemma tame_clearHeartbeat a : tame a clearHeartbeat.
Proof.
  unfold clearHeartbeat. tame_step; [tame_step|].
  destruct (heartbeatTimer x); repeat tame_step.
Qed.

Lemma tame_startHeartbeat a d : tame a (startHeartbeat d).
Proof. unfold startHeartbeat. repeat tame_step. apply tame_clearHeartbeat. Qed.

Lemma tame_heartbeat a : tame a heartbeat.
Proof. unfold heartbeat. repeat tame_step. apply tame_send. Qed.

Lemma tame_schedule_if a :
  tame a (let* c := self in if shouldReconnect c then scheduleReconnect else ret tt).
Proof.
  intros s. unfold bind, self, scheduleReconnect, ret. simpl.
  destruct (shouldReconnect (this s)) eqn:E; [|apply evolves_refl].
  unfold bind, self. simpl.
  destruct (reconnectTimer (this s)); [apply evolves_refl|].
  split; simpl; auto.
  - intros h t H. apply lookup_insert_Some in H as [[_ <-]|[_ H]]; auto.
  - exists []. split; [now rewrite app_nil_r|]. intros t [].
Qed.

Lemma tame_cleanup a : tame a cleanup.
Proof. unfold cleanup. repeat tame_step. apply tame_clearHeartbeat. Qed.

Lemma tame_connect a : tame a (connect a).
Proof.
  unfold connect. tame_step.
  - apply tame_note. intros H. inversion H. reflexivity.
  - intros s. destruct (_ || _); [apply evolves_refl|].
    revert s. fold (tame a (update (set_isConnecting true) ;; emit reconnecting ;;
                            let* ws := new_WebSocket in update (set_websocket (Some ws)))).
    repeat tame_step.
Qed.

Lemma tame_connect_catch a e : tame a (connect_catch e).
Proof.
  unfold connect_catch. do 3 (tame_step; [tame_step|]). apply tame_schedule_if.
Qed.

Lemma tame_reconnect : tame true reconnect.
Proof. unfold reconnect. repeat tame_step. apply tame_connect. Qed.

Lemma tame_disconnect a : tame a disconnect.
Proof.
  unfold disconnect. tame_step; [tame_step|]. tame_step.
  { tame_step; [tame_step|]. destruct (reconnectTimer x0); repeat tame_step. }
  tame_step; [apply tame_clearHeartbeat|]. tame_step; [tame_step|].
  destruct (websocket x2); repeat tame_step.
Qed.

Lemma tame_handleMessage a m : tame a (handleMessage m).
Proof.
  unfold handleMessage.
  repeat first
    [ tame_step
    | apply tame_send
    | apply tame_startHeartbeat
    | match goal with
      | |- tame _ (match ?x with _ => _ end) => destruct x
      end ].
Qed.

Lemma tame_open_listener a : tame a open_listener.
Proof.
  unfold open_listener, sendAuthMessage. repeat tame_step. apply tame_send.
Qed.

Lemma tame_close_listener a : tame a close_listener.
Proof.
  unfold close_listener. do 2 (tame_step; [tame_step|]).
  tame_step; [apply tame_cleanup|]. apply tame_schedule_if.
Qed.

Lemma tame_error_listeners a ws e : tame a (error_listeners ws e).
Proof.
  unfold error_listeners. do 2 (tame_step; [tame_step|]).
  intros s. destruct (sockets (rt s) !! ws) as [sk|]; [|apply evolves_refl].
  destruct (once_error sk); [|apply evolves_refl].
  revert s.
  fold (tame a (runtime (fun r =>
               set_sockets (<[ws := {| state := state sk; opened := opened sk;
                                       once_error := false |}]> (sockets r)) r) ;;
             update (set_isConnecting false) ;;
             if opened sk then ret tt else connect_catch e)).
  tame_step; [apply tame_sockets|]. tame_step; [tame_step|].
  destruct (opened sk); [tame_step|apply tame_connect_catch].
Qed.

(** What the ['message'] listener runs: the entry of the log for a frame
    that is not JSON; otherwise the entry of the log, and [handleMessage],
    which throws at once on [null]. *)
Lemma message_listener_inv data c :
  message_listener data = Some c ->
  (Json.parse data = None /\ c = log Err "Failed to parse message:")
  \/ (exists h, Json.parse data <> None
               /\ c = (log Debug "< Received:" ;; spawn h)
               /\ (h = throw TypeError \/ exists m, h = handleMessage m)).
Proof.
  unfold message_listener. destruct (Json.parse data) as [v|].
  - intros H. right.
    destruct v; try (destruct (misread _); [discriminate|]);
      inversion H; subst; eexists; (split; [discriminate|]);
      (split; [reflexivity|]); eauto.
  - intros H; inversion H; subst. left. auto.
Qed.

Lemma misread_of_json v m : WebSocketMessage.of_json v = Some m -> misread v = false.
Proof.
  destruct v as [| | | | |l]; try discriminate. intros H. unfold misread. rewrite H.
  destruct (WebSocketMessage.typed "type" _ l) as [z|]; [|reflexivity].
  assert (K : match lookup_prop "secureKey" l with
              | Some (JArr _) | Some (JObj _) => true
              | _ => false
              end = false).
  { unfold WebSocketMessage.of_json in H.
    destruct (WebSocketMessage.field "type" _ l); [|discriminate].
    destruct (WebSocketMessage.field "seq" _ l); [|discriminate].
    destruct (WebSocketMessage.field "ack" _ l); [|discriminate].
    destruct (WebSocketMessage.field "token" _ l); [|discriminate].
    destruct (WebSocketMessage.field "appId" _ l); [|discriminate].
    destruct (WebSocketMessage.field "topic" _ l); [|discriminate].
    destruct (WebSocketMessage.field "encrypt" _ l); [|discriminate].
    destruct (WebSocketMessage.field "secureKey" _ l) as [h|] eqn:E; [|discriminate].
    unfold WebSocketMessage.field in E.
    destruct (lookup_prop "secureKey" l) as [[]|]; try reflexivity; discriminate E. }
  destruct z as [|p|p]; try reflexivity.
  repeat (destruct p as [p|p|]; try reflexivity); exact K.
Qed.

(** A frame of the declared shape is handled as the envelope it decodes
    to *)
Lemma message_listener_decoded data m :
  WebSocketMessage.decode data = Some m ->
  message_listener data = Some (log Debug "< Received:" ;; spawn (handleMessage m)).
Proof.
  unfold WebSocketMessage.decode, message_listener.
  destruct (Json.parse data) as [v|]; [|discriminate]. intros H.
  rewrite (misread_of_json v m H), (WireFacts.read_as_of_json v m H).
  destruct v; try discriminate H. reflexivity.
Qed.

Lemma tame_message_listener a data c :
  message_listener data = Some c -> tame a c.
Proof.
  intros H. destruct (message_listener_inv data c H) as [[_ ->]|(h & _ & -> & [->|[m ->]])];
    repeat tame_step. apply tame_handleMessage.
Qed.

Lemma tame_fire cb : tame true (fire cb).
Proof. destruct cb; [apply tame_heartbeat|apply tame_reconnect]. Qed.

Lemma evolves_false_advances ev s s' :
  evolves false s s' -> advances ev s s'.
Proof.
  intros [c k f t (a & e & i)]. split; auto; [lia|].
  exists a. split; [exact e|]. intros x Hx. destruct (i x Hx) as [? _]. discriminate.
Qed.

Lemma exec_tame a c s : tame a c -> evolves a s (exec c s).
Proof. intros H. unfold exec. apply tame_spawn. exact H. Qed.

Lemma advances_put_socket ev ws sk s s' :
  advances ev (put_socket ws sk s) s' -> advances ev s s'.
Proof. intros [c k f t a]. split; auto. Qed.

Lemma step_advances ev s s' : step ev s = Some s' -> advances ev s s'.
Proof.
  destruct ev as [| | ws | ws data | ws e | ws | h | dt]; simpl.
  - intros H; inversion H; subst. apply evolves_false_advances, exec_tame, tame_connect.
  - intros H; inversion H; subst. apply evolves_false_advances, exec_tame, tame_disconnect.
  - destruct (sockets (rt s) !! ws) as [sk|]; [|discriminate].
    destruct (state sk); try discriminate. intros H; inversion H; subst.
    eapply advances_put_socket, evolves_false_advances, exec_tame, tame_open_listener.
  - destruct (readyState_of (rt s) ws) as [[]|]; try discriminate;
      (destruct (message_listener data) as [c|] eqn:E; [|discriminate];
       intros H; inversion H; subst;
       eapply evolves_false_advances, exec_tame, tame_message_listener; exact E).
  - destruct (sockets (rt s) !! ws) as [sk|]; [|discriminate].
    destruct (state sk); try discriminate; intros H; inversion H; subst;
      eapply advances_put_socket, evolves_false_advances, exec_tame, tame_error_listeners.
  - destruct (sockets (rt s) !! ws) as [sk|]; [|discriminate].
    destruct (state sk); try discriminate; intros H; inversion H; subst;
      eapply advances_put_socket, evolves_false_advances, exec_tame, tame_close_listener.
  - destruct (timers (rt s) !! h) as [tm|] eqn:Et; [|discriminate].
    destruct (due tm <=? clock (rt s)) eqn:Ed; [|discriminate].
    apply Z.leb_le in Ed. intros H; inversion H; subst. clear H.
    set (s0 := {| this := this s; rt := set_timers (delete h (timers (rt s))) (rt s) |}).
    destruct (run tm) eqn:Er.
    + assert (A : advances (Fire h) s0 (exec (fire heartbeat_callback) s0)).
      { apply evolves_false_advances, exec_tame, tame_heartbeat. }
      destruct A as [c k f t a]. split.
      * exact c.
      * exact k.
      * exact f.
      * intros h' t' H'. destruct (t h' t' H') as [H1|H1]; auto.
        simpl in H1. apply lookup_delete_Some in H1 as [_ H1]. auto.
      * destruct a as (a & e & i). exists a. split; [exact e|].
        intros x Hx. destruct (i x Hx) as [_ (h0 & tm0 & E0 & L0 & R0 & _)].
        inversion E0; subst h0. simpl in L0. apply lookup_delete_Some in L0 as [? _].
        congruence.
    + pose proof (exec_tame true (fire reconnect_callback) s0 (tame_fire _)) as
        [c k f t (a & e & i)].
      split.
      * exact c.
      * rewrite k. apply Z.le_refl.
      * exact f.
      * intros h' t' H'. destruct (t h' t' H') as [H1|H1]; auto.
        simpl in H1. apply lookup_delete_Some in H1 as [_ H1]. auto.
      * exists a. split; [exact e|]. intros x Hx. destruct (i x Hx) as [_ ->].
        split; [reflexivity|]. exists h, tm. auto.
  - destruct (0 <=? dt) eqn:E; [|discriminate]. apply Z.leb_le in E.
    intros H; inversion H; subst. split; simpl; auto; [lia|].
    exists []. split; [now rewrite app_nil_r|]. intros t [].
Qed.

Lemma keeps_ret {A} (x : A) : keeps (ret x).
Proof. intros s H. exact H. Qed.

Lemma keeps_throw {A} e : keeps (@throw A e).
Proof. intros s H. exact H. Qed.

Lemma keeps_self : keeps self.
Proof. intros s H. exact H. Qed.

Lemma keeps_bind {A B} (c : M A) (k : A -> M B) :
  keeps c -> (forall x, keeps (k x)) -> keeps (bind c k).
Proof.
  intros Hc Hk s Hs. unfold bind. specialize (Hc s Hs).
  destruct (c s) as [[x|e] s1]; simpl in *; [|exact Hc]. now apply Hk.
Qed.

Lemma keeps_try_catch {A} (c : M A) (h : error -> M A) :
  keeps c -> (forall e, keeps (h e)) -> keeps (try_catch c h).
Proof.
  intros Hc Hh s Hs. unfold try_catch. specialize (Hc s Hs).
  destruct (c s) as [[x|e] s1]; simpl in *; [exact Hc|]. now apply Hh.
Qed.

Lemma keeps_note e : keeps (note e).
Proof. intros s [f h r]. split; simpl; auto. Qed.

Lemma keeps_spawn c : keeps c -> keeps (spawn c).
Proof. intros H. apply keeps_try_catch; [exact H|]. intros e. apply keeps_note. Qed.

Lemma keeps_update f :
  (forall c, heartbeatTimer (f c) = heartbeatTimer c) ->
  (forall c, reconnectTimer (f c) = reconnectTimer c) ->
  keeps (update f).
Proof.
  intros H1 H2 s [f' h r]. split; simpl; auto.
  - intros. rewrite H1. eauto.
  - intros. rewrite H2. eauto.
Qed.

Lemma keeps_sockets (f : Runtime -> gmap nat socket) :
  keeps (runtime (fun r => set_sockets (f r) r)).
Proof. intros s [f' h r]. split; simpl; auto. Qed.

Lemma keeps_ws_close ws : keeps (ws_close ws).
Proof.
  intros s Hs. unfold ws_close, runtime. simpl.
  destruct (sockets (rt s) !! ws) as [sk|]; [destruct (state sk)|];
    try exact Hs; destruct Hs as [f' h r]; split; simpl; auto.
Qed.

Lemma keeps_new_WebSocket : keeps new_WebSocket.
Proof.
  intros s [f h r]. split; simpl; auto. intros h' t H. apply f in H. lia.
Qed.

Lemma keeps_send data : keeps (send data).
Proof.
  intros s Hs. unfold send.
  destruct (websocket (this s)) as [ws|]; [|exact Hs].
  destruct (is_OPEN _); [|exact Hs].
  destruct (WebSocketMessage.type data); [|exact Hs].
  destruct Hs as [f h r]. split; simpl; auto.
Qed.

Lemma keeps_clearHeartbeat : keeps clearHeartbeat.
Proof.
  intros s Hs. unfold clearHeartbeat, bind, self. simpl.
  destruct (heartbeatTimer (this s)) as [hb|] eqn:E; [|exact Hs].
  destruct Hs as [f h r]. split; simpl.
  - intros h' t H. apply lookup_delete_Some in H as [_ H]. eauto.
  - intros h' t H R. apply lookup_delete_Some in H as [Hne H].
    specialize (h _ _ H R). congruence.
  - intros h' t H R. apply lookup_delete_Some in H as [_ H]. eauto.
Qed.

Lemma keeps_startHeartbeat d : keeps (startHeartbeat d).
Proof.
  intros s [f h r]. unfold startHeartbeat, clearHeartbeat, bind, self. simpl.
  destruct (heartbeatTimer (this s)) as [hb|] eqn:E; simpl; split; simpl.
  - intros h' t H. apply lookup_insert_Some in H as [[<- _]|[_ H]]; [lia|].
    apply lookup_delete_Some in H as [_ H]. apply f in H. lia.
  - intros h' t H R. apply lookup_insert_Some in H as [[<- _]|[_ H]]; [reflexivity|].
    apply lookup_delete_Some in H as [Hne H]. specialize (h _ _ H R). congruence.
  - intros h' t H R. apply lookup_insert_Some in H as [[_ <-]|[_ H]]; [discriminate|].
    apply lookup_delete_Some in H as [_ H]. eauto.
  - intros h' t H. apply lookup_insert_Some in H as [[<- _]|[_ H]]; [lia|].
    apply f in H. lia.
  - intros h' t H R. apply lookup_insert_Some in H as [[<- _]|[_ H]]; [reflexivity|].
    specialize (h _ _ H R). congruence.
  - intros h' t H R. apply lookup_insert_Some in H as [[_ <-]|[_ H]]; [discriminate|].
    eauto.
Qed.

Lemma keeps_scheduleReconnect : keeps scheduleReconnect.
Proof.
  intros s Hs. unfold scheduleReconnect, bind, self. simpl.
  destruct (reconnectTimer (this s)) as [rc|] eqn:E; simpl; [exact Hs|].
  destruct Hs as [f h r]. split; simpl.
  - intros h' t H. apply lookup_insert_Some in H as [[<- _]|[_ H]]; [lia|].
    apply f in H. lia.
  - intros h' t H R. apply lookup_insert_Some in H as [[_ <-]|[_ H]]; [discriminate|].
    eauto.
  - intros h' t H R. apply lookup_insert_Some in H as [[<- _]|[_ H]]; [reflexivity|].
    specialize (r _ _ H R). congruence.
Qed.

(** [if (this.reconnectTimer) { clearTimeout(...); this.reconnectTimer = null }] *)
Lemma keeps_clear_reconnect :
  keeps (let* c := self in
         match reconnectTimer c with
         | Some h => clearTimeout h ;; update (set_reconnectTimer None)
         | None => ret tt
         end).
Proof.
  intros s Hs. unfold bind, self. simpl.
  destruct (reconnectTimer (this s)) as [rc|] eqn:E; [|exact Hs].
  destruct Hs as [f h r]. split; simpl.
  - intros h' t H. apply lookup_delete_Some in H as [_ H]. eauto.
  - intros h' t H R. apply lookup_delete_Some in H as [_ H]. eauto.
  - intros h' t H R. apply lookup_delete_Some in H as [Hne H].
    specialize (r _ _ H R). congruence.
Qed.

Ltac keeps_step :=
  lazymatch goal with
  | |- keeps (bind self (fun c => match reconnectTimer c with _ => _ end)) =>
      apply keeps_clear_reconnect
  | |- keeps (bind _ _) => apply keeps_bind; [|intros ?]
  | |- keeps (try_catch _ _) => apply keeps_try_catch; [|intros ?]
  | |- keeps (spawn _) => apply keeps_spawn
  | |- keeps (ret _) => apply keeps_ret
  | |- keeps (throw _) => apply keeps_throw
  | |- keeps self => apply keeps_self
  | |- keeps (log _ _) => apply keeps_note
  | |- keeps (emit _) => apply keeps_note
  | |- keeps (note _) => apply keeps_note
  | |- keeps (ws_send _ _) => apply keeps_note
  | |- keeps (ws_close _) => apply keeps_ws_close
  | |- keeps new_WebSocket => apply keeps_new_WebSocket
  | |- keeps (send _) => apply keeps_send
  | |- keeps clearHeartbeat => apply keeps_clearHeartbeat
  | |- keeps (startHeartbeat _) => apply keeps_startHeartbeat
  | |- keeps scheduleReconnect => apply keeps_scheduleReconnect
  | |- keeps (update _) => apply keeps_update; intros ?; reflexivity
  | |- keeps (match ?x with _ => _ end) => destruct x
  end.

Lemma keeps_cleanup : keeps cleanup.
Proof. unfold cleanup. repeat keeps_step. Qed.

Lemma keeps_connect a : keeps (connect a).
Proof.
  unfold connect. keeps_step; [keeps_step|].
  intros s Hs. destruct (_ || _); [exact Hs|].
  revert s Hs. fold (keeps (update (set_isConnecting true) ;; emit reconnecting ;;
                            let* ws := new_WebSocket in update (set_websocket (Some ws)))).
  repeat keeps_step.
Qed.

Lemma keeps_connect_catch e : keeps (connect_catch e).
Proof. unfold connect_catch. repeat keeps_step. Qed.

Lemma keeps_disconnect : keeps disconnect.
Proof. unfold disconnect. repeat keeps_step. Qed.

Lemma keeps_handleMessage m : keeps (handleMessage m).
Proof. unfold handleMessage. repeat keeps_step. Qed.

Lemma keeps_heartbeat : keeps heartbeat.
Proof. unfold heartbeat. repeat keeps_step. Qed.

Lemma keeps_open_listener : keeps open_listener.
Proof. unfold open_listener, sendAuthMessage. repeat keeps_step. Qed.

Lemma keeps_close_listener : keeps close_listener.
Proof. unfold close_listener. repeat keeps_step; apply keeps_cleanup. Qed.

Lemma keeps_error_listeners ws e : keeps (error_listeners ws e).
Proof.
  unfold error_listeners. do 2 (keeps_step; [keeps_step|]).
  intros s Hs. destruct (sockets (rt s) !! ws) as [sk|]; [|exact Hs].
  destruct (once_error sk); [|exact Hs].
  revert s Hs.
  fold (keeps (runtime (fun r =>
               set_sockets (<[ws := {| state := state sk; opened := opened sk;
                                       once_error := false |}]> (sockets r)) r) ;;
             update (set_isConnecting false) ;;
             if opened sk then ret tt else connect_catch e)).
  keeps_step; [apply keeps_sockets|]. keeps_step; [keeps_step|].
  destruct (opened sk); [keeps_step|apply keeps_connect_catch].
Qed.

Lemma keeps_message_listener data c : message_listener data = Some c -> keeps c.
Proof.
  intros H. destruct (message_listener_inv data c H) as [[_ ->]|(h & _ & -> & [->|[m ->]])];
    repeat keeps_step. apply keeps_handleMessage.
Qed.

Lemma consistent_put_socket ws sk s : consistent s -> consistent (put_socket ws sk s).
Proof. intros [f h r]. split; simpl; auto. Qed.

Lemma exec_keeps c s : keeps c -> consistent s -> consistent (exec c s).
Proof. intros H Hs. unfold exec. now apply keeps_spawn. Qed.

Lemma step_consistent ev s s' : step ev s = Some s' -> consistent s -> consistent s'.
Proof.
  destruct ev as [| | ws | ws data | ws e | ws | h | dt]; simpl; intros H Hs.
  - inversion H; subst. apply exec_keeps; [apply keeps_connect|exact Hs].
  - inversion H; subst. apply exec_keeps; [apply keeps_disconnect|exact Hs].
  - destruct (sockets (rt s) !! ws) as [sk|]; [|discriminate].
    destruct (state sk); try discriminate. inversion H; subst.
    apply exec_keeps; [apply keeps_open_listener|now apply consistent_put_socket].
  - destruct (readyState_of (rt s) ws) as [[]|]; try discriminate;
      (destruct (message_listener data) as [c|] eqn:E; [|discriminate];
       inversion H; subst; apply exec_keeps; [eapply keeps_message_listener; exact E|exact Hs]).
  - destruct (sockets (rt s) !! ws) as [sk|]; [|discriminate].
    destruct (state sk); try discriminate; inversion H; subst;
      (apply exec_keeps; [apply keeps_error_listeners|now apply consistent_put_socket]).
  - destruct (sockets (rt s) !! ws) as [sk|]; [|discriminate].
    destruct (state sk); try discriminate; inversion H; subst;
      (apply exec_keeps; [apply keeps_close_listener|now apply consistent_put_socket]).
  - destruct (timers (rt s) !! h) as [tm|] eqn:Et; [|discriminate].
    destruct (due tm <=? clock (rt s)); [|discriminate]. inversion H; subst. clear H.
    destruct Hs as [f hb rc].
    set (s0 := {| this := this s; rt := set_timers (delete h (timers (rt s))) (rt s) |}).
    assert (H0 : consistent s0).
    { split; simpl; intros h' t L; apply lookup_delete_Some in L as [_ L]; eauto. }
    destruct (run tm) eqn:Er; simpl.
    + apply exec_keeps; [apply keeps_heartbeat|exact H0].
    + assert (Hnone : forall h' t, timers (rt s0) !! h' = Some t -> run t <> reconnect_callback).
      { simpl. intros h' t L R. apply lookup_delete_Some in L as [Hne L].
        pose proof (rc _ _ L R). pose proof (rc _ _ Et Er). congruence. }
      change (consistent (exec (log Info "Reconnecting..." ;; connect true)
                               (snd (update (set_reconnectTimer None) s0)))).
      apply exec_keeps; [repeat keeps_step; apply keeps_connect|].
      destruct H0 as [f0 hb0 rc0]. split; simpl; auto.
      intros h' t L R. exfalso. exact (Hnone h' t L R).
  - destruct (0 <=? dt); [|discriminate]. inversion H; subst.
    destruct Hs as [f hb rc]. split; simpl; auto.
Qed.

Lemma boot_consistent cfg : consistent (boot cfg).
Proof. split; simpl; intros h t H; rewrite lookup_empty in H; discriminate. Qed.

Lemma steps_consistent evs : forall s s', steps evs s = Some s' -> consistent s -> consistent s'.
Proof.
  induction evs as [|ev evs IH]; simpl; intros s s' H Hs.
  - now inversion H; subst.
  - destruct (step ev s) as [s1|] eqn:E; [|discriminate].
    eapply IH; [exact H|]. eapply step_consistent; eauto.
Qed.

Lemma reachable_consistent cfg s : reachable cfg s -> consistent s.
Proof. intros [evs H]. eapply steps_consistent; [exact H|apply boot_consistent]. Qed.

Lemma step_quiet T n0 ev s s' :
  step ev s = Some s' -> quiet_until T n0 s -> quiet_until T n0 s'.
Proof.
  intros H [ql qc qt qr]. apply step_advances in H as [c k f t (a & e & i)]. split.
  - rewrite e, length_app. lia.
  - rewrite c. lia.
  - intros h tm L R. destruct (t h tm L) as [L'|[L'|(_ & D & _)]]; eauto; [congruence|lia].
  - intros x Hx. rewrite e, skipn_app in Hx. apply in_app_or in Hx as [Hx|Hx]; [auto|].
    replace (n0 - length (trace (rt s)))%nat with 0%nat in Hx by lia. simpl in Hx.
    destruct (i x Hx) as (-> & h & tm & _ & L & R & D). specialize (qt h tm L R). lia.
Qed.

Lemma steps_quiet T n0 evs : forall s s',
  steps evs s = Some s' -> quiet_until T n0 s -> quiet_until T n0 s'.
Proof.
  induction evs as [|ev evs IH]; simpl; intros s s' H Hs.
  - now inversion H; subst.
  - destruct (step ev s) as [s1|] eqn:E; [|discriminate].
    eapply IH; [exact H|]. eapply step_quiet; eauto.
Qed.

Lemma step_off n0 ev s s' :
  step ev s = Some s' -> reconnect_off n0 s -> reconnect_off n0 s'.
Proof.
  intros H [ol ofl ot otr]. apply step_advances in H as [c k f t (a & e & i)]. split.
  - rewrite e, length_app. lia.
  - destruct (shouldReconnect (this s')); [|reflexivity]. rewrite f in ofl; auto.
  - intros h tm L R. destruct (t h tm L) as [L'|[L'|(_ & _ & F)]];
      [exact (ot _ _ L' R)|congruence|congruence].
  - intros x Hx. rewrite e, skipn_app in Hx. apply in_app_or in Hx as [Hx|Hx]; [exact (otr _ Hx)|].
    replace (n0 - length (trace (rt s)))%nat with 0%nat in Hx by lia. simpl in Hx.
    destruct (i x Hx) as (_ & h & tm & _ & L & R & _). exact (ot _ _ L R).
Qed.

Lemma steps_off n0 evs : forall s s',
  steps evs s = Some s' -> reconnect_off n0 s -> reconnect_off n0 s'.
Proof.
  induction evs as [|ev evs IH]; simpl; intros s s' H Hs.
  - now inversion H; subst.
  - destruct (step ev s) as [s1|] eqn:E; [|discriminate].
    eapply IH; [exact H|]. eapply step_off; eauto.
Qed.

Lemma fresh_next s : consistent s -> timers (rt s) !! next (rt s) = None.
Proof.
  intros [f _ _]. destruct (timers (rt s) !! next (rt s)) as [t|] eqn:E; [|reflexivity].
  apply f in E. lia.
Qed.

Lemma startHeartbeat_arms d s :
  consistent s ->
  exists s', startHeartbeat d s = (Ret tt, s') /\ armed_alone d s s'.
Proof.
  intros Hs. pose proof (fresh_next s Hs) as Hf. destruct Hs as [f hb rc].
  unfold startHeartbeat, clearHeartbeat, bind, self. simpl.
  destruct (heartbeatTimer (this s)) as [h0|] eqn:E; simpl;
    (eexists; split; [reflexivity|]); exists (next (rt s)); simpl;
    (split; [exact Hf|]); (split; [reflexivity|]); (split; [apply lookup_insert_eq|]).
  - intros h' t L R. apply lookup_insert_Some in L as [[<- _]|[_ L]]; [reflexivity|].
    apply lookup_delete_Some in L as [Hne L]. specialize (hb _ _ L R). congruence.
  - intros h' t L R. apply lookup_insert_Some in L as [[<- _]|[_ L]]; [reflexivity|].
    specialize (hb _ _ L R). congruence.
Qed.

Lemma handle_132 m s :
  WebSocketMessage.type m = Some 132 -> handleMessage m s = startHeartbeat 60000 s.
Proof. intros H. unfold handleMessage. now rewrite H. Qed.

Lemma handle_140 m s :
  WebSocketMessage.type m = Some 140 -> handleMessage m s = startHeartbeat 30000 s.
Proof. intros H. unfold handleMessage. now rewrite H. Qed.

Lemma consistent_one_heartbeat s : consistent s -> at_most_one_heartbeat s.
Proof.
  intros [_ hb _] h1 t1 h2 t2 L1 R1 L2 R2.
  pose proof (hb _ _ L1 R1). pose proof (hb _ _ L2 R2). congruence.
Qed.

(** the timer is one-shot: firing removes it and arms nothing *)
Lemma send_timers data s : timers (rt (snd (send data s))) = timers (rt s).
Proof.
  unfold send. destruct (websocket (this s)); [|reflexivity].
  destruct (is_OPEN _); [|reflexivity]. destruct (WebSocketMessage.type data); reflexivity.
Qed.

Lemma fire_heartbeat_once h t s s' :
  timers (rt s) !! h = Some t -> run t = heartbeat_callback ->
  step (Fire h) s = Some s' ->
  timers (rt s') = delete h (timers (rt s)).
Proof.
  intros L R. simpl. rewrite L, R. destruct (due t <=? clock (rt s)); [|discriminate].
  intros H; inversion H; subst. unfold exec, spawn, fire, heartbeat, try_catch.
  set (s0 := {| this := this s; rt := set_timers (delete h (timers (rt s))) (rt s) |}).
  pose proof (send_timers (reply 4) s0) as T.
  change (send _ s0) with (send (reply 4) s0).
  destruct (send (reply 4) s0) as [[[]|e] s1]; simpl in *; exact T.
Qed.

Lemma close_listener_schedules s :
  shouldReconnect (this s) = true -> reconnectTimer (this s) = None ->
  let s' := exec close_listener s in
  reconnectTimer (this s') = Some (next (rt s))
  /\ timers (rt s') !! next (rt s)
     = Some {| run := reconnect_callback; due := clock (rt s) + retry_delay s |}.
Proof.
  intros Hf Ht. unfold exec, spawn, try_catch, close_listener, cleanup, clearHeartbeat,
    scheduleReconnect, bind, self, log, emit, note, runtime, update, retry_delay. simpl.
  destruct (heartbeatTimer (this s)) as [h0|]; simpl; rewrite Hf; simpl; rewrite Ht; simpl;
    (split; [reflexivity|apply lookup_insert_eq]).
Qed.

Lemma scheduleReconnect_pending s h :
  reconnectTimer (this s) = Some h -> scheduleReconnect s = (Ret tt, s).
Proof. intros H. unfold scheduleReconnect, bind, self. simpl. now rewrite H. Qed.

Lemma close_quiet ws s s' :
  consistent s ->
  reconnectTimer (this s) = None ->
  step (Close ws) s = Some s' ->
  quiet_until (clock (rt s) + retry_delay s) (length (trace (rt s))) s'.
Proof.
  intros [_ _ rc] Hn H. apply step_advances in H as [c k f t (a & e & i)]. split.
  - rewrite e, length_app. lia.
  - unfold retry_delay. rewrite c. lia.
  - intros h tm L R. destruct (t h tm L) as [L'|[L'|(_ & D & _)]].
    + specialize (rc _ _ L' R). congruence.
    + congruence.
    + unfold retry_delay. lia.
  - intros x Hx. rewrite e, drop_app_length in Hx.
    destruct (i x Hx) as (_ & h & tm & F & _). discriminate.
Qed.

Lemma disconnect_off s :
  consistent s ->
  let s' := exec disconnect s in
  shouldReconnect (this s') = false
  /\ reconnectTimer (this s') = None
  /\ (forall h, reconnectTimer (this s) = Some h -> timers (rt s') !! h = None)
  /\ reconnect_off (length (trace (rt s))) s'.
Proof.
  intros [fr hb rc].
  assert (E : forall h t, timers (rt (exec disconnect s)) !! h = Some t ->
              timers (rt s) !! h = Some t /\ reconnectTimer (this s) <> Some h).
  { unfold exec, spawn, try_catch, disconnect, clearHeartbeat, ws_close, bind, self,
      update, runtime, clearTimeout. simpl.
    destruct (reconnectTimer (this s)) as [r0|] eqn:Er;
      destruct (heartbeatTimer (this s)) as [h0|] eqn:Eh;
      destruct (websocket (this s)) as [w|] eqn:Ew;
      repeat (simpl; rewrite ?Er, ?Eh, ?Ew);
      try (destruct (sockets (rt s) !! w) as [sk|]; [destruct (state sk)|]); simpl;
      intros h t L;
      repeat match type of L with
             | delete _ _ !! _ = Some _ => apply lookup_delete_Some in L as [? L]
             end; split; congruence. }
  assert (F : shouldReconnect (this (exec disconnect s)) = false
              /\ reconnectTimer (this (exec disconnect s)) = None
              /\ trace (rt (exec disconnect s)) = trace (rt s)).
  { unfold exec, spawn, try_catch, disconnect, clearHeartbeat, ws_close, bind, self,
      update, runtime, clearTimeout. simpl.
    destruct (reconnectTimer (this s)) as [r0|] eqn:Er;
      destruct (heartbeatTimer (this s)) as [h0|] eqn:Eh;
      destruct (websocket (this s)) as [w|] eqn:Ew;
      repeat (simpl; rewrite ?Er, ?Eh, ?Ew);
      try (destruct (sockets (rt s) !! w) as [sk|]; [destruct (state sk)|]); simpl;
      repeat split; reflexivity. }
  destruct F as (F1 & F2 & F3). cbv zeta. split; [exact F1|]. split; [exact F2|].
  split.
  - intros h Hh. destruct (timers (rt (exec disconnect s)) !! h) as [t|] eqn:L; [|reflexivity].
    destruct (E _ _ L) as [_ N]. congruence.
  - split.
    + rewrite F3. lia.
    + exact F1.
    + intros h t L R. destruct (E _ _ L) as [L' N]. apply N. eauto.
    + intros t. rewrite F3, drop_all. intros [].
Qed.

(** *** What goes out, and when *)

Lemma decode_stamped s m :
  WebSocketMessage.wf_message m = true ->
  WebSocketMessage.decode (WebSocketMessage.encode (stamped s m)) = Some (stamped s m).
Proof. intros H. apply WireFacts.decode_encode. exact H. Qed.

Lemma frames_sent_now s ws m :
  frames_of (sent_now s ws m) = [WebSocketMessage.encode (stamped s m)].
Proof. reflexivity. Qed.

Lemma frames_of_app a b : frames_of (a ++ b) = (frames_of a ++ frames_of b)%list.
Proof. unfold frames_of. apply omap_app. Qed.

Lemma frames_forwarded s m : frames_of (forwarded s m) = [].
Proof. unfold forwarded. destruct (is_push m); reflexivity. Qed.

Lemma envelopes_sent_now s ws m :
  WebSocketMessage.wf_message m = true ->
  envelopes (sent_now s ws m) = [Some (stamped s m)].
Proof.
  intros H. unfold envelopes. rewrite frames_sent_now. cbn [map].
  now rewrite decode_stamped.
Qed.

(** The machine a timer's callback starts from: the fired timer is gone *)
Lemma step_fire h t s :
  timers (rt s) !! h = Some t -> due t <= clock (rt s) ->
  step (Fire h) s
  = Some (exec (fire (run t))
            {| this := this s; rt := set_timers (delete h (timers (rt s))) (rt s) |}).
Proof.
  intros Ht Hd. cbn [step]. rewrite Ht.
  destruct (due t <=? clock (rt s)) eqn:E; [reflexivity|].
  apply Z.leb_gt in E. lia.
Qed.

Lemma exec_ret c s s' : c s = (Ret tt, s') -> exec c s = s'.
Proof. unfold exec, spawn, try_catch. intros H. now rewrite H. Qed.

Lemma heartbeat_open s ws :
  open_socket s = Some ws -> heartbeat s = (Ret tt, after_send ws (reply 4) s).
Proof.
  intros Ho. unfold heartbeat, try_catch.
  now rewrite (send_open s ws (reply 4) 4 Ho eq_refl).
Qed.

Lemma heartbeat_closed s :
  open_socket s = None -> frames_of (produced s (snd (heartbeat s))) = [].
Proof.
  intros Ho. unfold heartbeat, try_catch. rewrite (send_closed _ _ Ho).
  unfold log, note, runtime. cbn [snd].
  erewrite produced_app; [|reflexivity]. reflexivity.
Qed.

Lemma types_sent_now s ws k :
  types_sent (sent_now s ws (reply k)) = [Some k].
Proof.
  unfold types_sent. now rewrite envelopes_sent_now.
Qed.

Lemma seqs_sent_now s ws e :
  WebSocketMessage.wf_message e = true ->
  seqs_sent (sent_now s ws e) = [Some (seq (this s) + 1)].
Proof.
  intros H. unfold seqs_sent. now rewrite envelopes_sent_now.
Qed.

Lemma handle_ping_open s ws m :
  WebSocketMessage.type m = Some 4 -> open_socket s = Some ws ->
  handleMessage m s = (Ret tt, after_send ws (reply 132) s).
Proof.
  intros Ht Ho. unfold handleMessage. rewrite Ht.
  exact (send_open s ws (reply 132) 132 Ho eq_refl).
Qed.

(** C1 (as amended): while the socket is open, [send] writes one frame for
    an envelope with a numeric type: the text of the envelope with its
    [seq] replaced by the next sequence number, whatever [seq] the envelope
    carried, and the counter moves to that number.  When the envelope is
    well formed the frame decodes to that stamped envelope.  The
    serialization alone round-trips: every well-formed envelope is decoded
    from its own text, and every envelope the inbound path decodes is well
    formed. *)
Theorem sent_frame_decodes s ws e ty :
  open_socket s = Some ws ->
  WebSocketMessage.type e = Some ty ->
  (exists s', send e s = (Ret tt, s')
     /\ frames_of (produced s s') = [WebSocketMessage.encode (stamped s e)]
     /\ WebSocketMessage.seq (stamped s e) = Some (seq (this s) + 1)
     /\ seq (this s') = seq (this s) + 1
     /\ (WebSocketMessage.wf_message e = true ->
         WebSocketMessage.decode (WebSocketMessage.encode (stamped s e))
         = Some (stamped s e)))
  /\ (forall m, WebSocketMessage.wf_message m = true ->
        WebSocketMessage.decode (WebSocketMessage.encode m) = Some m)
  /\ (forall frame m, WebSocketMessage.decode frame = Some m ->
        WebSocketMessage.wf_message m = true).
Proof.
  intros Ho Ht. split; [|split; [exact WireFacts.decode_encode|exact WireFacts.decode_wf]].
  exists (after_send ws e s).
  split; [exact (send_open s ws e ty Ho Ht)|].
  split; [rewrite produced_after_send; apply frames_sent_now|].
  split; [reflexivity|]. split; [reflexivity|].
  intros Hwf. now apply decode_stamped.
Qed.

Lemma sent_frame_decodes_witness :
  exists s, steps [Call_connect; Open 0%nat] (boot demo) = Some s
    /\ exists s', send ping7 s = (Ret tt, s')
         /\ envelopes (produced s s') = [Some (stamped s ping7)]
         /\ seq (this s') = 2.
Proof.
  eexists. split; [vm_compute; reflexivity|].
  match goal with |- exists s', send _ ?s = _ /\ _ =>
    destruct (sent_frame_decodes s 0%nat ping7 4 eq_refl eq_refl)
      as ((s' & H1 & H2 & _ & H5 & H3) & _)
  end.
  exists s'. split; [exact H1|]. split; [|exact H5].
  unfold envelopes. rewrite H2. cbn [map]. now rewrite (H3 eq_refl).
Defined.

(** C1 (as stated) fails: the envelope [{type: 4, seq: 7}], sent on the open
    socket after the authentication, is read back with [seq = 2]. *)
Lemma sent_frame_decodes_to_another :
  exists s s' e',
    steps [Call_connect; Open 0%nat] (boot demo) = Some s
    /\ WebSocketMessage.wf_message ping7 = true
    /\ send ping7 s = (Ret tt, s')
    /\ envelopes (produced s s') = [Some e']
    /\ WebSocketMessage.seq e' = Some 2
    /\ e' <> ping7.
Proof.
  do 3 eexists. split; [vm_compute; reflexivity|].
  split; [reflexivity|]. split; [vm_compute; reflexivity|].
  split; [vm_compute; reflexivity|]. split; [reflexivity|]. discriminate.
Qed.

(** C2 (as amended): while the socket is open, the reply to an inbound
    envelope of type 4 is one envelope of type 132, and the envelope sent
    when the armed heartbeat timer fires is one envelope of type 4. *)
Theorem ping_types s ws :
  open_socket s = Some ws ->
  (forall m, WebSocketMessage.type m = Some 4 ->
     exists s', handleMessage m s = (Ret tt, s')
       /\ types_sent (produced s s') = [Some 132])
  /\ (forall h t, timers (rt s) !! h = Some t -> run t = heartbeat_callback ->
        due t <= clock (rt s) ->
        exists s', step (Fire h) s = Some s'
          /\ types_sent (produced s s') = [Some 4]).
Proof.
  intros Ho. split.
  - intros m Ht. exists (after_send ws (reply 132) s).
    split; [now apply handle_ping_open|].
    rewrite produced_after_send. apply types_sent_now.
  - intros h t Hh Hr Hd. rewrite (step_fire h t s Hh Hd), Hr. cbn [fire].
    set (s0 := {| this := this s; rt := set_timers (delete h (timers (rt s))) (rt s) |}).
    assert (Ho0 : open_socket s0 = Some ws) by exact Ho.
    exists (after_send ws (reply 4) s0). split.
    + f_equal. apply exec_ret. now apply heartbeat_open.
    + change (produced s (after_send ws (reply 4) s0))
        with (produced s0 (after_send ws (reply 4) s0)).
      rewrite produced_after_send. apply types_sent_now.
Qed.

Lemma ping_types_witness :
  exists s,
    steps [Call_connect; Open 0%nat;
           Message 0%nat (WebSocketMessage.encode (reply 132)); Tick 60000]
          (boot demo) = Some s
    /\ (exists s', handleMessage ping7 s = (Ret tt, s')
          /\ types_sent (produced s s') = [Some 132])
    /\ (exists s', step (Fire 1%nat) s = Some s'
          /\ types_sent (produced s s') = [Some 4]).
Proof.
  eexists. split; [vm_compute; reflexivity|].
  match goal with |- (exists s', handleMessage _ ?s = _ /\ _) /\ _ =>
    destruct (ping_types s 0%nat eq_refl) as [H1 H2]
  end.
  split; [exact (H1 ping7 eq_refl)|].
  refine (H2 1%nat {| run := heartbeat_callback; due := 60000 |} eq_refl eq_refl _).
  vm_compute. discriminate.
Defined.

(** C2 (as stated) fails: the heartbeat timer armed by an inbound 132 fires
    after 60000 time-units and what it sends has type 4. *)
Lemma scheduled_ping_has_type_4 :
  exists s s',
    steps [Call_connect; Open 0%nat;
           Message 0%nat (WebSocketMessage.encode (reply 132)); Tick 60000]
          (boot demo) = Some s
    /\ timers (rt s) !! 1%nat = Some {| run := heartbeat_callback; due := 60000 |}
    /\ step (Fire 1%nat) s = Some s'
    /\ types_sent (produced s s') = [Some 4]
    /\ types_sent (produced s s') <> [Some 132].
Proof.
  do 2 eexists. split; [vm_compute; reflexivity|].
  split; [reflexivity|]. split; [vm_compute; reflexivity|].
  split; [vm_compute; reflexivity|]. vm_compute. discriminate.
Qed.

(** C5 (as amended): for an inbound envelope of type 2 with sequence number
    [S], processed while the socket is open, exactly one envelope goes out,
    the acknowledgement of type 130 with [ack = S], and it goes out before
    the push is forwarded; processed while the socket is absent or not open,
    [send] throws, and nothing goes out or is forwarded. *)
Theorem push_acknowledged_when_open s m S :
  WebSocketMessage.type m = Some 2 ->
  WebSocketMessage.seq m = Some S ->
  (forall ws, open_socket s = Some ws ->
     exists s', handleMessage m s = (Ret tt, s')
       /\ produced s s' = (sent_now s ws (ack_of (Some S)) ++ forwarded s m)%list
       /\ envelopes (produced s s') = [Some (stamped s (ack_of (Some S)))])
  /\ (open_socket s = None -> handleMessage m s = (Throw not_connected, s)).
Proof.
  intros Ht Hs. split.
  - intros ws Ho. destruct (handle_push_open s ws m Ht Ho) as (s' & H1 & H2 & _).
    rewrite Hs in H2. exists s'. split; [exact H1|]. split; [exact H2|].
    unfold envelopes. rewrite H2, frames_of_app, frames_sent_now, frames_forwarded.
    simpl. now rewrite decode_stamped.
  - intros Ho. now apply handle_push_closed.
Qed.

Lemma push_acknowledged_witness :
  exists s, steps [Call_connect; Open 0%nat] (boot demo) = Some s
    /\ exists s', handleMessage push7 s = (Ret tt, s')
         /\ envelopes (produced s s') = [Some (stamped s (ack_of (Some 7)))].
Proof.
  eexists. split; [vm_compute; reflexivity|].
  match goal with |- exists s', handleMessage _ ?s = _ /\ _ =>
    destruct (proj1 (push_acknowledged_when_open s push7 7 eq_refl eq_refl) 0%nat)
      as (s' & H1 & _ & H3); [reflexivity|]
  end.
  exists s'. split; [exact H1|exact H3].
Defined.

(** C5 (as stated) fails: after [disconnect] the closing socket still
    delivers a push with [seq = 7]; the client processes it, and no
    acknowledgement goes out. *)
Lemma push_not_acknowledged_after_disconnect :
  exists s s',
    steps [Call_connect; Open 0%nat; Call_disconnect] (boot demo) = Some s
    /\ step (Message 0%nat (WebSocketMessage.encode push7)) s = Some s'
    /\ handleMessage push7 s = (Throw not_connected, s)
    /\ envelopes (produced s s') = []
    /\ ~ acknowledged s push7 7.
Proof.
  do 2 eexists. split; [vm_compute; reflexivity|].
  split; [vm_compute; reflexivity|].
  match goal with |- handleMessage _ ?s = _ /\ _ =>
    assert (H : handleMessage push7 s = (Throw not_connected, s))
      by (apply handle_push_closed; reflexivity)
  end.
  split; [exact H|]. split; [vm_compute; reflexivity|].
  intros (s' & H' & _). rewrite H in H'. discriminate H'.
Qed.

Lemma handle_key_open s ws m K :
  WebSocketMessage.type m = Some 129 ->
  WebSocketMessage.secureKey m = Some K ->
  open_socket s = Some ws ->
  handleMessage m s
  = (Ret tt,
     after_send ws
       (subscription (Crypto.RedoteCrypto.aesEcbEncrypt K (userId (config (this s))))) s).
Proof.
  intros Ht Hk Ho. unfold handleMessage. rewrite Ht, Hk. unfold bind, self.
  apply send_open with (ty := 10); [exact Ho|reflexivity].
Qed.

Lemma handle_key_closed s m K :
  WebSocketMessage.type m = Some 129 ->
  WebSocketMessage.secureKey m = Some K ->
  open_socket s = None ->
  handleMessage m s = (Throw not_connected, s).
Proof.
  intros Ht Hk Ho. unfold handleMessage. rewrite Ht, Hk. unfold bind, self.
  now rewrite send_closed.
Qed.

(** C9 (as amended): for an inbound envelope of type 129 with secure key
    [K], processed while the socket is open, one envelope goes out: type 10,
    [encrypt = true], and as topic the user id under the vendor scheme
    (AES-128 in ECB mode under the 16-byte key window of [K], PKCS#7
    padding, URL-safe base64 without padding), which is what
    [aesEcbEncrypt] computes; processed while the socket is absent or not
    open, [send] throws and nothing goes out. *)
Theorem secure_key_answered_when_open s m K :
  WebSocketMessage.type m = Some 129 ->
  WebSocketMessage.secureKey m = Some K ->
  Crypto.RedoteCrypto.aesEcbEncrypt K (userId (config (this s)))
  = Crypto.vendor_encrypt K (userId (config (this s)))
  /\ (forall ws, open_socket s = Some ws ->
        exists s', handleMessage m s = (Ret tt, s')
          /\ envelopes (produced s s')
             = [Some (stamped s (subscription
                  (Crypto.vendor_encrypt K (userId (config (this s))))))])
  /\ (open_socket s = None -> handleMessage m s = (Throw not_connected, s)).
Proof.
  intros Ht Hk. split; [apply CryptoFacts.aesEcbEncrypt_vendor|]. split.
  - intros ws Ho. rewrite (handle_key_open s ws m K Ht Hk Ho).
    eexists. split; [reflexivity|]. rewrite produced_after_send.
    rewrite CryptoFacts.aesEcbEncrypt_vendor.
    now apply envelopes_sent_now.
  - intros Ho. now apply (handle_key_closed s m K).
Qed.

Lemma secure_key_answered_witness :
  exists s, steps [Call_connect; Open 0%nat] (boot demo) = Some s
    /\ exists s', handleMessage key129 s = (Ret tt, s')
         /\ envelopes (produced s s')
            = [Some (stamped s (subscription
                 (Crypto.vendor_encrypt "0123456789abcdef" "u1")))].
Proof.
  eexists. split; [vm_compute; reflexivity|].
  match goal with |- exists s', handleMessage _ ?s = _ /\ _ =>
    destruct (proj1 (proj2 (secure_key_answered_when_open s key129 _ eq_refl eq_refl))
                0%nat eq_refl) as (s' & H1 & H2)
  end.
  exists s'. split; [exact H1|exact H2].
Defined.

(** C9 (as stated) fails: after [disconnect] the closing socket delivers the
    secure key; the client processes it, and no envelope of type 10 goes
    out. *)
Lemma secure_key_unanswered_after_disconnect :
  exists s s',
    steps [Call_connect; Open 0%nat; Call_disconnect] (boot demo) = Some s
    /\ step (Message 0%nat (WebSocketMessage.encode key129)) s = Some s'
    /\ handleMessage key129 s = (Throw not_connected, s)
    /\ envelopes (produced s s') = [].
Proof.
  do 2 eexists. split; [vm_compute; reflexivity|].
  split; [vm_compute; reflexivity|].
  split; [apply (handle_key_closed _ _ "0123456789abcdef"); reflexivity|].
  vm_compute; reflexivity.
Qed.

(** C10: a [send] whose preconditions fail (the socket is absent or not
    open, or the envelope has no numeric type) throws and leaves the machine
    as it was: the sequence counter keeps its value and nothing is sent. *)
Theorem failed_send_changes_nothing s data :
  open_socket s = None \/ WebSocketMessage.type data = None ->
  (exists e, send data s = (Throw e, s))
  /\ seq (this (snd (send data s))) = seq (this s)
  /\ produced s (snd (send data s)) = [].
Proof.
  intros H.
  assert (T : exists e, send data s = (Throw e, s)).
  { destruct H as [H|H]; [rewrite (send_closed _ _ H); eauto|now apply send_untyped]. }
  split; [exact T|]. destruct T as [e T]. rewrite T. cbn [snd].
  split; [reflexivity|apply produced_refl].
Qed.

Lemma failed_send_witness :
  (exists e, send (reply 4) (boot demo) = (Throw e, boot demo))
  /\ seq (this (snd (send (reply 4) (boot demo)))) = 0.
Proof.
  destruct (failed_send_changes_nothing (boot demo) (reply 4) (or_introl eq_refl))
    as (H1 & H2 & _).
  split; [exact H1|exact H2].
Defined.


Lemma step_close_inv ws s s1 :
  step (Close ws) s = Some s1 ->
  exists sk, s1 = exec close_listener (put_socket ws sk s).
Proof.
  cbn [step]. destruct (sockets (rt s) !! ws) as [sk|]; [|discriminate].
  destruct (state sk); intros E; inversion E; eauto.
Qed.

Lemma close_resets_seq ws s s1 : step (Close ws) s = Some s1 -> seq (this s1) = 0.
Proof.
  intros H. destruct (step_close_inv ws s s1 H) as [sk ->].
  destruct s as [[cfg w sq hb rc ic sr] r].
  unfold exec, spawn, try_catch, close_listener, cleanup, clearHeartbeat,
    scheduleReconnect, bind, self, put_socket. cbn.
  destruct hb, sr, rc; reflexivity.
Qed.

Lemma disconnect_keeps_seq s : seq (this (exec disconnect s)) = seq (this s).
Proof.
  destruct s as [[cfg w sq hb rc ic sr] r].
  unfold exec, spawn, try_catch, disconnect, clearHeartbeat, bind, self. cbn.
  destruct rc, hb, w; reflexivity.
Qed.

(** C4: the sequence numbers as the client assigns them.  Each [send] on
    the open socket stamps the envelope with the counter plus one and
    leaves the counter there.  The ['close'] listener puts the counter back
    to 0, so the first envelope of a connection made after the close has
    [seq = 1] again; [disconnect] leaves the counter as it is, and a
    connection that opens before the ['close'] of the old socket arrives
    goes on with the old numbering: its first envelope has [seq = 2]. *)
Theorem seq_goes_on_after_disconnect :
  (forall s ws e ty, open_socket s = Some ws -> WebSocketMessage.type e = Some ty ->
     WebSocketMessage.wf_message e = true ->
     exists s', send e s = (Ret tt, s')
       /\ seqs_sent (produced s s') = [Some (seq (this s) + 1)]
       /\ seq (this s') = seq (this s) + 1)
  /\ (forall s ws s1, step (Close ws) s = Some s1 -> seq (this s1) = 0)
  /\ (forall s, seq (this (exec disconnect s)) = seq (this s))
  /\ (exists s,
        steps [Call_connect; Open 0%nat; Close 0%nat; Tick 3000; Fire 1%nat; Open 2%nat]
              (boot demo) = Some s
        /\ seqs_sent (trace (rt s)) = [Some 1; Some 1])
  /\ (exists s,
        steps [Call_connect; Open 0%nat; Call_disconnect; Call_connect; Open 1%nat]
              (boot demo) = Some s
        /\ types_sent (trace (rt s)) = [Some 1; Some 1]
        /\ seqs_sent (trace (rt s)) = [Some 1; Some 2]).
Proof.
  split.
  { intros s ws e ty Ho Ht Hwf. exists (after_send ws e s).
    split; [exact (send_open s ws e ty Ho Ht)|]. split; [|reflexivity].
    rewrite produced_after_send. now apply seqs_sent_now. }
  split; [intros s ws s1; apply close_resets_seq|].
  split; [apply disconnect_keeps_seq|].
  split; eexists; (split; [vm_compute; reflexivity|]).
  - vm_compute; reflexivity.
  - split; vm_compute; reflexivity.
Qed.

(** C6: in every reachable state at most one heartbeat timer is armed;
    processing an inbound envelope of type 132 arms the heartbeat timer
    60000 time-units from now, one of type 140 arms it 30000 from now, and
    after the arming the timer just armed, which was not armed before, is
    the only heartbeat timer: the one pending before is cancelled. *)
Theorem heartbeat_rearmed_alone cfg s m :
  reachable cfg s ->
  at_most_one_heartbeat s
  /\ (WebSocketMessage.type m = Some 132 ->
        exists s', handleMessage m s = (Ret tt, s') /\ armed_alone 60000 s s')
  /\ (WebSocketMessage.type m = Some 140 ->
        exists s', handleMessage m s = (Ret tt, s') /\ armed_alone 30000 s s').
Proof.
  intros Hr. pose proof (reachable_consistent cfg s Hr) as Hc.
  split; [now apply consistent_one_heartbeat|]. split; intros Ht.
  - rewrite (handle_132 m s Ht). now apply startHeartbeat_arms.
  - rewrite (handle_140 m s Ht). now apply startHeartbeat_arms.
Qed.

Lemma heartbeat_rearmed_witness :
  exists s,
    steps [Call_connect; Open 0%nat;
           Message 0%nat (WebSocketMessage.encode (reply 140)); Tick 10000]
          (boot demo) = Some s
    /\ timers (rt s) !! 1%nat = Some {| run := heartbeat_callback; due := 30000 |}
    /\ at_most_one_heartbeat s
    /\ exists s', handleMessage (reply 132) s = (Ret tt, s')
         /\ armed_alone 60000 s s'.
Proof.
  eexists. split; [vm_compute; reflexivity|]. split; [reflexivity|].
  match goal with |- at_most_one_heartbeat ?s /\ _ =>
    destruct (heartbeat_rearmed_alone demo s (reply 132)) as (H1 & H2 & _)
  end.
  - exists [Call_connect; Open 0%nat;
            Message 0%nat (WebSocketMessage.encode (reply 140)); Tick 10000].
    vm_compute. reflexivity.
  - split; [exact H1|exact (H2 eq_refl)].
Defined.

Lemma step_disconnect s : step Call_disconnect s = Some (exec disconnect s).
Proof. reflexivity. Qed.

(** *** The handles of the timers, and when the reconnect timers are due *)

Lemma holds_keeps {A} (c : M A) :
  keeps c -> (forall s, consistent s -> armed s -> armed (snd (c s))) -> holds c.
Proof. intros K H s [C A']. split; [now apply K|now apply H]. Qed.

Lemma holds_ret {A} (x : A) : holds (ret x).
Proof. intros s H. exact H. Qed.

Lemma holds_throw {A} e : holds (@throw A e).
Proof. intros s H. exact H. Qed.

Lemma holds_self : holds self.
Proof. intros s H. exact H. Qed.

Lemma holds_bind {A B} (c : M A) (k : A -> M B) :
  holds c -> (forall x, holds (k x)) -> holds (bind c k).
Proof.
  intros Hc Hk s Hs. unfold bind. specialize (Hc s Hs).
  destruct (c s) as [[x|e] s1]; simpl in *; [|exact Hc]. now apply Hk.
Qed.

Lemma holds_try_catch {A} (c : M A) (h : error -> M A) :
  holds c -> (forall e, holds (h e)) -> holds (try_catch c h).
Proof.
  intros Hc Hh s Hs. unfold try_catch. specialize (Hc s Hs).
  destruct (c s) as [[x|e] s1]; simpl in *; [exact Hc|]. now apply Hh.
Qed.

Lemma holds_note e : holds (note e).
Proof.
  apply holds_keeps; [apply keeps_note|]. intros s _ [a b c]. split; simpl; auto.
Qed.

Lemma holds_spawn c : holds c -> holds (spawn c).
Proof. intros H. apply holds_try_catch; [exact H|]. intros e. apply holds_note. Qed.

Lemma holds_update f :
  (forall c, heartbeatTimer (f c) = heartbeatTimer c) ->
  (forall c, reconnectTimer (f c) = reconnectTimer c) ->
  holds (update f).
Proof.
  intros H1 H2. apply holds_keeps; [now apply keeps_update|].
  intros s _ [a b c]. split; simpl.
  - intros h. rewrite H1. auto.
  - intros h. rewrite H2. auto.
  - intros x y. rewrite H1, H2. auto.
Qed.

Lemma holds_sockets (f : Runtime -> gmap nat socket) :
  holds (runtime (fun r => set_sockets (f r) r)).
Proof.
  apply holds_keeps; [apply keeps_sockets|]. intros s _ [a b c]. split; simpl; auto.
Qed.

Lemma holds_ws_close ws : holds (ws_close ws).
Proof.
  apply holds_keeps; [apply keeps_ws_close|]. intros s _ Hs.
  unfold ws_close, runtime. simpl.
  destruct (sockets (rt s) !! ws) as [sk|]; [destruct (state sk)|];
    try exact Hs; destruct Hs as [a b c]; split; simpl; auto.
Qed.

Lemma holds_new_WebSocket : holds new_WebSocket.
Proof.
  apply holds_keeps; [apply keeps_new_WebSocket|]. intros s _ [a b c]. split; simpl; auto.
  intros h H. apply a in H. lia.
Qed.

Lemma holds_send data : holds (send data).
Proof.
  apply holds_keeps; [apply keeps_send|]. intros s _ Hs. unfold send.
  destruct (websocket (this s)) as [ws|]; [|exact Hs].
  destruct (is_OPEN _); [|exact Hs].
  destruct (WebSocketMessage.type data); [|exact Hs].
  destruct Hs as [a b c]. split; simpl; auto.
Qed.

Lemma holds_clearHeartbeat : holds clearHeartbeat.
Proof.
  apply holds_keeps; [apply keeps_clearHeartbeat|]. intros s _ Hs.
  unfold clearHeartbeat, bind, self. simpl.
  destruct (heartbeatTimer (this s)) as [hb|] eqn:E; [|exact Hs].
  destruct Hs as [a b c]. split; simpl.
  - discriminate.
  - intros h H. destruct (b h H) as (t & L & R). exists t. split; [|exact R].
    apply lookup_delete_Some. split; [|exact L]. exact (c hb h E H).
  - discriminate.
Qed.

Lemma holds_startHeartbeat d : holds (startHeartbeat d).
Proof.
  apply holds_keeps; [apply keeps_startHeartbeat|]. intros s [f _ _] [a b c].
  assert (B : forall h, reconnectTimer (this s) = Some h -> h <> next (rt s)).
  { intros h H. destruct (b h H) as (t & L & _). apply f in L. lia. }
  unfold startHeartbeat, clearHeartbeat, bind, self. simpl.
  destruct (heartbeatTimer (this s)) as [hb|] eqn:E; simpl; split; simpl.
  - intros h H. inversion H. lia.
  - intros h H. destruct (b h H) as (t & L & R). exists t. split; [|exact R].
    apply lookup_insert_Some. right. split; [intros Eq; apply (B _ H); congruence|].
    apply lookup_delete_Some. split; [|exact L]. exact (c hb h eq_refl H).
  - intros x y H1 H2. inversion H1; subst. intros Eq. apply (B _ H2). congruence.
  - intros h H. inversion H. lia.
  - intros h H. destruct (b h H) as (t & L & R). exists t. split; [|exact R].
    apply lookup_insert_Some. right. split; [intros Eq; apply (B _ H); congruence|exact L].
  - intros x y H1 H2. inversion H1; subst. intros Eq. apply (B _ H2). congruence.
Qed.

Lemma holds_scheduleReconnect : holds scheduleReconnect.
Proof.
  apply holds_keeps; [apply keeps_scheduleReconnect|]. intros s _ Hs.
  unfold scheduleReconnect, bind, self. simpl.
  destruct (reconnectTimer (this s)) as [rc|] eqn:E; simpl; [exact Hs|].
  destruct Hs as [a b c]. split; simpl.
  - intros h H. apply a in H. lia.
  - intros h H. inversion H; subst. eexists. split; [apply lookup_insert_eq|reflexivity].
  - intros x y H1 H2. inversion H2; subst. apply a in H1. lia.
Qed.

Lemma holds_clear_reconnect :
  holds (let* c := self in
         match reconnectTimer c with
         | Some h => clearTimeout h ;; update (set_reconnectTimer None)
         | None => ret tt
         end).
Proof.
  apply holds_keeps; [apply keeps_clear_reconnect|]. intros s _ Hs.
  unfold bind, self. simpl.
  destruct (reconnectTimer (this s)) as [rc|] eqn:E; [|exact Hs].
  destruct Hs as [a b c]. split; simpl; auto; discriminate.
Qed.

Ltac holds_step :=
  lazymatch goal with
  | |- holds (bind self (fun c => match reconnectTimer c with _ => _ end)) =>
      apply holds_clear_reconnect
  | |- holds (bind _ _) => apply holds_bind; [|intros ?]
  | |- holds (try_catch _ _) => apply holds_try_catch; [|intros ?]
  | |- holds (spawn _) => apply holds_spawn
  | |- holds (ret _) => apply holds_ret
  | |- holds (throw _) => apply holds_throw
  | |- holds self => apply holds_self
  | |- holds (log _ _) => apply holds_note
  | |- holds (emit _) => apply holds_note
  | |- holds (note _) => apply holds_note
  | |- holds (ws_send _ _) => apply holds_note
  | |- holds (ws_close _) => apply holds_ws_close
  | |- holds new_WebSocket => apply holds_new_WebSocket
  | |- holds (send _) => apply holds_send
  | |- holds clearHeartbeat => apply holds_clearHeartbeat
  | |- holds (startHeartbeat _) => apply holds_startHeartbeat
  | |- holds scheduleReconnect => apply holds_scheduleReconnect
  | |- holds (update _) => apply holds_update; intros ?; reflexivity
  | |- holds (match ?x with _ => _ end) => destruct x
  end.

Lemma holds_cleanup : holds cleanup.
Proof. unfold cleanup. repeat holds_step. Qed.

Lemma holds_connect a : holds (connect a).
Proof.
  unfold connect. holds_step; [holds_step|].
  intros s Hs. destruct (_ || _); [exact Hs|].
  revert s Hs. fold (holds (update (set_isConnecting true) ;; emit reconnecting ;;
                            let* ws := new_WebSocket in update (set_websocket (Some ws)))).
  repeat holds_step.
Qed.

Lemma holds_connect_catch e : holds (connect_catch e).
Proof. unfold connect_catch. repeat holds_step. Qed.

Lemma holds_disconnect : holds disconnect.
Proof. unfold disconnect. repeat holds_step. Qed.

Lemma holds_handleMessage m : holds (handleMessage m).
Proof. unfold handleMessage. repeat holds_step. Qed.

Lemma holds_heartbeat : holds heartbeat.
Proof. unfold heartbeat. repeat holds_step. Qed.

Lemma holds_open_listener : holds open_listener.
Proof. unfold open_listener, sendAuthMessage. repeat holds_step. Qed.

Lemma holds_close_listener : holds close_listener.
Proof. unfold close_listener. repeat holds_step; apply holds_cleanup. Qed.

Lemma holds_error_listeners ws e : holds (error_listeners ws e).
Proof.
  unfold error_listeners. do 2 (holds_step; [holds_step|]).
  intros s Hs. destruct (sockets (rt s) !! ws) as [sk|]; [|exact Hs].
  destruct (once_error sk); [|exact Hs].
  revert s Hs.
  fold (holds (runtime (fun r =>
               set_sockets (<[ws := {| state := state sk; opened := opened sk;
                                       once_error := false |}]> (sockets r)) r) ;;
             update (set_isConnecting false) ;;
             if opened sk then ret tt else connect_catch e)).
  holds_step; [apply holds_sockets|]. holds_step; [holds_step|].
  destruct (opened sk); [holds_step|apply holds_connect_catch].
Qed.

Lemma holds_message_listener data c : message_listener data = Some c -> holds c.
Proof.
  intros H. destruct (message_listener_inv data c H) as [[_ ->]|(h & _ & -> & [->|[m ->]])];
    repeat holds_step. apply holds_handleMessage.
Qed.

Lemma sound_put_socket ws sk s : sound s -> sound (put_socket ws sk s).
Proof.
  intros [C [a b c]]. split; [now apply consistent_put_socket|]. split; simpl; auto.
Qed.

Lemma exec_holds c s : holds c -> sound s -> sound (exec c s).
Proof. intros H Hs. unfold exec. now apply holds_spawn. Qed.

Lemma step_sound ev s s' : step ev s = Some s' -> sound s -> sound s'.
Proof.
  destruct ev as [| | ws | ws data | ws e | ws | h | dt]; simpl; intros H Hs.
  - inversion H; subst. apply exec_holds; [apply holds_connect|exact Hs].
  - inversion H; subst. apply exec_holds; [apply holds_disconnect|exact Hs].
  - destruct (sockets (rt s) !! ws) as [sk|]; [|discriminate].
    destruct (state sk); try discriminate. inversion H; subst.
    apply exec_holds; [apply holds_open_listener|now apply sound_put_socket].
  - destruct (readyState_of (rt s) ws) as [[]|]; try discriminate;
      (destruct (message_listener data) as [c|] eqn:E; [|discriminate];
       inversion H; subst; apply exec_holds; [eapply holds_message_listener; exact E|exact Hs]).
  - destruct (sockets (rt s) !! ws) as [sk|]; [|discriminate].
    destruct (state sk); try discriminate; inversion H; subst;
      (apply exec_holds; [apply holds_error_listeners|now apply sound_put_socket]).
  - destruct (sockets (rt s) !! ws) as [sk|]; [|discriminate].
    destruct (state sk); try discriminate; inversion H; subst;
      (apply exec_holds; [apply holds_close_listener|now apply sound_put_socket]).
  - destruct (timers (rt s) !! h) as [tm|] eqn:Et; [|discriminate].
    destruct (due tm <=? clock (rt s)); [|discriminate]. inversion H; subst. clear H.
    destruct Hs as [[f hb rc] [a b c]].
    set (s0 := {| this := this s; rt := set_timers (delete h (timers (rt s))) (rt s) |}).
    assert (H0 : consistent s0).
    { split; simpl; intros h' t L; apply lookup_delete_Some in L as [_ L]; eauto. }
    destruct (run tm) eqn:Er; simpl.
    + apply exec_holds; [apply holds_heartbeat|]. split; [exact H0|].
      split; simpl; auto. intros h' H'. destruct (b h' H') as (t & L & R).
      exists t. split; [|exact R]. apply lookup_delete_Some. split; [|exact L].
      intros Eq. subst h'. congruence.
    + assert (Hnone : forall h' t, timers (rt s0) !! h' = Some t -> run t <> reconnect_callback).
      { simpl. intros h' t L R. apply lookup_delete_Some in L as [Hne L].
        pose proof (rc _ _ L R). pose proof (rc _ _ Et Er). congruence. }
      change (sound (exec (log Info "Reconnecting..." ;; connect true)
                          (snd (update (set_reconnectTimer None) s0)))).
      apply exec_holds; [repeat holds_step; apply holds_connect|].
      destruct H0 as [f0 hb0 rc0]. split; split; simpl; auto; try discriminate.
      intros h' t L R. exfalso. exact (Hnone h' t L R).
  - destruct (0 <=? dt); [|discriminate]. inversion H; subst.
    destruct Hs as [[f hb rc] [a b c]]. split; split; simpl; auto.
Qed.

Lemma boot_sound cfg : sound (boot cfg).
Proof.
  split; [apply boot_consistent|]. split; simpl; intros; discriminate.
Qed.

Lemma steps_sound evs : forall s s', steps evs s = Some s' -> sound s -> sound s'.
Proof.
  induction evs as [|ev evs IH]; simpl; intros s s' H Hs.
  - now inversion H; subst.
  - destruct (step ev s) as [s1|] eqn:E; [|discriminate].
    eapply IH; [exact H|]. eapply step_sound; eauto.
Qed.

Lemma reachable_sound cfg s : reachable cfg s -> sound s.
Proof. intros [evs H]. eapply steps_sound; [exact H|apply boot_sound]. Qed.

Lemma step_punctual ev s s' : step ev s = Some s' -> punctual s -> punctual s'.
Proof.
  intros H P. apply step_advances in H as [c k f t _].
  intros h tm L R. unfold retry_delay. rewrite c.
  destruct (t h tm L) as [L'|[L'|(_ & D & _)]]; [|congruence|lia].
  specialize (P h tm L' R). unfold retry_delay in P. lia.
Qed.

Lemma steps_punctual evs : forall s s', steps evs s = Some s' -> punctual s -> punctual s'.
Proof.
  induction evs as [|ev evs IH]; simpl; intros s s' H Hs.
  - now inversion H; subst.
  - destruct (step ev s) as [s1|] eqn:E; [|discriminate].
    eapply IH; [exact H|]. eapply step_punctual; eauto.
Qed.

Lemma reachable_punctual cfg s : reachable cfg s -> punctual s.
Proof.
  intros [evs H]. eapply steps_punctual; [exact H|].
  intros h t L. simpl in L. rewrite lookup_empty in L. discriminate.
Qed.

Lemma close_listener_pending s h :
  reconnectTimer (this s) = Some h ->
  let s' := exec close_listener s in
  reconnectTimer (this s') = Some h
  /\ timers (rt s')
     = match heartbeatTimer (this s) with
       | Some hb => delete hb (timers (rt s))
       | None => timers (rt s)
       end.
Proof.
  intros Ht. unfold exec, spawn, try_catch, close_listener, cleanup, clearHeartbeat,
    scheduleReconnect, bind, self, log, emit, note, runtime, update. simpl.
  destruct (heartbeatTimer (this s)) as [h0|]; simpl;
    destruct (shouldReconnect (this s)); simpl; rewrite ?Ht; simpl;
    (split; [first [exact Ht|reflexivity]|reflexivity]).
Qed.

Lemma close_pending ws s s1 h :
  sound s -> reconnectTimer (this s) = Some h -> step (Close ws) s = Some s1 ->
  exists tm, timers (rt s) !! h = Some tm /\ run tm = reconnect_callback
    /\ reconnectTimer (this s1) = Some h
    /\ timers (rt s1) !! h = Some tm
    /\ forall h' t', timers (rt s1) !! h' = Some t' -> timers (rt s) !! h' = Some t'.
Proof.
  intros [C [a b c]] Hh Hs. destruct (b h Hh) as (tm & L & R).
  destruct (step_close_inv ws s s1 Hs) as [sk ->].
  destruct (close_listener_pending (put_socket ws sk s) h Hh) as [H1 H2].
  exists tm. split; [exact L|]. split; [exact R|]. split; [exact H1|].
  rewrite H2. cbn [put_socket this rt set_sockets timers].
  destruct (heartbeatTimer (this s)) as [hb|] eqn:E.
  - split.
    + apply lookup_delete_Some. split; [exact (c hb h eq_refl Hh)|exact L].
    + intros h' t' L'. now apply lookup_delete_Some in L' as [_ L'].
  - split; [exact L|auto].
Qed.

Lemma close_quiet_pending ws s s' h tm :
  consistent s -> punctual s ->
  reconnectTimer (this s) = Some h ->
  timers (rt s) !! h = Some tm -> run tm = reconnect_callback ->
  step (Close ws) s = Some s' ->
  quiet_until (due tm) (length (trace (rt s))) s'.
Proof.
  intros [_ _ rc] P Hh L R H. pose proof (P h tm L R) as D. unfold retry_delay in D.
  apply step_advances in H as [c k f t (a & e & i)]. split.
  - rewrite e, length_app. lia.
  - rewrite c. lia.
  - intros h' tm' L' R'. destruct (t h' tm' L') as [L0|[L0|(_ & D' & _)]].
    + pose proof (rc _ _ L0 R') as E. rewrite Hh in E. inversion E; subst h'.
      rewrite L in L0. inversion L0; subst. apply Z.le_refl.
    + congruence.
    + lia.
  - intros x Hx. rewrite e, drop_app_length in Hx.
    destruct (i x Hx) as (_ & h0 & tm0 & F & _). discriminate.
Qed.

(** C8 (as amended): a socket closes in a reachable state while
    [shouldReconnect] is true.  When no reconnect timer is pending at the
    close, one is armed, due one retry interval after the close, and
    whatever happens next, an automatic [connect] is made no earlier than
    that.  When a reconnect timer is pending at the close, left by an
    earlier failure, it stays the only one, the close arms nothing, and an
    automatic [connect] is made no earlier than this timer is due, which is
    at most one retry interval after the close.  While a reconnect
    timer is pending, a scheduling request changes nothing.  And whenever
    [disconnect] is called afterwards, [shouldReconnect] becomes false, no
    reconnect timer stays armed, and no automatic [connect] is made ever
    after. *)
Theorem reconnect_waits_disconnect_cancels cfg s ws s1 :
  reachable cfg s ->
  shouldReconnect (this s) = true ->
  step (Close ws) s = Some s1 ->
  (reconnectTimer (this s) = None ->
     reconnectTimer (this s1) = Some (next (rt s))
     /\ timers (rt s1) !! next (rt s)
        = Some {| run := reconnect_callback; due := clock (rt s) + retry_delay s |}
     /\ forall evs s2 t, steps evs s1 = Some s2 ->
          In (t, Invoked_connect true) (produced s s2) ->
          clock (rt s) + retry_delay s <= t)
  /\ (forall h, reconnectTimer (this s) = Some h ->
        exists tm, timers (rt s) !! h = Some tm
          /\ run tm = reconnect_callback
          /\ due tm <= clock (rt s) + retry_delay s
          /\ reconnectTimer (this s1) = Some h
          /\ timers (rt s1) !! h = Some tm
          /\ (forall h' tm', timers (rt s1) !! h' = Some tm' ->
                run tm' = reconnect_callback -> h' = h)
          /\ forall evs s2 t, steps evs s1 = Some s2 ->
               In (t, Invoked_connect true) (produced s s2) ->
               due tm <= t)
  /\ (forall evs s2 h, steps evs s1 = Some s2 ->
        reconnectTimer (this s2) = Some h -> scheduleReconnect s2 = (Ret tt, s2))
  /\ (forall evs s2 s3, steps evs s1 = Some s2 -> step Call_disconnect s2 = Some s3 ->
        shouldReconnect (this s3) = false
        /\ reconnectTimer (this s3) = None
        /\ (forall h t, timers (rt s3) !! h = Some t -> run t <> reconnect_callback)
        /\ forall evs' s4 t, steps evs' s3 = Some s4 ->
             ~ In (t, Invoked_connect true) (produced s2 s4)).
Proof.
  intros Hr Hf Hs. pose proof (reachable_consistent cfg s Hr) as Hc.
  pose proof (step_consistent _ _ _ Hs Hc) as Hc1.
  split; [|split; [|split]].
  - intros Hn. destruct (step_close_inv ws s s1 Hs) as [sk ->].
    destruct (close_listener_schedules (put_socket ws sk s) Hf Hn) as [H1 H2].
    split; [exact H1|]. split; [exact H2|].
    intros evs s2 t Hs2 Hin.
    pose proof (close_quiet ws s _ Hc Hn Hs) as Hq.
    pose proof (steps_quiet _ _ evs _ _ Hs2 Hq) as Hq2.
    exact (q_trace _ _ _ Hq2 t Hin).
  - intros h Hh. pose proof (reachable_punctual cfg s Hr) as P.
    destruct (close_pending ws s s1 h (reachable_sound cfg s Hr) Hh Hs)
      as (tm & L & R & H1 & L1 & _).
    exists tm. split; [exact L|]. split; [exact R|]. split; [exact (P h tm L R)|].
    split; [exact H1|]. split; [exact L1|]. split.
    + intros h' tm' L' R'. pose proof (one_reconnect _ Hc1 _ _ L' R') as E. congruence.
    + intros evs s2 t Hs2 Hin.
      pose proof (close_quiet_pending ws s _ h tm Hc P Hh L R Hs) as Hq.
      pose proof (steps_quiet _ _ evs _ _ Hs2 Hq) as Hq2.
      exact (q_trace _ _ _ Hq2 t Hin).
  - intros evs s2 h _ Hh. now apply (scheduleReconnect_pending s2 h).
  - intros evs s2 s3 Hs2 Hd. rewrite step_disconnect in Hd. inversion Hd; subst s3.
    pose proof (steps_consistent evs _ _ Hs2 Hc1) as Hc2.
    destruct (disconnect_off s2 Hc2) as (H1 & H2 & _ & H4).
    split; [exact H1|]. split; [exact H2|].
    split; [exact (off_timers _ _ H4)|].
    intros evs' s4 t Hs4.
    exact (off_trace _ _ (steps_off _ evs' _ _ Hs4 H4) t).
Qed.

Lemma reconnect_waits_witness :
  exists s,
    steps [Call_connect; Open 0%nat] (boot demo) = Some s
    /\ exists s1,
         step (Close 0%nat) s = Some s1
         /\ timers (rt s1) !! 1%nat = Some {| run := reconnect_callback; due := 3000 |}
         /\ (forall evs s2 t, steps evs s1 = Some s2 ->
               In (t, Invoked_connect true) (produced s s2) -> 3000 <= t)
         /\ (exists s2, steps [Tick 3000; Fire 1%nat] s1 = Some s2
               /\ In (3000, Invoked_connect true) (produced s s2))
         /\ (forall evs s4 t, steps (Call_disconnect :: evs) s1 = Some s4 ->
               ~ In (t, Invoked_connect true) (produced s1 s4)).
Proof.
  eexists. split; [vm_compute; reflexivity|].
  eexists. split; [vm_compute; reflexivity|].
  match goal with |- _ /\ (forall evs s2 t, steps evs ?s1 = _ -> In _ (produced ?s _) -> _) /\ _ =>
    destruct (reconnect_waits_disconnect_cancels demo s 0%nat s1) as (H1 & _ & _ & H3);
      [exists [Call_connect; Open 0%nat]; vm_compute; reflexivity
      |reflexivity|vm_compute; reflexivity|];
    destruct (H1 eq_refl) as (_ & A & B)
  end.
  split; [exact A|]. split; [exact B|]. split.
  - eexists. split; [vm_compute; reflexivity|]. vm_compute. tauto.
  - intros evs s4 t Hs. cbn [steps] in Hs. rewrite step_disconnect in Hs.
    exact (proj2 (proj2 (proj2 (H3 [] _ _ eq_refl (step_disconnect _)))) evs s4 t Hs).
Defined.

(** C8 (as stated) fails: the connection fails, which arms the reconnect
    timer, due at 3000; the socket closes at 2999; the timer fires at 3000,
    one time-unit after the close, and [connect] is invoked, although the
    retry interval is 3000 time-units. *)
Lemma reconnect_before_the_interval :
  exists s s1 s2,
    steps [Call_connect; Failure 0%nat (Error "reset"); Tick 2999] (boot demo) = Some s
    /\ shouldReconnect (this s) = true
    /\ clock (rt s) = 2999
    /\ retry_delay s = 3000
    /\ step (Close 0%nat) s = Some s1
    /\ steps [Tick 1; Fire 1%nat] s1 = Some s2
    /\ produced s1 s2 = [(3000, Logged Info "Reconnecting..."); (3000, Invoked_connect true);
                          (3000, Emitted reconnecting)]
    /\ In (3000, Invoked_connect true) (produced s s2).
Proof.
  do 3 eexists. split; [vm_compute; reflexivity|].
  split; [reflexivity|]. split; [reflexivity|]. split; [reflexivity|].
  split; [vm_compute; reflexivity|]. split; [vm_compute; reflexivity|].
  split; [vm_compute; reflexivity|]. vm_compute. tauto.
Qed.

(** *** The listeners and the timers, one event at a time *)

Lemma step_open_inv ws s s' :
  step (Open ws) s = Some s' ->
  exists sk, sockets (rt s) !! ws = Some sk /\ state sk = CONNECTING
    /\ s' = exec open_listener
              (put_socket ws {| state := OPEN; opened := true;
                                once_error := once_error sk |} s).
Proof.
  cbn [step]. destruct (sockets (rt s) !! ws) as [sk|]; [|discriminate].
  destruct (state sk) eqn:E; intros H; inversion H. eauto.
Qed.

Lemma open_socket_put ws sk s :
  websocket (this s) = Some ws -> state sk = OPEN ->
  open_socket (put_socket ws sk s) = Some ws.
Proof.
  intros Hw Hs. unfold open_socket, put_socket, readyState_of. cbn.
  rewrite Hw, lookup_insert_eq, Hs. reflexivity.
Qed.

Lemma sendAuthMessage_open s ws :
  open_socket s = Some ws ->
  sendAuthMessage s = (Ret tt, after_send ws (authentication (config (this s))) s).
Proof.
  intros Ho. unfold sendAuthMessage, bind, self.
  apply send_open with (ty := 1); [exact Ho|reflexivity].
Qed.

Lemma spawn_ret c s s' : c s = (Ret tt, s') -> spawn c s = (Ret tt, s').
Proof. unfold spawn, try_catch. intros H. now rewrite H. Qed.

(** X1: when the socket in use opens, the client leaves the connecting
    state, tells its listeners that it is connected and then sends one
    envelope, the authentication: type 1 with the token and the
    application id of the configuration, stamped with the next sequence
    number. *)
Theorem open_sends_authentication s ws s' :
  websocket (this s) = Some ws ->
  step (Open ws) s = Some s' ->
  this s' = set_seq (seq (this s) + 1) (set_isConnecting false (this s))
  /\ readyState_of (rt s') ws = Some OPEN
  /\ map snd (produced s s')
     = [Logged Info "WebSocket connection established"; Emitted connected;
        Sent ws (WebSocketMessage.encode (stamped s (authentication (config (this s)))));
        Logged Debug "> Sent:"]
  /\ envelopes (produced s s') = [Some (stamped s (authentication (config (this s))))].
Proof.
  intros Hw Hs. destruct (step_open_inv ws s s' Hs) as (sk & Hk & Hc & ->).
  set (s0 := put_socket ws {| state := OPEN; opened := true; once_error := once_error sk |} s).
  set (s1 := noted (Emitted connected)
               (noted (Logged Info "WebSocket connection established")
                  {| this := set_isConnecting false (this s0); rt := rt s0 |})).
  assert (Ho : open_socket s1 = Some ws) by (now apply (open_socket_put ws _ s)).
  assert (E : exec open_listener s0 = after_send ws (authentication (config (this s))) s1).
  { apply exec_ret. change (open_listener s0) with (spawn sendAuthMessage s1).
    apply spawn_ret. exact (sendAuthMessage_open s1 ws Ho). }
  rewrite E. split; [reflexivity|]. split.
  { unfold readyState_of. cbn. now rewrite lookup_insert_eq. }
  assert (P : produced s (after_send ws (authentication (config (this s))) s1)
              = ([(clock (rt s), Logged Info "WebSocket connection established");
                  (clock (rt s), Emitted connected)]
                 ++ sent_now s ws (authentication (config (this s))))%list).
  { apply produced_app. cbn. now rewrite <- !app_assoc. }
  rewrite P. split; [reflexivity|].
  unfold envelopes. rewrite frames_of_app, frames_sent_now.
  change (frames_of _) with (@nil string). cbn [app map]. now rewrite decode_stamped.
Qed.

Lemma handleMessage_unknown m :
  (forall t, WebSocketMessage.type m = Some t -> ~ In t known_types) ->
  handleMessage m = log Warn "Unknown message type".
Proof.
  intros H. unfold handleMessage.
  destruct (WebSocketMessage.type m) as [z|]; [|reflexivity].
  specialize (H z eq_refl).
  destruct z as [|p|p]; try reflexivity.
  repeat (destruct p as [p|p|]; try reflexivity);
    exfalso; apply H; cbn; tauto.
Qed.


Lemma open_sends_authentication_witness :
  exists s s',
    steps [Call_connect] (boot demo) = Some s
    /\ step (Open 0%nat) s = Some s'
    /\ seq (this s') = 1
    /\ types_sent (produced s s') = [Some 1]
    /\ emitted (produced s s') = [connected].
Proof.
  do 2 eexists. split; [vm_compute; reflexivity|]. split; [vm_compute; reflexivity|].
  match goal with |- seq (this ?s') = _ /\ types_sent (produced ?s _) = _ /\ _ =>
    destruct (open_sends_authentication s 0%nat s' eq_refl) as (H1 & _ & H3 & H4);
      [vm_compute; reflexivity|]
  end.
  split; [now rewrite H1|]. split.
  - unfold types_sent. now rewrite H4.
  - unfold emitted. apply (f_equal (map (fun e => (0, e)))) in H3. vm_compute. reflexivity.
Defined.

Lemma handle_metadata_open s ws m :
  WebSocketMessage.type m = Some 138 -> open_socket s = Some ws ->
  handleMessage m s = (Ret tt, after_send ws (metadata (config (this s))) s).
Proof.
  intros Ht Ho. unfold handleMessage. rewrite Ht. unfold bind, self.
  apply send_open with (ty := 12); [exact Ho|reflexivity].
Qed.

Lemma handle_metadata_closed s m :
  WebSocketMessage.type m = Some 138 -> open_socket s = None ->
  handleMessage m s = (Throw not_connected, s).
Proof.
  intros Ht Ho. unfold handleMessage. rewrite Ht. unfold bind, self.
  now rewrite send_closed.
Qed.

(** X2: an inbound envelope of type 138, processed while the socket is
    open, is answered by one envelope of type 12 whose data hold the user
    agent (application name and version) and the additional information
    (user id and seller id) of the configuration; while the socket is
    absent or not open, [send] throws and nothing changes. *)
Theorem metadata_request_answered s m :
  WebSocketMessage.type m = Some 138 ->
  (forall ws, open_socket s = Some ws ->
     exists s', handleMessage m s = (Ret tt, s')
       /\ envelopes (produced s s') = [Some (stamped s (metadata (config (this s))))]
       /\ emitted (produced s s') = []
       /\ seq (this s') = seq (this s) + 1)
  /\ (open_socket s = None -> handleMessage m s = (Throw not_connected, s)).
Proof.
  intros Ht. split.
  - intros ws Ho. rewrite (handle_metadata_open s ws m Ht Ho).
    eexists. split; [reflexivity|]. rewrite produced_after_send.
    split; [|split; reflexivity].
    apply envelopes_sent_now. reflexivity.
  - now apply handle_metadata_closed.
Qed.

Lemma metadata_request_answered_witness :
  exists s, steps [Call_connect; Open 0%nat] (boot demo) = Some s
    /\ exists s', handleMessage (reply 138) s = (Ret tt, s')
         /\ types_sent (produced s s') = [Some 12].
Proof.
  eexists. split; [vm_compute; reflexivity|].
  match goal with |- exists s', handleMessage _ ?s = _ /\ _ =>
    destruct (proj1 (metadata_request_answered s (reply 138) eq_refl) 0%nat eq_refl)
      as (s' & H1 & H2 & _)
  end.
  exists s'. split; [exact H1|]. unfold types_sent. now rewrite H2.
Defined.

Lemma produced_noted2 e1 e2 s :
  produced s (noted e2 (noted e1 s)) = [(clock (rt s), e1); (clock (rt s), e2)].
Proof. apply produced_app. cbn. now rewrite <- app_assoc. Qed.

Lemma produced_noted e s : produced s (noted e s) = [(clock (rt s), e)].
Proof. now apply produced_app. Qed.

(** X3: an inbound envelope whose type is none of 2, 4, 129, 132, 138 and
    140 (or that has no numeric type) only leaves a warning in the log:
    the fields of the client, the sockets and the timers stay as they are,
    nothing is sent and nothing is given to the listeners. *)
Theorem unknown_type_only_warns m s :
  (forall t, WebSocketMessage.type m = Some t -> ~ In t known_types) ->
  exists what,
    handleMessage m s = (Ret tt, noted (Logged Warn what) s)
    /\ forall ws data s',
         WebSocketMessage.decode data = Some m ->
         step (Message ws data) s = Some s' ->
         this s' = this s
         /\ sockets (rt s') = sockets (rt s)
         /\ timers (rt s') = timers (rt s)
         /\ frames_of (produced s s') = []
         /\ emitted (produced s s') = [].
Proof.
  intros H. exists "Unknown message type".
  rewrite (handleMessage_unknown m H). split; [reflexivity|].
  intros ws data s' Hd. cbn [step].
  destruct (readyState_of (rt s) ws) as [[]|]; try discriminate;
    rewrite (message_listener_decoded data m Hd);
    rewrite (handleMessage_unknown m H);
    intros E; inversion E; subst s';
    change (exec _ s) with (noted (Logged Warn "Unknown message type")
                              (noted (Logged Debug "< Received:") s));
    rewrite produced_noted2; repeat split; reflexivity.
Qed.

Lemma unknown_type_only_warns_witness :
  exists s s',
    steps [Call_connect; Open 0%nat] (boot demo) = Some s
    /\ step (Message 0%nat (WebSocketMessage.encode (reply 7))) s = Some s'
    /\ this s' = this s
    /\ frames_of (produced s s') = [].
Proof.
  do 2 eexists. split; [vm_compute; reflexivity|]. split; [vm_compute; reflexivity|].
  match goal with |- this ?s' = this ?s /\ _ =>
    destruct (unknown_type_only_warns (reply 7) s) as (what & _ & H)
  end.
  - intros t E. inversion E; subst t. cbn. intuition discriminate.
  - match goal with |- this ?s' = this ?s /\ _ =>
      destruct (H 0%nat (WebSocketMessage.encode (reply 7)) s') as (A & _ & _ & B & _);
        [vm_compute; reflexivity|vm_compute; reflexivity|]
    end.
    split; [exact A|exact B].
Defined.

Lemma answered_refl s : answered s s.
Proof.
  split; auto. exists []. rewrite app_nil_r. cbn. repeat split; lia.
Qed.

Lemma answered_noted_r e s s1 :
  (forall ws f, e <> Sent ws f) -> answered s s1 -> answered s (noted e s1).
Proof.
  intros He [c w i f r k cl tm (added & E & L & Q)]. split; auto.
  exists (added ++ [(clock (rt s1), e)])%list. cbn.
  rewrite E, <- app_assoc, frames_of_app.
  assert (F : frames_of [(clock (rt s1), e)] = []).
  { destruct e; try reflexivity. exfalso. eapply He. reflexivity. }
  rewrite F, app_nil_r. auto.
Qed.

Lemma answered_noted_l e s s1 :
  (forall ws f, e <> Sent ws f) -> answered (noted e s) s1 -> answered s s1.
Proof.
  intros He [c w i f r k cl tm (added & E & L & Q)]. split; auto.
  exists ((clock (rt s), e) :: added). cbn in E. rewrite E, <- app_assoc. cbn [app].
  assert (F : frames_of ((clock (rt s), e) :: added) = frames_of added).
  { destruct e; try reflexivity. exfalso. eapply He. reflexivity. }
  rewrite F. auto.
Qed.

Lemma answered_after_send ws data s : answered s (after_send ws data s).
Proof.
  split; auto. exists (sent_now s ws data). repeat split; cbn; lia.
Qed.

Lemma answered_send data s : answered s (snd (send data s)).
Proof.
  destruct (open_socket s) as [ws|] eqn:Ho.
  - destruct (WebSocketMessage.type data) as [ty|] eqn:Ht.
    + rewrite (send_open s ws data ty Ho Ht). apply answered_after_send.
    + destruct (send_untyped s data Ht) as [e ->]. apply answered_refl.
  - rewrite (send_closed s data Ho). apply answered_refl.
Qed.

Lemma answered_startHeartbeat d s : answered s (snd (startHeartbeat d s)).
Proof.
  unfold startHeartbeat, clearHeartbeat, bind, self, update, setTimeout, clearTimeout, runtime.
  cbn. destruct (heartbeatTimer (this s)) as [h0|]; cbn.
  - split; auto.
    + cbn. intros h t L R. apply lookup_insert_Some in L as [[_ <-]|[_ L]]; [discriminate|].
      now apply lookup_delete_Some in L as [_ L].
    + exists []. rewrite app_nil_r. cbn. repeat split; lia.
  - split; auto.
    + cbn. intros h t L R. apply lookup_insert_Some in L as [[_ <-]|[_ L]]; [discriminate|].
      exact L.
    + exists []. rewrite app_nil_r. cbn. repeat split; lia.
Qed.

Lemma answered_handleMessage m s : answered s (snd (handleMessage m s)).
Proof.
  destruct (WebSocketMessage.type m) as [z|] eqn:T.
  - destruct (in_dec Z.eq_dec z known_types) as [I|N].
    + cbn in I.
      destruct I as [<-|[<-|[<-|[<-|[<-|[<-|[]]]]]]]; unfold handleMessage; rewrite T.
      * unfold bind.
        match goal with |- context [send ?d s] =>
          pose proof (answered_send d s) as A; destruct (send d s) as [[[]|e] s1]
        end; [|exact A]. cbn [snd] in *.
        destruct (is_push m); [|exact A].
        apply answered_noted_r; [discriminate|exact A].
      * apply answered_send.
      * unfold bind, self. destruct (WebSocketMessage.secureKey m); [apply answered_send|].
        apply answered_refl.
      * apply answered_startHeartbeat.
      * unfold bind, self. apply answered_send.
      * apply answered_startHeartbeat.
    + rewrite handleMessage_unknown.
      * apply (answered_noted_r _ s s); [discriminate|apply answered_refl].
      * intros t E. rewrite T in E. now inversion E; subst.
  - rewrite handleMessage_unknown.
    + apply (answered_noted_r _ s s); [discriminate|apply answered_refl].
    + intros t E. rewrite T in E. discriminate.
Qed.

Lemma answered_spawn c s : answered s (snd (c s)) -> answered s (snd (spawn c s)).
Proof.
  unfold spawn, try_catch. destruct (c s) as [[[]|e] s1]; cbn [snd]; [auto|].
  intros A. apply (answered_noted_r _ s s1); [discriminate|exact A].
Qed.

Lemma step_message_inv ws data s s' :
  step (Message ws data) s = Some s' ->
  exists c, message_listener data = Some c /\ s' = exec c s.
Proof.
  cbn [step]. destruct (readyState_of (rt s) ws) as [[]|]; try discriminate;
    destruct (message_listener data) as [c|]; try discriminate;
    intros H; inversion H; eauto.
Qed.

Lemma listener_answered data c s :
  message_listener data = Some c ->
  answered s (exec c s)
  /\ (parse data = None -> exists what, exec c s = noted (Logged Err what) s).
Proof.
  intros G. destruct (message_listener_inv data c G) as [[_ ->]|(h & P & -> & Hh)].
  - split.
    + apply (answered_noted_r _ s s); [discriminate|apply answered_refl].
    + intros _. eexists. reflexivity.
  - split; [|intros P'; now elim P].
    apply (answered_noted_l (Logged Debug "< Received:")); [discriminate|].
    change (exec _ s) with
      (snd (spawn (spawn h) (noted (Logged Debug "< Received:") s))).
    do 2 apply answered_spawn. destruct Hh as [->|[m ->]].
    + apply answered_refl.
    + apply answered_handleMessage.
Qed.




(** X5: a frame that is not JSON only leaves an error in the log: the
    client, the sockets and the timers stay as they are, and nothing is
    sent in answer. *)
Theorem malformed_frame_dropped ws data s s' :
  parse data = None ->
  step (Message ws data) s = Some s' ->
  (exists what, s' = noted (Logged Err what) s)
  /\ this s' = this s
  /\ sockets (rt s') = sockets (rt s)
  /\ timers (rt s') = timers (rt s)
  /\ frames_of (produced s s') = []
  /\ emitted (produced s s') = [].
Proof.
  intros N H. destruct (step_message_inv ws data s s' H) as (c & G & ->).
  destruct (proj2 (listener_answered data c s G) N) as [what E].
  rewrite E, produced_noted. split; [eauto|]. repeat split; reflexivity.
Qed.

Lemma malformed_frame_dropped_witness :
  exists s s',
    steps [Call_connect; Open 0%nat] (boot demo) = Some s
    /\ step (Message 0%nat "{not json") s = Some s'
    /\ this s' = this s
    /\ frames_of (produced s s') = [].
Proof.
  do 2 eexists. split; [vm_compute; reflexivity|]. split; [vm_compute; reflexivity|].
  match goal with |- this ?s' = this ?s /\ _ =>
    destruct (malformed_frame_dropped 0%nat "{not json" s s' eq_refl)
      as (_ & A & _ & _ & B & _); [vm_compute; reflexivity|]
  end.
  split; [exact A|exact B].
Defined.

(** The machine in which [connect] has just made a socket *)
Lemma connect_new a s :
  isConnecting (this s) = false -> websocket_open s = false ->
  connect a s
  = (Ret tt,
     {| this := set_websocket (Some (next (rt s))) (set_isConnecting true (this s));
        rt := set_next (S (next (rt s)))
                (set_sockets (<[next (rt s) := {| state := CONNECTING; opened := false;
                                                  once_error := true |}]> (sockets (rt s)))
                   (set_trace ((trace (rt s) ++ [(clock (rt s), Invoked_connect a)])
                               ++ [(clock (rt s), Emitted reconnecting)])%list
                      (rt s))) |}).
Proof.
  intros Hc Ho. unfold connect, bind.
  change (note (Invoked_connect a) s) with (Ret tt, noted (Invoked_connect a) s).
  cbv iota beta.
  change (isConnecting (this (noted (Invoked_connect a) s))) with (isConnecting (this s)).
  change (websocket_open (noted (Invoked_connect a) s)) with (websocket_open s).
  rewrite Hc, Ho. reflexivity.
Qed.

Lemma connect_guard a s :
  isConnecting (this s) = true \/ websocket_open s = true ->
  connect a s = (Ret tt, noted (Invoked_connect a) s).
Proof.
  intros H. unfold connect, bind.
  change (note (Invoked_connect a) s) with (Ret tt, noted (Invoked_connect a) s).
  cbv iota beta.
  change (isConnecting (this (noted (Invoked_connect a) s))) with (isConnecting (this s)).
  change (websocket_open (noted (Invoked_connect a) s)) with (websocket_open s).
  destruct H as [-> | ->]; [reflexivity|]. now rewrite orb_true_r.
Qed.

(** X6: [connect] called while an attempt is pending or while the socket
    in use is open changes nothing: no socket is made and nothing is given
    to the listeners.  Otherwise it makes exactly one new socket, which
    becomes the socket in use, marks the attempt as pending and emits
    [reconnecting]; it sends nothing and leaves the sequence counter. *)
Theorem connect_makes_one_socket s :
  (isConnecting (this s) = true \/ websocket_open s = true ->
     this (exec (connect false) s) = this s
     /\ sockets (rt (exec (connect false) s)) = sockets (rt s)
     /\ emitted (produced s (exec (connect false) s)) = [])
  /\ (isConnecting (this s) = false -> websocket_open s = false ->
     let s' := exec (connect false) s in
     isConnecting (this s') = true
     /\ websocket (this s') = Some (next (rt s))
     /\ sockets (rt s')
        = <[next (rt s) := {| state := CONNECTING; opened := false; once_error := true |}]>
            (sockets (rt s))
     /\ seq (this s') = seq (this s)
     /\ emitted (produced s s') = [reconnecting]
     /\ frames_of (produced s s') = []).
Proof.
  split.
  - intros H. rewrite (exec_ret _ _ _ (connect_guard false s H)), produced_noted.
    repeat split; reflexivity.
  - intros Hc Ho. cbv zeta. rewrite (exec_ret _ _ _ (connect_new false s Hc Ho)).
    erewrite produced_app; [|cbn; now rewrite <- app_assoc]. repeat split; reflexivity.
Qed.

Lemma heartbeat_closed_state s :
  open_socket s = None ->
  exec heartbeat s = noted (Logged Err "Heartbeat failed:") s.
Proof.
  intros Ho. apply exec_ret. unfold heartbeat, try_catch.
  now rewrite (send_closed _ _ Ho).
Qed.

(** X7: the heartbeat timer is one-shot.  When it fires it is gone and no
    timer is armed in its place, whether the ping could be sent or not;
    when the socket is absent or not open, the failure is logged and that
    is all: the client does not change, nothing is sent, no reconnection
    is started. *)
Theorem heartbeat_fires_once h t s s' :
  timers (rt s) !! h = Some t -> run t = heartbeat_callback ->
  step (Fire h) s = Some s' ->
  timers (rt s') = delete h (timers (rt s))
  /\ answered s s'
  /\ (open_socket s = None ->
      this s' = this s /\ frames_of (produced s s') = [] /\ emitted (produced s s') = []
      /\ exists what, produced s s' = [(clock (rt s), Logged Err what)]).
Proof.
  intros Hh Hr Hs. split; [exact (fire_heartbeat_once h t s s' Hh Hr Hs)|].
  assert (Hd : due t <= clock (rt s)).
  { cbn [step] in Hs. rewrite Hh in Hs.
    destruct (due t <=? clock (rt s)) eqn:E; [now apply Z.leb_le|discriminate]. }
  rewrite (step_fire h t s Hh Hd), Hr in Hs. cbn [fire] in Hs. inversion Hs; subst s'.
  set (s0 := {| this := this s; rt := set_timers (delete h (timers (rt s))) (rt s) |}).
  destruct (open_socket s) as [ws|] eqn:Ho.
  - assert (Ho0 : open_socket s0 = Some ws) by exact Ho.
    rewrite (exec_ret _ _ _ (heartbeat_open s0 ws Ho0)). split; [|discriminate].
    pose proof (answered_after_send ws (reply 4) s0) as [c w i f r k cl tm tr].
    split; auto. intros h' t' L R. specialize (tm h' t' L R). cbn in tm.
    now apply lookup_delete_Some in tm as [_ tm].
  - assert (Ho0 : open_socket s0 = None) by exact Ho.
    rewrite (heartbeat_closed_state s0 Ho0). split.
    + split; auto.
      * cbn. intros h' t' L R. now apply lookup_delete_Some in L as [_ L].
      * exists [(clock (rt s), Logged Err "Heartbeat failed:")]. cbn. repeat split; lia.
    + intros _. change (produced s (noted (Logged Err "Heartbeat failed:") s0))
        with (produced s0 (noted (Logged Err "Heartbeat failed:") s0)).
      rewrite produced_noted. repeat split; try reflexivity. eexists. reflexivity.
Qed.

Lemma heartbeat_fires_once_witness :
  exists s s',
    steps [Call_connect; Open 0%nat;
           Message 0%nat (WebSocketMessage.encode (reply 132));
           Failure 0%nat (Error "reset"); Tick 60000] (boot demo) = Some s
    /\ step (Fire 1%nat) s = Some s'
    /\ timers (rt s') = delete 1%nat (timers (rt s))
    /\ frames_of (produced s s') = [].
Proof.
  do 2 eexists. split; [vm_compute; reflexivity|]. split; [vm_compute; reflexivity|].
  match goal with |- timers (rt ?s') = delete _ (timers (rt ?s)) /\ _ =>
    destruct (heartbeat_fires_once 1%nat {| run := heartbeat_callback; due := 60000 |} s s')
      as (A & _ & B); [vm_compute; reflexivity|reflexivity|vm_compute; reflexivity|]
  end.
  split; [exact A|]. exact (proj1 (proj2 (B eq_refl))).
Defined.

Lemma step_failure_inv ws e s s' :
  step (Failure ws e) s = Some s' ->
  exists sk, sockets (rt s) !! ws = Some sk /\ state sk <> CLOSED
    /\ s' = exec (error_listeners ws e) (put_socket ws (set_state CLOSING sk) s).
Proof.
  cbn [step]. destruct (sockets (rt s) !! ws) as [sk|]; [|discriminate].
  destruct (state sk) eqn:E; intros H; inversion H; exists sk;
    (split; [reflexivity|split; [congruence|reflexivity]]).
Qed.

(** X8: when a socket fails before its connection was established (the
    promise of [connect] is pending), the attempt is over
    ([isConnecting] is false) and the listeners of ['error'] are called
    twice with the same error, once by the socket's error listener and
    once by the [catch] block of [connect]; nothing is sent.  A reconnect
    timer is armed, one retry interval from now, exactly when
    [shouldReconnect] is true and no reconnect timer is pending. *)
Theorem failed_attempt_reported_twice ws e s s' sk :
  sockets (rt s) !! ws = Some sk ->
  opened sk = false -> once_error sk = true ->
  step (Failure ws e) s = Some s' ->
  isConnecting (this s') = false
  /\ emitted (produced s s') = [error_notice e; error_notice e]
  /\ frames_of (produced s s') = []
  /\ readyState_of (rt s') ws = Some CLOSING
  /\ (shouldReconnect (this s) = true -> reconnectTimer (this s) = None ->
      reconnectTimer (this s') = Some (next (rt s))
      /\ timers (rt s')
         = <[next (rt s) := {| run := reconnect_callback;
                               due := clock (rt s) + retry_delay s |}]> (timers (rt s)))
  /\ (shouldReconnect (this s) = false \/ reconnectTimer (this s) <> None ->
      reconnectTimer (this s') = reconnectTimer (this s)
      /\ timers (rt s') = timers (rt s)).
Proof.
  intros Hk Hop Hon Hs. destruct (step_failure_inv ws e s s' Hs) as (sk' & Hk' & Hc & ->).
  rewrite Hk in Hk'. inversion Hk'; subst sk'. clear Hk'.
  destruct s as [[cfg w sq hb rc ic sr] r].
  unfold exec, spawn, try_catch, error_listeners, connect_catch, scheduleReconnect,
    bind, self, log, emit, note, runtime, update, put_socket, setTimeout, produced,
    readyState_of, retry_delay. cbn.
  rewrite lookup_insert_eq. cbn. rewrite Hon, Hop. cbn.
  destruct sr, rc as [h0|]; cbn; rewrite ?lookup_insert_eq;
    repeat rewrite <- app_assoc; rewrite drop_app_length; cbn;
    (split; [reflexivity|]); (split; [reflexivity|]); (split; [reflexivity|]);
    (split; [reflexivity|]); split; intros; try discriminate;
    try (split; reflexivity); try (exfalso; intuition congruence).
Qed.

Lemma failed_attempt_witness :
  exists s s',
    steps [Call_connect] (boot demo) = Some s
    /\ step (Failure 0%nat (Error "refused")) s = Some s'
    /\ emitted (produced s s') = [error_notice (Error "refused"); error_notice (Error "refused")]
    /\ reconnectTimer (this s') = Some 1%nat
    /\ timers (rt s') !! 1%nat = Some {| run := reconnect_callback; due := 3000 |}.
Proof.
  do 2 eexists. split; [vm_compute; reflexivity|]. split; [vm_compute; reflexivity|].
  match goal with |- emitted (produced ?s ?s') = _ /\ _ =>
    destruct (failed_attempt_reported_twice 0%nat (Error "refused") s s'
                {| state := CONNECTING; opened := false; once_error := true |})
      as (_ & A & _ & _ & B & _);
      [reflexivity|reflexivity|reflexivity|vm_compute; reflexivity|];
    destruct (B eq_refl eq_refl) as [B1 B2]
  end.
  split; [exact A|]. split; [exact B1|]. rewrite B2. reflexivity.
Defined.

(** X9: [disconnect] says nothing to the listeners and leaves the sequence
    counter; afterwards no socket is in use, no heartbeat or reconnect
    timer is recorded, [shouldReconnect] is false and every [send] throws
    without changing anything; a second [disconnect] changes nothing. *)
Theorem disconnect_is_final s :
  let s' := exec disconnect s in
  exec disconnect s' = s'
  /\ produced s s' = []
  /\ seq (this s') = seq (this s)
  /\ websocket (this s') = None
  /\ heartbeatTimer (this s') = None
  /\ reconnectTimer (this s') = None
  /\ shouldReconnect (this s') = false
  /\ forall data, send data s' = (Throw not_connected, s').
Proof.
  cbv zeta.
  assert (F : websocket (this (exec disconnect s)) = None
              /\ heartbeatTimer (this (exec disconnect s)) = None
              /\ reconnectTimer (this (exec disconnect s)) = None
              /\ shouldReconnect (this (exec disconnect s)) = false
              /\ trace (rt (exec disconnect s)) = trace (rt s)
              /\ seq (this (exec disconnect s)) = seq (this s)).
  { destruct s as [[cfg w sq hb rc ic sr] r].
    unfold exec, spawn, try_catch, disconnect, clearHeartbeat, ws_close, bind, self,
      update, runtime, clearTimeout. cbn.
    destruct rc, hb, w as [w|]; cbn;
      try (destruct (sockets r !! w) as [sk|]; [destruct (state sk)|]);
      repeat split; reflexivity. }
  destruct F as (F1 & F2 & F3 & F4 & F5 & F6).
  split.
  { destruct (exec disconnect s) as [[cfg w sq hb rc ic sr] r]. cbn in *. subst.
    reflexivity. }
  split; [unfold produced; rewrite F5; apply drop_all|].
  split; [exact F6|]. split; [exact F1|]. split; [exact F2|]. split; [exact F3|].
  split; [exact F4|].
  intros data. apply send_closed. unfold open_socket. now rewrite F1.
Qed.

Lemma step_fire_inv h s s' :
  step (Fire h) s = Some s' ->
  exists t, timers (rt s) !! h = Some t /\ due t <= clock (rt s)
    /\ s' = exec (fire (run t))
              {| this := this s; rt := set_timers (delete h (timers (rt s))) (rt s) |}.
Proof.
  cbn [step]. destruct (timers (rt s) !! h) as [t|]; [|discriminate].
  destruct (due t <=? clock (rt s)) eqn:E; [|discriminate].
  intros H; inversion H. exists t. split; [reflexivity|]. split; [now apply Z.leb_le|reflexivity].
Qed.

(** X10: a reconnect timer fires only when it is due; it is then gone,
    [reconnectTimer] is cleared and [connect] is called, sending nothing.
    When no attempt is pending and the socket in use is not open, this
    makes a new connecting socket, which becomes the socket in use, and
    emits [reconnecting]; otherwise the sockets stay as they are. *)
Theorem reconnect_timer_connects h t s s' :
  timers (rt s) !! h = Some t -> run t = reconnect_callback ->
  step (Fire h) s = Some s' ->
  due t <= clock (rt s)
  /\ reconnectTimer (this s') = None
  /\ timers (rt s') = delete h (timers (rt s))
  /\ In (clock (rt s), Invoked_connect true) (produced s s')
  /\ frames_of (produced s s') = []
  /\ (isConnecting (this s) = false -> websocket_open s = false ->
      isConnecting (this s') = true
      /\ websocket (this s') = Some (next (rt s))
      /\ sockets (rt s')
         = <[next (rt s) := {| state := CONNECTING; opened := false; once_error := true |}]>
             (sockets (rt s))
      /\ emitted (produced s s') = [reconnecting])
  /\ (isConnecting (this s) = true \/ websocket_open s = true ->
      websocket (this s') = websocket (this s)
      /\ sockets (rt s') = sockets (rt s)
      /\ emitted (produced s s') = []).
Proof.
  intros Hh Hr Hs. destruct (step_fire_inv h s s' Hs) as (t' & Hh' & Hd & ->).
  rewrite Hh in Hh'. inversion Hh'; subst t'. clear Hh'. rewrite Hr. cbn [fire].
  split; [exact Hd|].
  set (s0 := {| this := this s; rt := set_timers (delete h (timers (rt s))) (rt s) |}).
  set (s1 := noted (Logged Info "Reconnecting...")
               {| this := set_reconnectTimer None (this s0); rt := rt s0 |}).
  assert (E : exec reconnect s0 = exec (connect true) s1) by reflexivity.
  rewrite E.
  destruct (isConnecting (this s)) eqn:Hc; [|destruct (websocket_open s) eqn:Ho].
  - assert (G : isConnecting (this s1) = true \/ websocket_open s1 = true) by (left; exact Hc).
    rewrite (exec_ret _ _ _ (connect_guard true s1 G)).
    change (produced s (noted (Invoked_connect true) s1))
      with (produced s (noted (Invoked_connect true) (noted (Logged Info "Reconnecting...") s))).
    rewrite produced_noted2.
    split; [reflexivity|]. split; [reflexivity|]. split; [cbn; tauto|].
    split; [reflexivity|]. split; [discriminate|]. intros _. repeat split; reflexivity.
  - assert (G : isConnecting (this s1) = true \/ websocket_open s1 = true) by (right; exact Ho).
    rewrite (exec_ret _ _ _ (connect_guard true s1 G)).
    change (produced s (noted (Invoked_connect true) s1))
      with (produced s (noted (Invoked_connect true) (noted (Logged Info "Reconnecting...") s))).
    rewrite produced_noted2.
    split; [reflexivity|]. split; [reflexivity|]. split; [cbn; tauto|].
    split; [reflexivity|]. split; [discriminate|]. intros _. repeat split; reflexivity.
  - assert (Hc1 : isConnecting (this s1) = false) by exact Hc.
    assert (Ho1 : websocket_open s1 = false) by exact Ho.
    rewrite (exec_ret _ _ _ (connect_new true s1 Hc1 Ho1)).
    erewrite produced_app; [|cbn; rewrite <- !app_assoc; reflexivity].
    split; [reflexivity|]. split; [reflexivity|]. split; [cbn; tauto|].
    split; [reflexivity|]. split.
    + intros _ _. repeat split; reflexivity.
    + intros [N|N]; discriminate.
Qed.

Lemma reconnect_timer_connects_witness :
  exists s s',
    steps [Call_connect; Open 0%nat; Close 0%nat; Tick 3000] (boot demo) = Some s
    /\ step (Fire 1%nat) s = Some s'
    /\ reconnectTimer (this s') = None
    /\ websocket (this s') = Some 2%nat
    /\ emitted (produced s s') = [reconnecting].
Proof.
  do 2 eexists. split; [vm_compute; reflexivity|]. split; [vm_compute; reflexivity|].
  match goal with |- reconnectTimer (this ?s') = _ /\ websocket _ = _ /\ emitted (produced ?s _) = _ =>
    destruct (reconnect_timer_connects 1%nat {| run := reconnect_callback; due := 3000 |} s s')
      as (_ & A & _ & _ & _ & B & _);
      [vm_compute; reflexivity|reflexivity|vm_compute; reflexivity|];
    destruct (B eq_refl eq_refl) as (_ & B1 & _ & B2)
  end.
  split; [exact A|]. split; [exact B1|exact B2].
Defined.

End ClientFacts.

(** ** The bot *)

Module RedoteFacts.
Import Json Message Redote.
Local Open Scope string_scope.
Local Open Scope Z_scope.












(** *** Sending *)

Local Open Scope bot_scope.

Lemma ensureInitialized_no s :
  isInitialized (this s) = false -> ensureInitialized s = (Fail not_initialized, s).
Proof. intros H. unfold ensureInitialized, bind, self. now rewrite H. Qed.

Lemma ensureInitialized_yes s :
  isInitialized (this s) = true -> ensureInitialized s = (Ok tt, s).
Proof. intros H. unfold ensureInitialized, bind, self. now rewrite H. Qed.

Lemma sendMessage_no receiverId content messageType s :
  isInitialized (this s) = false ->
  sendMessage receiverId content messageType s = (Fail not_initialized, s).
Proof. intros H. unfold sendMessage, bind. now rewrite (ensureInitialized_no s H). Qed.

Lemma send_segment_no receiverId segment s :
  isInitialized (this s) = false ->
  send_segment receiverId segment s = (Fail not_initialized, s).
Proof.
  intros H.
  assert (U : forall f, sendImage receiverId f s = (Fail not_initialized, s)).
  { intros f. unfold sendImage, uploadImage, bind. now rewrite (ensureInitialized_no s H). }
  destruct segment as [t|f u w h|f u d|f u d|c ct|n t c u|i nm u|u nm|k]; cbn [send_segment];
    unfold sendText, sendCard, sendNote; try apply (sendMessage_no _ _ _ s H).
  destruct f as [f|]; [destruct (String.eqb f "")|]; auto using sendMessage_no.
Qed.

Lemma bot_produced_refl s : produced s s = [].
Proof. unfold produced. apply drop_all. Qed.

Lemma bot_produced_app s s' l :
  trace (world s') = (trace (world s) ++ l)%list -> produced s s' = l.
Proof. intros H. unfold produced. rewrite H. apply drop_app_length. Qed.


Lemma quiet_refl s : quiet s s.
Proof. repeat split. exists []. now rewrite app_nil_r. Qed.

Lemma quiet_log l what s s0 : quiet s s0 -> quiet s (snd (log l what s0)).
Proof.
  intros (H1 & H2 & H3 & H4 & added & E & R & G). repeat split; auto.
  exists (added ++ [Logged l what])%list. cbn. rewrite E, <- app_assoc.
  split; [reflexivity|]. unfold requests, signals in *.
  rewrite !omap_app, R, G. split; reflexivity.
Qed.

(** X21: [sendMessageChain] on a bot that is not initialized does not
    throw: it returns one entry per segment, each the error "not
    initialized"; it makes no request, gives nothing to the listeners and
    changes only the log. *)
Theorem chain_sent_without_initialize receiverId chain s :
  isInitialized (this s) = false ->
  exists s',
    sendMessageChain receiverId chain s
    = (Ok (map (fun _ => Failed not_initialized) chain), s')
    /\ quiet s s'
    /\ requests (produced s s') = [].
Proof.
  intros H.
  assert (G : forall s0, quiet s s0 ->
            exists s', sendMessageChain receiverId chain s0
                       = (Ok (map (fun _ => Failed not_initialized) chain), s')
                       /\ quiet s s').
  { induction chain as [|seg chain IH]; intros s0 Q.
    - exists s0. split; [reflexivity|exact Q].
    - assert (H0 : isInitialized (this s0) = false).
      { destruct Q as (Q1 & _). now rewrite Q1. }
      destruct (IH (snd (log Client.Err "发送消息段失败" s0))) as (s' & E & Q').
      { now apply quiet_log. }
      exists s'. split; [|exact Q'].
      cbn [sendMessageChain map]. unfold bind at 1. unfold try_catch, bind at 1.
      rewrite (send_segment_no receiverId seg s0 H0).
      unfold bind at 1. change (log Client.Err "发送消息段失败" s0)
        with (Ok tt, snd (log Client.Err "发送消息段失败" s0)).
      cbv iota beta. unfold ret at 1. unfold bind. rewrite E. reflexivity. }
  destruct (G s (quiet_refl s)) as (s' & E & Q). exists s'.
  split; [exact E|]. split; [exact Q|].
  destruct Q as (_ & _ & _ & _ & added & T & R & _).
  now rewrite (bot_produced_app _ _ _ T).
Qed.

Lemma chain_sent_without_initialize_witness :
  exists s',
    sendMessageChain "u9" [TextSegment "hi"; CardSegment "c" None] demo_start
    = (Ok [Failed not_initialized; Failed not_initialized], s')
    /\ requests (produced demo_start s') = [].
Proof.
  destruct (chain_sent_without_initialize "u9" [TextSegment "hi"; CardSegment "c" None]
              demo_start eq_refl) as (s' & E & _ & R).
  exists s'. split; [exact E|exact R].
Defined.

Lemma steady_ret {A} (a : A) : steady (ret a).
Proof. intros s. split; [reflexivity|]. exists []. now rewrite app_nil_r. Qed.

Lemma steady_throw {A} f : steady (@throw A f).
Proof. intros s. split; [reflexivity|]. exists []. now rewrite app_nil_r. Qed.

Lemma steady_self : steady self.
Proof. intros s. split; [reflexivity|]. exists []. now rewrite app_nil_r. Qed.

Lemma steady_log l what : steady (log l what).
Proof. intros s. split; [reflexivity|]. exists [Logged l what]. split; reflexivity. Qed.

Lemma steady_bind {A B} (c : M A) (k : A -> M B) :
  steady c -> (forall a, steady (k a)) -> steady (bind c k).
Proof.
  intros Hc Hk s. unfold bind. destruct (Hc s) as (T & added & E & G).
  destruct (c s) as [[a|f] s1]; cbn [snd] in *.
  - destruct (Hk a s1) as (T' & added' & E' & G'). split; [congruence|].
    exists (added ++ added')%list. rewrite E', E, <- app_assoc. split; [reflexivity|].
    unfold signals in *. now rewrite omap_app, G, G'.
  - split; [exact T|]. eauto.
Qed.

Lemma steady_try_catch {A} (c : M A) (h : failure -> M A) :
  steady c -> (forall f, steady (h f)) -> steady (try_catch c h).
Proof.
  intros Hc Hh s. unfold try_catch. destruct (Hc s) as (T & added & E & G).
  destruct (c s) as [[a|f] s1]; cbn [snd] in *.
  - split; [exact T|]. eauto.
  - destruct (Hh f s1) as (T' & added' & E' & G'). split; [congruence|].
    exists (added ++ added')%list. rewrite E', E, <- app_assoc. split; [reflexivity|].
    unfold signals in *. now rewrite omap_app, G, G'.
Qed.

Lemma steady_request url method params body : steady (request url method params body).
Proof.
  intros s. unfold request.
  destruct (answers (world s) (asked (world s))) as [e|ok st txt [v|]]; [|destruct ok..];
    cbn; (split; [reflexivity|]); eexists; (split; [try reflexivity|]);
    try (rewrite <- app_assoc; reflexivity); reflexivity.
Qed.

Lemma steady_ensureInitialized : steady ensureInitialized.
Proof.
  unfold ensureInitialized. apply steady_bind; [apply steady_self|].
  intros b. destruct (isInitialized b); [apply steady_ret|apply steady_throw].
Qed.

Lemma steady_generateUuid : steady generateUuid.
Proof. intros s. split; [reflexivity|]. exists []. cbn. now rewrite app_nil_r. Qed.

Lemma steady_read a k : steady (read a k).
Proof.
  unfold read. destruct a as [v|]; [|apply steady_throw].
  destruct (get v k); [apply steady_ret|apply steady_throw].
Qed.

Lemma steady_sendMessage receiverId content messageType :
  steady (sendMessage receiverId content messageType).
Proof.
  unfold sendMessage. apply steady_bind; [apply steady_ensureInitialized|]. intros _.
  destruct (String.eqb receiverId ""); [apply steady_throw|].
  destruct (negb (truthy content)); [apply steady_throw|].
  apply steady_bind; [apply steady_self|]. intros b.
  apply steady_bind; [apply steady_generateUuid|]. intros u.
  apply steady_bind; [apply steady_read|]. intros d.
  apply steady_bind; [apply steady_read|]. intros c.
  apply steady_request.
Qed.

Lemma steady_uploadImage filePath : steady (uploadImage filePath).
Proof.
  unfold uploadImage. apply steady_bind; [apply steady_ensureInitialized|]. intros _.
  destruct (String.eqb filePath ""); [apply steady_throw|].
  apply steady_try_catch.
  - apply steady_bind; [apply steady_request|]. intros uploadToken s.
    unfold upload_with.
    destruct (uploads (world s) (tried (world s))) as [c f p|cause]; cbn;
      (split; [reflexivity|]).
    + eexists. split; reflexivity.
    + exists []. now rewrite app_nil_r.
  - intros f. apply steady_bind; [apply steady_log|]. intros _. apply steady_throw.
Qed.

Lemma steady_send_segment receiverId segment : steady (send_segment receiverId segment).
Proof.
  destruct segment as [t|f u w h|f u d|f u d|c ct|n t c u|i nm u|u nm|k]; cbn [send_segment];
    unfold sendText, sendCard, sendNote; try apply steady_sendMessage.
  assert (I : forall f, steady (sendImage receiverId f)).
  { intros f0. unfold sendImage. apply steady_bind; [apply steady_uploadImage|].
    intros r. apply steady_sendMessage. }
  destruct f as [f|]; [destruct (String.eqb f "")|]; auto using steady_sendMessage.
Qed.

Lemma steady_sendMessageChain receiverId chain : steady (sendMessageChain receiverId chain).
Proof.
  induction chain as [|seg chain IH]; [apply steady_ret|].
  cbn [sendMessageChain]. apply steady_bind.
  - apply steady_try_catch.
    + apply steady_bind; [apply steady_send_segment|]. intros r. apply steady_ret.
    + intros f. apply steady_bind; [apply steady_log|]. intros _. apply steady_ret.
  - intros r. apply steady_bind; [exact IH|]. intros rs. apply steady_ret.
Qed.

(** X22: [sendMessageChain] never throws, whatever the network and the
    uploads do: it returns an array with one entry per segment of the
    chain, leaves the fields of the bot as they are, and gives nothing to
    the listeners. *)
Theorem chain_sent_entry_by_entry receiverId chain s :
  exists results s',
    sendMessageChain receiverId chain s = (Ok results, s')
    /\ length results = length chain
    /\ this s' = this s
    /\ signals (produced s s') = [].
Proof.
  assert (G : forall s0, exists results s',
            sendMessageChain receiverId chain s0 = (Ok results, s')
            /\ length results = length chain).
  { induction chain as [|seg chain IH]; intros s0.
    - exists [], s0. split; reflexivity.
    - cbn [sendMessageChain]. unfold bind at 1. unfold try_catch, bind at 1.
      destruct (send_segment receiverId seg s0) as [[v|f] s1].
      + unfold ret at 1. destruct (IH s1) as (rs & s' & E & L).
        exists (Delivered v :: rs), s'. unfold bind. rewrite E. cbn. now rewrite L.
      + unfold bind at 1. change (log Client.Err "发送消息段失败" s1)
          with (Ok tt, snd (log Client.Err "发送消息段失败" s1)).
        cbv iota beta. unfold ret at 1.
        destruct (IH (snd (log Client.Err "发送消息段失败" s1))) as (rs & s' & E & L).
        exists (Failed f :: rs), s'. unfold bind. rewrite E. cbn. now rewrite L. }
  destruct (G s) as (rs & s' & E & L). exists rs, s'.
  split; [exact E|]. split; [exact L|].
  destruct (steady_sendMessageChain receiverId chain s) as (T & added & Tr & Sg).
  rewrite E in T, Tr. cbn [snd] in T, Tr.
  split; [exact T|]. now rewrite (bot_produced_app _ _ _ Tr).
Qed.

Lemma send_segment_text receiverId segment c :
  sent_text segment = Some c ->
  send_segment receiverId segment = sendMessage receiverId c (sent_type segment).
Proof.
  destruct segment as [t|f u w h|f u d|f u d|ct cty|n t ct u|i nm u|u nm|k];
    cbn [send_segment sent_text sent_type]; intros H; try (inversion H; reflexivity).
  destruct f as [f|]; [destruct (String.eqb f "")|]; inversion H; reflexivity.
Qed.

Lemma sendMessage_empty receiverId content messageType s :
  isInitialized (this s) = true ->
  (receiverId = "" ->
   sendMessage receiverId content messageType s = (Fail (Raised "接收者 ID 不能为空"), s))
  /\ (receiverId <> "" -> truthy content = false ->
      sendMessage receiverId content messageType s = (Fail (Raised "消息内容不能为空"), s)).
Proof.
  intros H. unfold sendMessage, bind. rewrite (ensureInitialized_yes s H). split.
  - intros ->. reflexivity.
  - intros N F. destruct (String.eqb_spec receiverId "") as [E|_]; [now elim N|].
    now rewrite F.
Qed.

Lemma chain_fails receiverId f chain s :
  (forall segment s0, In segment chain -> quiet s s0 ->
     send_segment receiverId segment s0 = (Fail f, s0)) ->
  exists s',
    sendMessageChain receiverId chain s = (Ok (map (fun _ => Failed f) chain), s')
    /\ quiet s s'.
Proof.
  intros H.
  assert (G : forall s0, quiet s s0 ->
            exists s', sendMessageChain receiverId chain s0
                       = (Ok (map (fun _ => Failed f) chain), s')
                       /\ quiet s s').
  { induction chain as [|seg chain IH]; intros s0 Q.
    - exists s0. split; [reflexivity|exact Q].
    - destruct (IH (fun sg s1 I => H sg s1 (or_intror I))
                  (snd (log Client.Err "发送消息段失败" s0))) as (s' & E & Q').
      { now apply quiet_log. }
      exists s'. split; [|exact Q'].
      cbn [sendMessageChain map]. unfold bind at 1. unfold try_catch, bind at 1.
      rewrite (H seg s0 (or_introl eq_refl) Q). unfold bind at 1.
      change (log Client.Err "发送消息段失败" s0)
        with (Ok tt, snd (log Client.Err "发送消息段失败" s0)).
      cbv iota beta. unfold ret at 1. unfold bind. rewrite E. reflexivity. }
  exact (G s (quiet_refl s)).
Qed.

(** X23: on an initialized bot, a chain sent to the empty receiver id
    (no segment being an image with a file, which is uploaded first) gives
    one error entry "receiver id must not be empty" per segment, and a
    chain whose segments all have an empty text, sent to a receiver,
    gives one error entry "content must not be empty" per segment.  In
    both cases no request is made. *)
Theorem invalid_message_not_sent receiverId chain s :
  isInitialized (this s) = true ->
  (receiverId = "" ->
   Forall (fun segment => sent_text segment <> None) chain ->
   exists s',
     sendMessageChain receiverId chain s
     = (Ok (map (fun _ => Failed (Raised "接收者 ID 不能为空")) chain), s')
     /\ quiet s s' /\ requests (produced s s') = [])
  /\ (receiverId <> "" ->
      Forall (fun segment => empty_text segment = true) chain ->
      exists s',
        sendMessageChain receiverId chain s
        = (Ok (map (fun _ => Failed (Raised "消息内容不能为空")) chain), s')
        /\ quiet s s' /\ requests (produced s s') = []).
Proof.
  intros H. split.
  - intros R F.
    destruct (chain_fails receiverId (Raised "接收者 ID 不能为空") chain s) as (s' & E & Q).
    { intros seg s0 I Q. rewrite List.Forall_forall in F. specialize (F seg I).
      destruct (sent_text seg) as [c|] eqn:Hc; [|now elim F].
      rewrite (send_segment_text receiverId seg c Hc).
      apply (sendMessage_empty receiverId c (sent_type seg) s0); [|exact R].
      destruct Q as (Q1 & _). now rewrite Q1. }
    exists s'. split; [exact E|]. split; [exact Q|].
    destruct Q as (_ & _ & _ & _ & added & T & Rq & _).
    now rewrite (bot_produced_app _ _ _ T).
  - intros R F.
    destruct (chain_fails receiverId (Raised "消息内容不能为空") chain s) as (s' & E & Q).
    { intros seg s0 I Q. rewrite List.Forall_forall in F. specialize (F seg I).
      unfold empty_text in F. destruct (sent_text seg) as [c|] eqn:Hc; [|discriminate].
      apply negb_true_iff in F.
      rewrite (send_segment_text receiverId seg c Hc).
      apply (sendMessage_empty receiverId c (sent_type seg) s0); [|exact R|exact F].
      destruct Q as (Q1 & _). now rewrite Q1. }
    exists s'. split; [exact E|]. split; [exact Q|].
    destruct Q as (_ & _ & _ & _ & added & T & Rq & _).
    now rewrite (bot_produced_app _ _ _ T).
Qed.

Lemma invalid_message_witness :
  isInitialized (this demo_ready) = true
  /\ (exists s',
        sendMessageChain "" [TextSegment "hi"] demo_ready
        = (Ok [Failed (Raised "接收者 ID 不能为空")], s')
        /\ requests (produced demo_ready s') = [])
  /\ exists s',
       sendMessageChain "u9"
         [TextSegment ""; CardSegment "" None] demo_ready
       = (Ok [Failed (Raised "消息内容不能为空"); Failed (Raised "消息内容不能为空")], s')
       /\ requests (produced demo_ready s') = [].
Proof.
  assert (I : isInitialized (this demo_ready) = true) by (vm_compute; reflexivity).
  split; [exact I|]. split.
  - destruct (proj1 (invalid_message_not_sent "" [TextSegment "hi"] demo_ready I) eq_refl)
      as (s' & E & _ & R).
    + constructor; [cbn; discriminate|constructor].
    + exists s'. split; [exact E|exact R].
  - assert (N : "u9" <> "") by discriminate.
    destruct (proj2 (invalid_message_not_sent "u9"
                       [TextSegment ""; CardSegment "" None]
                       demo_ready I) N) as (s' & E & _ & R).
    + repeat (constructor; [reflexivity|]). constructor.
    + exists s'. split; [exact E|exact R].
Defined.


Lemma requests_app a b : requests (a ++ b) = (requests a ++ requests b)%list.
Proof. unfold requests. apply omap_app. Qed.




(** *** The life of the bot *)

Lemma disconnect_silent c : Client.produced c (Client.exec Client.disconnect c) = [].
Proof.
  assert (T : Client.trace (Client.rt (Client.exec Client.disconnect c))
              = Client.trace (Client.rt c)).
  { destruct c as [[cfg w sq hb rc ic sr] r].
    unfold Client.exec, Client.spawn, Client.try_catch, Client.disconnect,
      Client.clearHeartbeat, Client.bind, Client.self. cbn.
    destruct rc, hb, w; cbn; try reflexivity;
      try (destruct (Client.sockets _ !! _) as [sk|]; [destruct (Client.state sk)|]);
      reflexivity. }
  unfold Client.produced. rewrite T. apply drop_all.
Qed.

Lemma set_trace_same w : set_trace (trace w ++ [])%list w = w.
Proof. destruct w. cbn. now rewrite app_nil_r. Qed.

Lemma stop_eq s :
  stop s
  = (Ok tt,
     {| this := set_isInitialized false
                  (set_websocketClient
                     (option_map (Client.exec Client.disconnect) (websocketClient (this s)))
                     (this s));
        world := set_trace (trace (world s) ++ [Logged Client.Info "机器人已停止"])%list
                   (world s) |}).
Proof.
  unfold stop, bind, self, update, client_call.
  destruct s as [[cfg ui ud [c|] i u sl a] w]; [|reflexivity].
  cbn [this websocketClient world]. rewrite disconnect_silent. cbn [omap map].
  rewrite set_trace_same. reflexivity.
Qed.

(** X25: [stop] never throws and makes no request.  Afterwards the bot
    is not initialized, so that [start] and every send throw "not
    initialized" and leave the state as it is; and the client, when there
    is one, has had [disconnect] called: it holds no socket and will not
    reconnect. *)
Theorem stopped_bot_is_inert s :
  exists s1,
    stop s = (Ok tt, s1)
    /\ isInitialized (this s1) = false
    /\ websocketClient (this s1)
       = option_map (Client.exec Client.disconnect) (websocketClient (this s))
    /\ requests (produced s s1) = []
    /\ signals (produced s s1) = []
    /\ start s1 = (Fail not_initialized, s1)
    /\ (forall receiverId content messageType,
          sendMessage receiverId content messageType s1 = (Fail not_initialized, s1))
    /\ forall c, websocketClient (this s1) = Some c ->
         Client.shouldReconnect (Client.this c) = false
         /\ Client.websocket (Client.this c) = None.
Proof.
  eexists. split; [apply stop_eq|].
  split; [reflexivity|]. split; [reflexivity|].
  split; [now erewrite bot_produced_app by reflexivity|].
  split; [now erewrite bot_produced_app by reflexivity|].
  split; [unfold start, bind; now rewrite ensureInitialized_no|].
  split; [intros; now apply sendMessage_no|].
  intros c Hc. cbn in Hc. destruct (websocketClient (this s)) as [c0|]; [|discriminate].
  inversion Hc; subst c.
  destruct c0 as [[cfg w sq hb rc ic sr] r].
  unfold Client.exec, Client.spawn, Client.try_catch, Client.disconnect,
    Client.clearHeartbeat, Client.bind, Client.self. cbn.
  destruct rc, hb, w; split; reflexivity.
Qed.

Lemma start_eq s c :
  isInitialized (this s) = true -> websocketClient (this s) = Some c ->
  start s
  = (Ok tt,
     {| this := set_websocketClient (Some (Client.exec (Client.connect false) c)) (this s);
        world := set_trace
                   ((trace (world s) ++ [Logged Client.Info "启动消息监听器..."])
                    ++ map Emitted
                         (omap passed_on
                            (Client.emitted
                               (Client.produced c (Client.exec (Client.connect false) c)))))%list
                   (world s) |}).
Proof.
  intros H W. unfold start, bind at 1. rewrite (ensureInitialized_yes s H).
  unfold bind, self. rewrite W. reflexivity.
Qed.

Lemma connect_new_produced c :
  Client.isConnecting (Client.this c) = false -> Client.websocket_open c = false ->
  Client.produced c (Client.exec (Client.connect false) c)
  = [(Client.clock (Client.rt c), Client.Invoked_connect false);
     (Client.clock (Client.rt c), Client.Emitted Client.reconnecting)].
Proof.
  intros Hc Ho.
  rewrite (ClientFacts.exec_ret _ _ _ (ClientFacts.connect_new false c Hc Ho)).
  apply ClientFacts.produced_app. cbn. now rewrite <- app_assoc.
Qed.

(** X26: [start] on an initialized bot with a client calls [connect] on
    this client and makes no request.  When the client is neither
    connecting nor open, it goes connecting with a new socket, nothing is
    sent yet, and the listeners of the bot get ['reconnecting'].  When it
    is connecting or open already, the client keeps its fields and its
    sockets, and the listeners get nothing. *)
Theorem start_connects_the_client s c :
  isInitialized (this s) = true -> websocketClient (this s) = Some c ->
  exists s1 c1,
    start s = (Ok tt, s1)
    /\ websocketClient (this s1) = Some c1
    /\ c1 = Client.exec (Client.connect false) c
    /\ isInitialized (this s1) = true
    /\ requests (produced s s1) = []
    /\ (Client.isConnecting (Client.this c) = false -> Client.websocket_open c = false ->
        Client.isConnecting (Client.this c1) = true
        /\ Client.websocket (Client.this c1) = Some (Client.next (Client.rt c))
        /\ Client.frames_of (Client.produced c c1) = []
        /\ signals (produced s s1) = [reconnecting])
    /\ (Client.isConnecting (Client.this c) = true \/ Client.websocket_open c = true ->
        Client.this c1 = Client.this c
        /\ Client.sockets (Client.rt c1) = Client.sockets (Client.rt c)
        /\ signals (produced s s1) = []).
Proof.
  intros H W. eexists. eexists. split; [apply (start_eq s c H W)|].
  split; [reflexivity|]. split; [reflexivity|]. split; [exact H|].
  erewrite bot_produced_app; [|cbn; rewrite <- app_assoc; reflexivity].
  split; [|split].
  - unfold requests. rewrite omap_app. cbn [omap app].
    induction (omap passed_on _) as [|x l IH]; [reflexivity|exact IH].
  - intros Hc Ho. rewrite (connect_new_produced c Hc Ho).
    rewrite (ClientFacts.exec_ret _ _ _ (ClientFacts.connect_new false c Hc Ho)).
    repeat split; reflexivity.
  - intros G.
    rewrite (ClientFacts.exec_ret _ _ _ (ClientFacts.connect_guard false c G)).
    rewrite ClientFacts.produced_noted. repeat split; reflexivity.
Qed.

Lemma start_connects_witness :
  exists s1 c1,
    start demo_ready = (Ok tt, s1)
    /\ websocketClient (this s1) = Some c1
    /\ Client.isConnecting (Client.this c1) = true
    /\ signals (produced demo_ready s1) = [reconnecting].
Proof.
  assert (I : isInitialized (this demo_ready) = true) by (vm_compute; reflexivity).
  assert (W : websocketClient (this demo_ready)
              = Some (Client.boot (websocketConfig no_options "b1" "p1")))
    by (vm_compute; reflexivity).
  destruct (start_connects_the_client demo_ready _ I W)
    as (s1 & c1 & E & W1 & _ & _ & _ & N & _).
  exists s1, c1. destruct (N eq_refl eq_refl) as (A & _ & _ & B). auto.
Defined.

(** *** [initialize] *)

Lemma bind_inv {A B} (c : M A) (k : A -> M B) s r s' :
  bind c k s = (r, s') ->
  (exists a s1, c s = (Ok a, s1) /\ k a s1 = (r, s'))
  \/ (exists f, c s = (Fail f, s') /\ r = Fail f).
Proof.
  unfold bind. destruct (c s) as [[a|f] s1]; intros H.
  - left. eauto.
  - right. inversion H. eauto.
Qed.

Lemma read_inv a k r s s' :
  read a k s = (r, s') ->
  s' = s /\ match r with
            | Ok x => exists v, a = Some v /\ get v k = Ret x
            | Fail _ => True
            end.
Proof.
  unfold read. destruct a as [v|]; [|intros H; inversion H; auto].
  destruct (get v k) as [x|e] eqn:G; intros H; inversion H; subst; eauto.
Qed.

Lemma read_ok a k x s s' :
  read a k s = (Ok x, s') -> s' = s /\ exists v, a = Some v /\ get v k = Ret x.
Proof. intros H. apply read_inv in H. exact H. Qed.

Lemma read_fail a k f s s' : read a k s = (Fail f, s') -> s' = s.
Proof. intros H. apply read_inv in H. tauto. Qed.

Lemma request_inv url method params body s r s' :
  request url method params body s = (r, s') ->
  this s' = this s
  /\ asked (world s') = S (asked (world s))
  /\ exists logs,
       trace (world s')
       = (trace (world s)
          ++ Requested {| Redote.method := method; Redote.url := url;
                          Redote.params := params;
                          cookie := cookies (config (this s));
                          content := fetchBody body;
                          timeout_ms := timeout (config (this s)) * 1000 |} :: logs)%list
       /\ requests logs = [] /\ signals logs = [].
Proof.
  unfold request.
  destruct (answers (world s) (asked (world s))) as [e|ok st txt [v|]]; [|destruct ok..];
    cbn; intros H; inversion H; subst; cbn; (split; [reflexivity|]); (split; [reflexivity|]);
    eexists; (split; [try rewrite <- app_assoc; reflexivity|]); split; reflexivity.
Qed.


Ltac bind_step H :=
  let H1 := fresh "E" in
  apply bind_inv in H as [(? & ? & H1 & H)|(? & H1 & ->)].

Lemma signals_app a b : signals (a ++ b) = (signals a ++ signals b)%list.
Proof. unfold signals. apply omap_app. Qed.

(** The trace of a state, once the equations of the steps are used *)
Ltac traced :=
  cbn [this world trace set_trace set_userInfo set_userDetail assign set_websocketClient
       set_isInitialized config isInitialized websocketClient userInfo userId sellerId
       accountNo] in *;
  repeat match goal with
  | H : this ?x = _ |- _ => rewrite H in *; clear H
  | H : trace (world ?x) = _ |- _ => rewrite H in *; clear H
  end;
  cbn [this world trace set_trace set_userInfo set_userDetail assign set_websocketClient
       set_isInitialized config isInitialized websocketClient userInfo userId sellerId
       accountNo] in *.

Lemma signals_requested q l : signals (Requested q :: l) = signals l.
Proof. reflexivity. Qed.

Lemma signals_logged lv what l : signals (Logged lv what :: l) = signals l.
Proof. reflexivity. Qed.

Lemma requests_requested q l : requests (Requested q :: l) = q :: requests l.
Proof. reflexivity. Qed.

Lemma requests_logged lv what l : requests (Logged lv what :: l) = requests l.
Proof. reflexivity. Qed.

Lemma requests_emitted sg l : requests (Emitted sg :: l) = requests l.
Proof. reflexivity. Qed.

Ltac counted :=
  repeat first
    [ rewrite signals_app | rewrite requests_app
    | rewrite signals_requested | rewrite signals_logged
    | rewrite requests_requested | rewrite requests_logged | rewrite requests_emitted
    | match goal with
      | H : requests _ = [] |- _ => rewrite H
      | H : signals _ = [] |- _ => rewrite H
      end ];
  change (signals []) with (@nil signal); change (requests []) with (@nil Request);
  cbn [app length].

Ltac given_up :=
  traced;
  split; [reflexivity|];
  eexists; split; [rewrite <- ?app_assoc; reflexivity|];
  split; [|split; [reflexivity|split; [reflexivity|]]]; counted;
  try reflexivity; try lia.

Lemma initialize_try_spec s r s' :
  initialize_try s = (r, s') ->
  config (this s') = config (this s)
  /\ exists added,
       trace (world s') = (trace (world s) ++ added)%list
       /\ signals added = []
       /\ match r with
          | Ok _ =>
              isInitialized (this s') = true
              /\ account_known (this s') = true
              /\ requests added
                 = [info_request (this s); detail_request (this s) (accountNo (this s'))]
              /\ (exists info detail, account_of info detail (this s'))
              /\ websocketClient (this s')
                 = Some (Client.boot (websocketConfig (websocket (config (this s)))
                                                      (identifier (userId (this s')))
                                                      (identifier (sellerId (this s')))))
          | Fail _ =>
              isInitialized (this s') = isInitialized (this s)
              /\ websocketClient (this s') = websocketClient (this s)
              /\ (length (requests added) <= 2)%nat
          end.
Proof.
  unfold initialize_try, getUserInfo, getUserDetail. intros H.
  bind_step H; [|inversion E].
  inversion E; subst; clear E.
  bind_step H.
  2:{ apply request_inv in E as (T1 & K1 & logs1 & Tr1 & R1 & S1). cbn in T1, K1, Tr1.
      given_up. }
  apply request_inv in E as (T1 & K1 & logs1 & Tr1 & R1 & S1). cbn in T1, K1, Tr1.
  bind_step H; [|inversion E].
  inversion E; subst; clear E.
  bind_step H.
  2:{ apply read_fail in E as ->. given_up. }
  apply read_ok in E as (-> & v & Ev & G1). inversion Ev; subst v; clear Ev.
  bind_step H.
  2:{ apply read_fail in E as ->. given_up. }
  apply read_ok in E as (-> & d & -> & G2).
  bind_step H.
  2:{ unfold bind, self in E.
      apply request_inv in E as (T2 & K2 & logs2 & Tr2 & R2 & S2). cbn in T2, K2, Tr2.
      given_up. }
  unfold bind, self in E.
  apply request_inv in E as (T2 & K2 & logs2 & Tr2 & R2 & S2). cbn in T2, K2, Tr2.
  bind_step H; [|inversion E].
  inversion E; subst; clear E.
  bind_step H.
  2:{ apply read_fail in E as ->. given_up. }
  apply read_ok in E as (-> & v & Ev & G3). inversion Ev; subst v; clear Ev.
  rewrite G1 in G3. inversion G3; subst; clear G3.
  bind_step H.
  2:{ apply read_fail in E as ->. given_up. }
  apply read_ok in E as (-> & v & Ev & G3). inversion Ev; subst v; clear Ev.
  bind_step H.
  2:{ apply read_fail in E as ->. given_up. }
  apply read_ok in E as (-> & v & Ev & G4). inversion Ev; subst v; clear Ev.
  bind_step H.
  2:{ apply read_fail in E as ->. given_up. }
  apply read_ok in E as (-> & d' & -> & G5).
  bind_step H.
  2:{ apply read_fail in E as ->. given_up. }
  apply read_ok in E as (-> & fu & -> & G6).
  bind_step H.
  2:{ apply read_fail in E as ->. given_up. }
  apply read_ok in E as (-> & v & Ev & G7). inversion Ev; subst v; clear Ev.
  rewrite G1 in G7. inversion G7; subst; clear G7.
  bind_step H.
  2:{ apply read_fail in E as ->. given_up. }
  apply read_ok in E as (-> & v & Ev & G7). inversion Ev; subst v; clear Ev.
  rewrite G2 in G7. inversion G7; subst; clear G7.
  bind_step H; [|inversion E].
  inversion E; subst; clear E.
  assert (A : account_known (assign x4 x5 x6 (set_userDetail (Some x1)
                                               (set_userInfo (Some x) (this s)))) = true).
  { unfold account_known. cbn [userInfo assign set_userDetail set_userInfo]. rewrite G1.
    destruct d; try reflexivity. discriminate G2. }
  unfold bind, self, update, log, note in H. cbn in H.
  inversion H; subst; clear H. traced.
  split; [reflexivity|].
  eexists. split; [rewrite <- ?app_assoc; reflexivity|]. split; [counted; reflexivity|].
  split; [reflexivity|]. split; [exact A|]. split; [counted; reflexivity|].
  split; [|reflexivity].
  exists x, x1. unfold account_of. cbn.
  split; [reflexivity|]. split; [reflexivity|]. split; eauto.
Qed.

(** *** What every method keeps *)

Lemma lawful_here {A} (c : M A) :
  (forall s, this (snd (c s)) = this s
     /\ exists added, trace (world (snd (c s))) = (trace (world s) ++ added)%list
          /\ requests added = []) ->
  lawful c.
Proof.
  intros H s. destruct (H s) as (T & added & E & R). split; [now rewrite T|].
  exists added. split; [exact E|]. rewrite R. constructor.
Qed.

Lemma lawful_ret {A} (a : A) : lawful (ret a).
Proof.
  apply lawful_here. intros s. split; [reflexivity|]. exists []. now rewrite app_nil_r.
Qed.

Lemma lawful_throw {A} f : lawful (@throw A f).
Proof.
  apply lawful_here. intros s. split; [reflexivity|]. exists []. now rewrite app_nil_r.
Qed.

Lemma lawful_self : lawful self.
Proof.
  apply lawful_here. intros s. split; [reflexivity|]. exists []. now rewrite app_nil_r.
Qed.

Lemma lawful_log l what : lawful (log l what).
Proof.
  apply lawful_here. intros s. split; [reflexivity|]. exists [Logged l what].
  split; reflexivity.
Qed.

Lemma lawful_update f : (forall b, config (f b) = config b) -> lawful (update f).
Proof.
  intros H s. split; [apply H|]. exists []. cbn. rewrite app_nil_r. split; [reflexivity|].
  constructor.
Qed.

Lemma lawful_bind {A B} (c : M A) (k : A -> M B) :
  lawful c -> (forall a, lawful (k a)) -> lawful (bind c k).
Proof.
  intros Hc Hk s. unfold bind. destruct (Hc s) as (T & added & E & G).
  destruct (c s) as [[a|f] s1]; cbn [snd] in *.
  - destruct (Hk a s1) as (T' & added' & E' & G'). split; [congruence|].
    exists (added ++ added')%list. rewrite E', E, <- app_assoc. split; [reflexivity|].
    rewrite requests_app. apply Forall_app. split; [exact G|]. now rewrite <- T.
  - split; [exact T|]. eauto.
Qed.

Lemma lawful_try_catch {A} (c : M A) (h : failure -> M A) :
  lawful c -> (forall f, lawful (h f)) -> lawful (try_catch c h).
Proof.
  intros Hc Hh s. unfold try_catch. destruct (Hc s) as (T & added & E & G).
  destruct (c s) as [[a|f] s1]; cbn [snd] in *.
  - split; [exact T|]. eauto.
  - destruct (Hh f s1) as (T' & added' & E' & G'). split; [congruence|].
    exists (added ++ added')%list. rewrite E', E, <- app_assoc. split; [reflexivity|].
    rewrite requests_app. apply Forall_app. split; [exact G|]. now rewrite <- T.
Qed.

Lemma lawful_request url method params body : lawful (request url method params body).
Proof.
  intros s. destruct (request url method params body s) as [r s'] eqn:E.
  apply request_inv in E as (T & _ & logs & Tr & R & _). cbn [snd].
  split; [now rewrite T|]. eexists. split; [exact Tr|].
  rewrite requests_requested, R. constructor; [split; reflexivity|constructor].
Qed.

Lemma lawful_generateUuid : lawful generateUuid.
Proof.
  apply lawful_here. intros s. split; [reflexivity|]. exists []. cbn. now rewrite app_nil_r.
Qed.

Lemma lawful_read a k : lawful (read a k).
Proof.
  unfold read. destruct a as [v|]; [|apply lawful_throw].
  destruct (get v k); [apply lawful_ret|apply lawful_throw].
Qed.

Lemma lawful_upload_with uploadToken bizName scene :
  lawful (upload_with uploadToken bizName scene).
Proof.
  apply lawful_here. intros s. unfold upload_with.
  destruct (uploads (world s) (tried (world s))) as [c f p|cause]; cbn;
    (split; [reflexivity|]).
  - eexists. split; reflexivity.
  - exists []. now rewrite app_nil_r.
Qed.

Lemma requests_passed_on l : requests (map Emitted l) = [].
Proof. induction l as [|x l IH]; [reflexivity|exact IH]. Qed.

Lemma lawful_client_call c method : lawful (client_call c method).
Proof.
  intros s. split; [reflexivity|]. eexists. split; [reflexivity|].
  rewrite requests_passed_on. constructor.
Qed.

Ltac lawfully :=
  repeat first
    [ apply lawful_ret | apply lawful_throw | apply lawful_self | apply lawful_log
    | apply lawful_request | apply lawful_generateUuid | apply lawful_read
    | apply lawful_upload_with | apply lawful_client_call
    | apply lawful_update; intros ?; reflexivity
    | apply lawful_bind; [|intros ?]
    | apply lawful_try_catch; [|intros ?]
    | match goal with
      | |- lawful (if ?b then _ else _) => destruct b
      | |- lawful (match ?x with _ => _ end) => destruct x
      end ].

Lemma lawful_ensureInitialized : lawful ensureInitialized.
Proof. unfold ensureInitialized. lawfully. Qed.

Lemma lawful_sendMessage receiverId content messageType :
  lawful (sendMessage receiverId content messageType).
Proof. unfold sendMessage, ensureInitialized. lawfully. Qed.

Lemma lawful_uploadImage filePath : lawful (uploadImage filePath).
Proof. unfold uploadImage, getUploadToken, ensureInitialized. lawfully. Qed.

Lemma lawful_sendImage receiverId filePath : lawful (sendImage receiverId filePath).
Proof.
  unfold sendImage. apply lawful_bind; [apply lawful_uploadImage|].
  intros r. apply lawful_sendMessage.
Qed.

Lemma lawful_send_segment receiverId segment : lawful (send_segment receiverId segment).
Proof.
  destruct segment as [t|f u w h|f u d|f u d|c ct|n t c u|i nm u|u nm|k]; cbn [send_segment];
    unfold sendText, sendCard, sendNote; try apply lawful_sendMessage.
  destruct f as [f|]; [destruct (String.eqb f "")|];
    auto using lawful_sendMessage, lawful_sendImage.
Qed.

Lemma lawful_sendMessageChain receiverId chain : lawful (sendMessageChain receiverId chain).
Proof.
  induction chain as [|seg chain IH]; [apply lawful_ret|].
  cbn [sendMessageChain]. apply lawful_bind.
  - apply lawful_try_catch.
    + apply lawful_bind; [apply lawful_send_segment|]. intros r. apply lawful_ret.
    + intros f. lawfully.
  - intros r. apply lawful_bind; [exact IH|]. intros rs. apply lawful_ret.
Qed.

Lemma lawful_getChats isActive limit : lawful (getChats isActive limit).
Proof. unfold getChats, ensureInitialized. lawfully. Qed.

Lemma lawful_getChatMessages customerUserId limit :
  lawful (getChatMessages customerUserId limit).
Proof. unfold getChatMessages, ensureInitialized. lawfully. Qed.

Lemma lawful_switchStatus status : lawful (switchStatus status).
Proof. unfold switchStatus, ensureInitialized. lawfully. Qed.

Lemma lawful_initialize : lawful initialize.
Proof. unfold initialize, initialize_try, getUserInfo, getUserDetail. lawfully. Qed.

Lemma lawful_start : lawful start.
Proof. unfold start, ensureInitialized. lawfully. Qed.

Lemma lawful_stop : lawful stop.
Proof. unfold stop. lawfully. Qed.

Ltac steadily :=
  repeat first
    [ apply steady_ret | apply steady_throw | apply steady_self | apply steady_log
    | apply steady_request | apply steady_ensureInitialized
    | apply steady_bind; [|intros ?]
    | match goal with
      | |- steady (if ?b then _ else _) => destruct b
      end ].

Lemma steady_getChats isActive limit : steady (getChats isActive limit).
Proof. unfold getChats. steadily. Qed.

Lemma steady_getChatMessages customerUserId limit :
  steady (getChatMessages customerUserId limit).
Proof. unfold getChatMessages. steadily. Qed.

Lemma steady_switchStatus status : steady (switchStatus status).
Proof. unfold switchStatus. steadily. Qed.

Lemma handleRawMessage_no_request rawMessage now l :
  handleRawMessage rawMessage now = Some l -> requests l = [].
Proof.
  unfold handleRawMessage, handleRawMessage_with.
  destruct (get_optional (get_optional _ "payload") "sixin_message") as [p|];
    [|intros H; inversion H; reflexivity].
  destruct (truthy p); [|intros H; inversion H; reflexivity].
  destruct (or_else _ (JStr "")) as [| | | content | |]; try discriminate.
  match goal with |- context [match ?x with Ret _ => _ | Throw _ => _ end] => destruct x end;
    intros H; inversion H; reflexivity.
Qed.

Lemma reactions_no_request now ns l : reactions now ns = Some l -> requests l = [].
Proof.
  revert l. induction ns as [|n ns IH]; intros l; cbn [reactions].
  - intros H; inversion H; reflexivity.
  - destruct (forward now n) as [a|] eqn:F; [|discriminate].
    destruct (reactions now ns) as [b|]; [|discriminate].
    intros H; inversion H; subst. rewrite requests_app, (IH b eq_refl), app_nil_r.
    destruct n; cbn in F; try (inversion F; reflexivity).
    now apply handleRawMessage_no_request in F.
Qed.

Lemma happens_inv ev now s s' :
  happens ev now s = Some s' ->
  exists c c' l,
    websocketClient (this s) = Some c /\ Client.step ev c = Some c'
    /\ this s' = set_websocketClient (Some c') (this s)
    /\ trace (world s') = (trace (world s) ++ l)%list /\ requests l = [].
Proof.
  unfold happens. intros H.
  assert (G : (if out_of_reach ev (this s) then None else
               match websocketClient (this s) with
               | Some c =>
                   match Client.step ev c with
                   | Some c' =>
                       match reactions now (Client.emitted (Client.produced c c')) with
                       | Some l =>
                           Some {| this := set_websocketClient (Some c') (this s);
                                   world := set_trace (trace (world s) ++ l)%list (world s) |}
                       | None => None
                       end
                   | None => None
                   end
               | None => None
               end) = Some s').
  { destruct ev; try discriminate; exact H. }
  clear H. destruct (out_of_reach ev (this s)); [discriminate|].
  destruct (websocketClient (this s)) as [c|]; [|discriminate].
  destruct (Client.step ev c) as [c'|] eqn:E; [|discriminate].
  destruct (reactions now _) as [l|] eqn:R; [|discriminate].
  inversion G; subst. exists c, c', l.
  split; [reflexivity|]. split; [exact E|]. split; [reflexivity|]. split; [reflexivity|].
  now apply reactions_no_request in R.
Qed.

Lemma perform_lawful c s s' :
  perform c s = Some s' ->
  config (this s') = config (this s)
  /\ exists added, trace (world s') = (trace (world s) ++ added)%list
       /\ Forall (fun r => cookie r = cookies (config (this s))
                           /\ timeout_ms r = timeout (config (this s)) * 1000)
                 (requests added).
Proof.
  destruct c; cbn [perform]; intros H;
    try (inversion H; subst;
         first [ apply lawful_initialize
               | apply lawful_start | apply lawful_stop | apply lawful_getChats
               | apply lawful_getChatMessages | apply lawful_switchStatus
               | apply lawful_uploadImage | apply lawful_sendMessage | apply lawful_sendImage
               | apply lawful_sendMessageChain ]).
  apply happens_inv in H as (c & c' & l & _ & _ & T & Tr & R).
  split; [now rewrite T|]. exists l. split; [exact Tr|]. rewrite R. constructor.
Qed.

Lemma complete_same b b' :
  isInitialized b' = isInitialized b -> userInfo b' = userInfo b ->
  userId b' = userId b -> sellerId b' = sellerId b ->
  (forall c, websocketClient b = Some c ->
     exists c', websocketClient b' = Some c'
       /\ Client.config (Client.this c') = Client.config (Client.this c)) ->
  complete b -> complete b'.
Proof.
  intros I U Iu Is W C H. rewrite I in H. destruct (C H) as (A & c & Hc & X).
  split; [unfold account_known in *; now rewrite U|].
  destruct (W c Hc) as (c' & Hc' & K). exists c'. rewrite Iu, Is, K.
  split; [exact Hc'|exact X].
Qed.

Lemma complete_step b ev c c' :
  websocketClient b = Some c -> Client.step ev c = Some c' ->
  complete b -> complete (set_websocketClient (Some c') b).
Proof.
  intros W E. apply complete_same; try reflexivity.
  intros c0 H. rewrite W in H. inversion H; subst c0. exists c'. split; [reflexivity|].
  apply ClientFacts.step_advances in E as [k _ _ _ _]. exact k.
Qed.

Lemma initialize_inv s r s' :
  initialize s = (r, s') ->
  (isInitialized (this s) = true /\ r = Ok tt
   /\ s' = snd (log Client.Warn "机器人已经初始化，跳过重复初始化" s))
  \/ (isInitialized (this s) = false
      /\ exists r0 s1, initialize_try s = (r0, s1)
           /\ match r0 with
              | Ok o => r = Ok o /\ s' = s1
              | Fail f => r = Fail (Wrapped "机器人初始化失败: " f)
                          /\ s' = snd (log Client.Err "机器人初始化失败:" s1)
              end).
Proof.
  unfold initialize, bind at 1, self. destruct (isInitialized (this s)).
  - intros H. inversion H. left. auto.
  - unfold try_catch. destruct (initialize_try s) as [[o|f] s1]; intros H; inversion H;
      right; (split; [reflexivity|]); do 2 eexists; (split; [reflexivity|]); split; reflexivity.
Qed.

Lemma complete_perform c s s' :
  perform c s = Some s' -> complete (this s) -> complete (this s').
Proof.
  destruct c; cbn [perform]; intros H C;
    try (inversion H; subst;
         match goal with
         | |- complete (this (snd (?m s))) =>
             let S := fresh in
             assert (S : steady m)
               by first [ apply steady_getChats | apply steady_getChatMessages
                        | apply steady_switchStatus | apply steady_uploadImage
                        | apply steady_sendMessage
                        | apply steady_bind; [apply steady_uploadImage|intros ?;
                                              apply steady_sendMessage]
                        | apply steady_sendMessageChain ];
             destruct (S s) as (T & _); now rewrite T
         end).
  - inversion H; subst s'; clear H. destruct (initialize s) as [r s1] eqn:E. cbn [snd].
    apply initialize_inv in E as [(I & -> & ->)|(I & r0 & s2 & E & R)].
    + exact C.
    + apply initialize_try_spec in E as (K & added & Tr & Sg & M).
      destruct r0 as [[]|f].
      * destruct R as (-> & ->).
        destruct M as (_ & A & _ & _ & W). intros _. split; [exact A|].
        eexists. split; [exact W|]. split; [intros u ->|intros sl ->]; reflexivity.
      * destruct R as (-> & ->). intros I'. cbn in I'.
        destruct M as (M & _). rewrite M, I in I'. discriminate I'.
  - inversion H; subst. destruct (isInitialized (this s)) eqn:I.
    + destruct (C I) as (A & c & W & X).
      rewrite (start_eq s c I W). cbn [snd this].
      apply (complete_step (this s) Client.Call_connect c); [exact W|reflexivity|].
      intros _. split; [exact A|]. exists c. split; [exact W|exact X].
    + unfold start, bind. rewrite (ensureInitialized_no s I). exact C.
  - inversion H; subst. rewrite stop_eq. intros I. discriminate I.
  - apply happens_inv in H as (c & c' & l & W & E & T & _). rewrite T.
    now apply (complete_step (this s) ev c).
Qed.

Lemma run_inv calls :
  forall s s', run calls s = Some s' -> complete (this s) ->
    config (this s') = config (this s)
    /\ complete (this s')
    /\ exists added, trace (world s') = (trace (world s) ++ added)%list
         /\ Forall (fun r => cookie r = cookies (config (this s))
                             /\ timeout_ms r = timeout (config (this s)) * 1000)
                   (requests added).
Proof.
  induction calls as [|c calls IH]; intros s s' H C.
  - inversion H; subst. split; [reflexivity|]. split; [exact C|]. exists [].
    rewrite app_nil_r. split; [reflexivity|constructor].
  - cbn [run] in H. destruct (perform c s) as [s1|] eqn:P; [|discriminate].
    destruct (perform_lawful c s s1 P) as (K1 & a1 & T1 & F1).
    destruct (IH s1 s' H (complete_perform c s s1 P C)) as (K2 & C2 & a2 & T2 & F2).
    split; [congruence|]. split; [exact C2|]. exists (a1 ++ a2)%list.
    rewrite T2, T1, <- app_assoc. split; [reflexivity|].
    rewrite requests_app. apply Forall_app. split; [exact F1|]. now rewrite <- K1.
Qed.

(** X28: whatever methods are called on a new bot, and whatever happens
    at its client in between, as far as the model says what the client
    does, the configuration stays the one of the constructor, with a
    cookie that is not empty; every request carries this cookie and the
    configured timeout; and whenever the bot is initialized, it holds the
    account data and it has a client, which is configured with its two
    identifiers when they are strings, so that [start] does not throw. *)
Theorem bot_stays_complete options w calls s0 s :
  created options w = Some s0 -> run calls s0 = Some s ->
  config (this s) = config (this s0)
  /\ cookies (config (this s)) <> ""
  /\ Forall (fun q => cookie q = cookies (config (this s0))
                      /\ timeout_ms q = timeout (config (this s0)) * 1000)
            (requests (produced s0 s))
  /\ complete (this s)
  /\ (isInitialized (this s) = true -> exists s1, start s = (Ok tt, s1)).
Proof.
  unfold created, constructor. intros H R.
  destruct (given_cookies options) as [ck|] eqn:G; [|discriminate].
  destruct (String.eqb_spec ck "") as [|N]; [discriminate|].
  inversion H; subst s0; clear H.
  destruct (run_inv calls _ s R) as (K & C & added & T & F).
  { intros I. discriminate I. }
  split; [exact K|]. split; [rewrite K; exact N|].
  split; [now rewrite (bot_produced_app _ _ _ T)|]. split; [exact C|].
  intros I. destruct (C I) as (_ & c & W & _). eexists. apply (start_eq s c I W).
Qed.

Lemma bot_stays_complete_witness :
  (exists s,
     run [Initialize; Start; Happens (Client.Open 0%nat) 1000; SendText "u9" (JStr "hi")]
         demo_start = Some s
     /\ isInitialized (this s) = true
     /\ length (requests (produced demo_start s)) = 3%nat
     /\ Forall (fun q => cookie q = cookies (config (this demo_start))
                         /\ timeout_ms q = timeout (config (this demo_start)) * 1000)
               (requests (produced demo_start s))
     /\ exists s1, start s = (Ok tt, s1))
  /\ (exists s,
        run [Initialize; Start; Happens (Client.Open 0%nat) 1000] odd_start = Some s
        /\ isInitialized (this s) = true
        /\ userId (this s) = Some (JInt 5)
        /\ sellerId (this s) = None
        /\ exists s1, start s = (Ok tt, s1)).
Proof.
  split.
  - eexists. split; [vm_compute; reflexivity|].
    match goal with |- isInitialized (this ?s) = true /\ _ =>
      destruct (bot_stays_complete demo_options demo_world
                  [Initialize; Start; Happens (Client.Open 0%nat) 1000;
                   SendText "u9" (JStr "hi")] demo_start s eq_refl)
        as (_ & _ & F & _ & S)
    end.
    { vm_compute. reflexivity. }
    split; [reflexivity|]. split; [vm_compute; reflexivity|]. split; [exact F|].
    apply S. reflexivity.
  - eexists. split; [vm_compute; reflexivity|].
    match goal with |- isInitialized (this ?s) = true /\ _ =>
      destruct (bot_stays_complete demo_options (world odd_start)
                  [Initialize; Start; Happens (Client.Open 0%nat) 1000] odd_start s eq_refl)
        as (_ & _ & _ & _ & S)
    end.
    { vm_compute. reflexivity. }
    split; [reflexivity|]. split; [reflexivity|]. split; [reflexivity|].
    apply S. reflexivity.
Defined.



Lemma perform_idle c s s' :
  c <> Initialize -> isInitialized (this s) = false -> perform c s = Some s' ->
  isInitialized (this s') = false
  /\ exists added, trace (world s') = (trace (world s) ++ added)%list /\ requests added = [].
Proof.
  intros N I.
  assert (Z : forall A (m : M A), m s = (Fail not_initialized, s) ->
            Some (snd (m s)) = Some s' ->
            isInitialized (this s') = false
            /\ exists added, trace (world s') = (trace (world s) ++ added)%list
                 /\ requests added = []).
  { intros A m E H. rewrite E in H. inversion H; subst. split; [exact I|]. exists [].
    now rewrite app_nil_r. }
  assert (G : forall A (k : M A), (ensureInitialized ;; k)%bot s = (Fail not_initialized, s)).
  { intros A k. unfold bind. now rewrite (ensureInitialized_no s I). }
  destruct c; cbn [perform]; try (now elim N);
    try (apply Z; first [apply G | now apply sendMessage_no]).
  - rewrite stop_eq. intros H; inversion H; subst. split; [reflexivity|].
    eexists. split; reflexivity.
  - apply Z. unfold sendImage, bind at 1.
    now rewrite (G _ _ : uploadImage filePath s = (Fail not_initialized, s)).
  - destruct (chain_fails receiverId not_initialized chain s) as (s1 & E & Q).
    { intros seg s0 _ (Q1 & _). apply send_segment_no. now rewrite Q1. }
    rewrite E. intros H; inversion H; subst.
    destruct Q as (Q1 & _ & _ & _ & added & T & R & _). split; [now rewrite Q1|]. eauto.
  - intros H. apply happens_inv in H as (c & c' & l & _ & _ & T & Tr & R).
    split; [now rewrite T|]. eauto.
Qed.

(** X29: a bot that is not initialized refuses every method that talks
    to the server: [getChats], [getChatMessages], [switchStatus],
    [uploadImage], the four sends and [start] throw "not initialized"
    before they look at their arguments, and leave the state as it is.
    And whatever is called, and whatever happens at the client, as long as
    [initialize] is not called, the bot stays uninitialized and makes no
    request. *)
Theorem uninitialized_bot_asks_nothing s :
  isInitialized (this s) = false ->
  (forall isActive limit, getChats isActive limit s = (Fail not_initialized, s))
  /\ (forall customerUserId limit,
        getChatMessages customerUserId limit s = (Fail not_initialized, s))
  /\ (forall status, switchStatus status s = (Fail not_initialized, s))
  /\ (forall filePath, uploadImage filePath s = (Fail not_initialized, s))
  /\ (forall receiverId filePath, sendImage receiverId filePath s = (Fail not_initialized, s))
  /\ (forall receiverId content,
        sendText receiverId content s = (Fail not_initialized, s)
        /\ sendNote receiverId content s = (Fail not_initialized, s)
        /\ sendCard receiverId content s = (Fail not_initialized, s))
  /\ start s = (Fail not_initialized, s)
  /\ forall calls s',
       Forall (fun c => c <> Initialize) calls -> run calls s = Some s' ->
       isInitialized (this s') = false /\ requests (produced s s') = [].
Proof.
  intros I.
  assert (G : forall A (k : M A), (ensureInitialized ;; k)%bot s = (Fail not_initialized, s)).
  { intros A k. unfold bind. now rewrite (ensureInitialized_no s I). }
  split; [intros; apply G|]. split; [intros; apply G|]. split; [intros; apply G|].
  split; [intros; apply G|].
  split; [intros r f; unfold sendImage, bind at 1;
          now rewrite (G _ _ : uploadImage f s = (Fail not_initialized, s))|].
  split; [intros; repeat split; apply G|]. split; [apply G|].
  intros calls s' F R.
  assert (H : isInitialized (this s') = false
              /\ exists added, trace (world s') = (trace (world s) ++ added)%list
                   /\ requests added = []).
  { clear G. revert s I R. induction F as [|c calls N F IH]; intros s I R.
    - inversion R; subst. split; [exact I|]. exists []. now rewrite app_nil_r.
    - cbn [run] in R. destruct (perform c s) as [s1|] eqn:P; [|discriminate].
      destruct (perform_idle c s s1 N I P) as (I1 & a1 & T1 & R1).
      destruct (IH s1 I1 R) as (I2 & a2 & T2 & R2). split; [exact I2|].
      exists (a1 ++ a2)%list. rewrite T2, T1, <- app_assoc. split; [reflexivity|].
      now rewrite requests_app, R1, R2. }
  destruct H as (I' & added & T & Rq). split; [exact I'|].
  now rewrite (bot_produced_app _ _ _ T).
Qed.

Lemma uninitialized_bot_witness :
  getChatMessages "" None demo_start = (Fail not_initialized, demo_start)
  /\ exists s',
       run [Start; SendText "u9" (JStr "hi"); SendMessageChain "u9" [TextSegment "hi"]; Stop]
           demo_start = Some s'
       /\ requests (produced demo_start s') = [].
Proof.
  destruct (uninitialized_bot_asks_nothing demo_start eq_refl)
    as (_ & H & _ & _ & _ & _ & _ & R).
  split; [apply H|]. eexists. split; [vm_compute; reflexivity|].
  match goal with |- requests (produced _ ?s') = [] =>
    apply (R [Start; SendText "u9" (JStr "hi"); SendMessageChain "u9" [TextSegment "hi"]; Stop]
             s')
  end.
  - repeat constructor; discriminate.
  - vm_compute. reflexivity.
Defined.
End RedoteFacts.
